(** * Monte Carlo tree search for chess: a shallow embedding

    The development follows [game_playing/import chess.py]: the [Node]
    class with its UCB1 priority, [evaluate_board], the four-phase loop of
    [mcts] and [get_top_moves].

    Python objects are mutable and shared, so the search tree lives in an
    object store (a list of [Node] records addressed by index) and the
    boards live in a second store; [board.copy()] allocates, [push]
    updates in place.  Exceptions are results of type [outcome].  The
    rules of the game come from the python-chess library and are taken as
    an interface ([Rules]); [random.choice] reads an arbitrary oracle.

    [evaluate_board] is given twice: on exact rationals, which is how the
    search below carries the scores, and in IEEE 754 binary64
    ([Binary64.evaluate_board]), which is what Python computes; the two
    differ by no more than [2^-43] ([evaluate_board_rounding]). *)

From Stdlib Require Import ZArith QArith Reals Qreals String Lia Lra.
From Stdlib Require Import Sorting.Sorted Sorting.Permutation.
From Stdlib Require Floats.SpecFloat.
From stdpp Require Import base option list.

Open Scope nat_scope.

(** ** Outcomes of a Python computation *)

Inductive exn : Set :=
  | IndexError | ValueError | AttributeError | ZeroDivisionError.

(** [Stuck] is not a Python behaviour: it marks a dangling reference or an
    exhausted loop budget in the model, and is shown not to occur. *)
Inductive outcome (A : Type) : Type :=
  | Ok (a : A)
  | Raise (e : exn)
  | Stuck.
Arguments Ok {A} a.
Arguments Raise {A} e.
Arguments Stuck {A}.

Definition bind {A B} (m : outcome A) (k : A -> outcome B) : outcome B :=
  match m with
  | Ok a => k a
  | Raise e => Raise e
  | Stuck => Stuck
  end.

Notation "'let*' x ':=' m 'in' k" := (bind m (fun x => k))
  (at level 10, x pattern, m at level 100, k at level 200).

(** A reference into a store is an index. *)
Abbreviation ref := nat (only parsing).

(** Reading through a reference. *)
Definition deref {A} (store : list A) (r : ref) : outcome A :=
  match store !! r with
  | Some a => Ok a
  | None => Stuck
  end.

(** ** The chess vocabulary used by the evaluator *)

Definition Color := bool.
Definition WHITE : Color := true.
Definition BLACK : Color := false.

Inductive PieceType : Set := PAWN | KNIGHT | BISHOP | ROOK | QUEEN | KING.

Record Piece : Set := mkPiece { piece_type : PieceType; color : Color }.

#[global] Instance PieceType_eq_dec : EqDecision PieceType.
Proof. solve_decision. Defined.
#[global] Instance Piece_eq_dec : EqDecision Piece.
Proof. solve_decision. Defined.

Definition Square := nat.
Definition D4 : Square := 27.
Definition E4 : Square := 28.
Definition D5 : Square := 35.
Definition E5 : Square := 36.

(** The 64 squares, A1 = 0 up to H8 = 63. *)
Definition SQUARES : list Square := seq 0 64.

(** The capabilities of [chess.Board] that the program calls. *)
Class Rules (Board Move : Type) := {
  legal_moves : Board -> list Move;
  push : Board -> Move -> Board;
  is_game_over : Board -> bool;
  result : Board -> string;
  turn : Board -> Color;
  piece_at : Board -> Square -> option Piece
}.

(** [board.pieces(piece_type, color)]: the squares holding such a piece. *)
Definition pieces `{Rules Board Move} (b : Board) (pt : PieceType) (c : Color)
  : list Square :=
  filter (fun sq => piece_at b sq = Some (mkPiece pt c)) SQUARES.

(** ** Piece values and the evaluator *)

(** The dictionary [PIECE_VALUES], in insertion order. *)
Definition PIECE_VALUES : list (PieceType * Z) :=
  [(PAWN, 1); (KNIGHT, 3); (BISHOP, 3); (ROOK, 5); (QUEEN, 9); (KING, 0)]%Z.

Definition center_squares : list Square := [D4; D5; E4; E5].

Section Evaluator.
Context `{Rules Board Move}.

(** First loop of [evaluate_board]: integer arithmetic only. *)
Definition material_step (b : Board) (score : Z) (kv : PieceType * Z) : Z :=
  let score := (score + Z.of_nat (length (pieces b kv.1 WHITE)) * kv.2)%Z in
  (score - Z.of_nat (length (pieces b kv.1 BLACK)) * kv.2)%Z.

(** Second loop: [score += 0.1] or [score -= 0.1] per centre square.
    Here Python floats are idealised as exact rationals; the floats
    themselves are in [Binary64] below. *)
Definition center_step (b : Board) (score : Q) (sq : Square) : Q :=
  match piece_at b sq with
  | Some p => if color p then (score + (1 # 10))%Q else (score - (1 # 10))%Q
  | None => score
  end.

Definition evaluate_board (b : Board) : Q :=
  let score := fold_left (material_step b) PIECE_VALUES 0%Z in
  fold_left (center_step b) center_squares (inject_Z score).
End Evaluator.

(** ** The evaluator in floating point

    [evaluate_board] above takes the scores as exact rationals.  Here the
    second loop is computed as Python computes it: [score] is an [int]
    until the first [score += 0.1], and from then on a [float], an IEEE
    754 binary64 that every addition rounds to nearest, ties to even. *)
Module Binary64.

(** A Python number: an [int] or a [float]. *)
Inductive number : Set :=
  | Int (z : Z)
  | Float (x : SpecFloat.spec_float).

(** [float(z)], the conversion Python applies to an [int] operand of a
    float addition: exact below [2^53], rounded to nearest above. *)
Definition float_of_int (z : Z) : SpecFloat.spec_float :=
  SpecFloat.binary_normalize 53 1024 z 0 false.

Definition as_float (n : number) : SpecFloat.spec_float :=
  match n with
  | Int z => float_of_int z
  | Float x => x
  end.

(** The literal [0.1]: the binary64 nearest to one tenth,
    [0x1.999999999999ap-4]. *)
Definition tenth : SpecFloat.spec_float :=
  SpecFloat.S754_finite false 7205759403792794 (-56).

(** [score + x] and [score - x] for a float [x]: an [int] is converted
    first. *)
Definition add_float (score : number) (x : SpecFloat.spec_float) : number :=
  Float (SpecFloat.SFadd 53 1024 (as_float score) x).
Definition sub_float (score : number) (x : SpecFloat.spec_float) : number :=
  Float (SpecFloat.SFsub 53 1024 (as_float score) x).

Section Evaluator.
Context `{Rules Board Move}.

Definition center_step (b : Board) (score : number) (sq : Square) : number :=
  match piece_at b sq with
  | Some p => if color p then add_float score tenth
              else sub_float score tenth
  | None => score
  end.

Definition evaluate_board (b : Board) : number :=
  let score := fold_left (material_step b) PIECE_VALUES 0%Z in
  fold_left (center_step b) center_squares (Int score).

End Evaluator.
End Binary64.

(** ** Search nodes *)

Section Search.
Context `{Rules Board Move}.

(** [wins] accumulates ints and floats, idealised as a rational;
    [visits] starts at 0 and is only ever incremented. *)
Record Node : Type := mkNode {
  move : option Move;
  parent : option ref;
  children : list ref;
  wins : Q;
  visits : nat
}.

(** [Node(move, parent)] *)
Definition new_node (m : option Move) (p : option ref) : Node :=
  mkNode m p [] 0%Q 0.

Definition set_children (cs : list ref) (n : Node) : Node :=
  mkNode (move n) (parent n) cs (wins n) (visits n).
Definition set_visits (v : nat) (n : Node) : Node :=
  mkNode (move n) (parent n) (children n) (wins n) v.
Definition set_wins (w : Q) (n : Node) : Node :=
  mkNode (move n) (parent n) (children n) w (visits n).

(** *** UCB1 *)

(** A float that is either [float('inf')] or finite. *)
Inductive priority : Type :=
  | PInf
  | Fin (x : R).

(** Python's [a > b] on such floats. *)
Definition prio_gt (a b : priority) : bool :=
  match a, b with
  | PInf, Fin _ => true
  | Fin x, Fin y => if Rlt_dec y x then true else false
  | _, _ => false
  end.

(** [a / n] for an integer [n]. *)
Definition truediv (a : R) (n : nat) : outcome R :=
  if n =? 0 then Raise ZeroDivisionError else Ok (a / INR n)%R.

(** [math.log(n)] for an integer [n]. *)
Definition math_log (n : nat) : outcome R :=
  if n =? 0 then Raise ValueError else Ok (ln (INR n)).

Definition math_sqrt (x : R) : outcome R :=
  if Rlt_dec x 0 then Raise ValueError else Ok (sqrt x).

Definition default_exploration_weight : R := (14 / 10)%R.

Definition ucb1 (h : list Node) (self : ref) (exploration_weight : R)
  : outcome priority :=
  let* n := deref h self in
  if visits n =? 0 then Ok PInf
  else
    let* avg := truediv (Q2R (wins n)) (visits n) in
    let* p := match parent n with
              | Some p => deref h p
              | None => Raise AttributeError
              end in
    let* lg := math_log (visits p) in
    let* ratio := truediv lg (visits n) in
    let* explore := math_sqrt ratio in
    Ok (Fin (avg + exploration_weight * explore)%R).

(** [max(seq, key=...)]: the first element whose key no later key
    exceeds; [ValueError] on an empty sequence. *)
Fixpoint max_loop {A} (key : A -> outcome priority)
    (best : A) (kbest : priority) (rest : list A) : outcome A :=
  match rest with
  | [] => Ok best
  | x :: rest' =>
      let* kx := key x in
      if prio_gt kx kbest then max_loop key x kx rest'
      else max_loop key best kbest rest'
  end.

Definition py_max {A} (key : A -> outcome priority) (l : list A)
  : outcome A :=
  match l with
  | [] => Raise ValueError
  | x :: rest => let* kx := key x in max_loop key x kx rest
  end.

Definition best_child (h : list Node) (self : ref) : outcome ref :=
  let* n := deref h self in
  py_max (fun child => ucb1 h child default_exploration_weight) (children n).

(** *** The state a search works on *)

(** [random.choice] reads an arbitrary oracle: the [k]-th call on a
    sequence of length [n] returns the element at index [rand k mod n]. *)
Variable rand : nat -> nat.

Definition choice {A} (draws : nat) (seq : list A) : outcome (A * nat) :=
  match seq with
  | [] => Raise IndexError
  | x :: _ => Ok (nth (rand draws mod length seq) seq x, S draws)
  end.

(** The node store, the board store and the number of calls made to
    [random.choice]. *)
Record World : Type := mkWorld {
  nodes : list Node;
  boards : list Board;
  draws : nat
}.

(** The root is the first node a search allocates. *)
Definition root : ref := 0.

(** [temp_board.push(move)] *)
Definition push_at (bs : list Board) (tb : ref) (m : Move)
  : outcome (list Board) :=
  let* b := deref bs tb in
  Ok (<[tb := push b m]> bs).

(** [temp_board.push(node.move)]; the root's move is [None]. *)
Definition push_node_move (h : list Node) (bs : list Board) (tb node : ref)
  : outcome (list Board) :=
  let* n := deref h node in
  match move n with
  | Some m => push_at bs tb m
  | None => Raise AttributeError
  end.

(** *** Selection: [while node.children: ...] *)
Fixpoint select (fuel : nat) (h : list Node) (bs : list Board)
    (tb node : ref) : outcome (ref * list Board) :=
  let* n := deref h node in
  match children n with
  | [] => Ok (node, bs)
  | _ :: _ =>
      match fuel with
      | 0 => Stuck
      | S fuel' =>
          let* c := best_child h node in
          let* bs' := push_node_move h bs tb c in
          select fuel' h bs' tb c
      end
  end.

(** *** Expansion: one child per legal move, appended in order *)
Fixpoint expand_loop (h : list Node) (node : ref) (ms : list Move)
  : outcome (list Node) :=
  match ms with
  | [] => Ok h
  | m :: ms' =>
      let c := length h in
      let h1 := h ++ [new_node (Some m) (Some node)] in
      let* n := deref h1 node in
      expand_loop (<[node := set_children (children n ++ [c]) n]> h1)
                  node ms'
  end.

(** *** Simulation: [while not over and depth < simulation_depth] *)
Fixpoint simulate (fuel : nat) (bs : list Board) (tb : ref) (d : nat)
    (depth simulation_depth : Z) : outcome (list Board * nat) :=
  let* b := deref bs tb in
  if negb (is_game_over b) && (depth <? simulation_depth)%Z then
    match fuel with
    | 0 => Stuck
    | S fuel' =>
        let* (m, d') := choice d (legal_moves b) in
        let* bs' := push_at bs tb m in
        simulate fuel' bs' tb d' (depth + 1)%Z simulation_depth
    end
  else Ok (bs, d).

(** *** Scoring *)
Definition final_score (b : Board) : Q :=
  if is_game_over b then
    if (result b =? "1-0")%string then 1%Q
    else if (result b =? "0-1")%string then (-1)%Q
    else 0%Q
  else evaluate_board b.

(** The amount one loop round of the backpropagation adds to [wins]. *)
Definition signed (b : Board) (score : Q) : Q :=
  if turn b then score else (- score)%Q.

(** *** Backpropagation: [while node is not None: ...] *)
Fixpoint backprop (fuel : nat) (h : list Node) (bs : list Board) (tb : ref)
    (score : Q) (node : option ref) : outcome (list Node) :=
  match node with
  | None => Ok h
  | Some r =>
      match fuel with
      | 0 => Stuck
      | S fuel' =>
          let* n := deref h r in
          let n := set_visits (visits n + 1) n in
          let* b := deref bs tb in
          let n := set_wins (wins n + signed b score)%Q n in
          backprop fuel' (<[r := n]> h) bs tb score (parent n)
      end
  end.

(** *** One round of the [for] loop of [mcts] *)
Definition expansion (w : World) (tb node : ref) : outcome (World * ref) :=
  let* b := deref (boards w) tb in
  if negb (is_game_over b) then
    let* h := expand_loop (nodes w) node (legal_moves b) in
    let* n := deref h node in
    let* (c, d) := choice (draws w) (children n) in
    let* bs := push_node_move h (boards w) tb c in
    Ok (mkWorld h bs d, c)
  else Ok (w, node).

Definition iteration (board : ref) (simulation_depth : Z) (w : World)
  : outcome World :=
  let node := root in
  let* b := deref (boards w) board in
  let tb := length (boards w) in
  let bs := boards w ++ [b] in
  let* (node, bs) := select (length (nodes w)) (nodes w) bs tb node in
  let* (w1, node) := expansion (mkWorld (nodes w) bs (draws w)) tb node in
  let depth := 0%Z in
  let* (bs, d) := simulate (Z.to_nat simulation_depth) (boards w1) tb
                    (draws w1) depth simulation_depth in
  let* b := deref bs tb in
  let score := final_score b in
  let* h := backprop (length (nodes w1)) (nodes w1) bs tb score (Some node) in
  Ok (mkWorld h bs d).

Fixpoint mcts_loop (n : nat) (board : ref) (simulation_depth : Z)
    (w : World) : outcome World :=
  match n with
  | 0 => Ok w
  | S n' =>
      let* w' := iteration board simulation_depth w in
      mcts_loop n' board simulation_depth w'
  end.

Definition default_iterations : Z := 1000.
Definition default_simulation_depth : Z := 20.

(** [mcts(board, iterations, simulation_depth)], called with the board
    store [bs] and after [d] earlier calls to [random.choice].  The
    result is the tree (its root is [root]) and the stores. *)
Definition mcts (bs : list Board) (d : nat) (board : ref)
    (iterations simulation_depth : Z) : outcome World :=
  (* root = Node() *)
  let w := mkWorld [new_node None None] bs d in
  (* for _ in range(iterations) *)
  mcts_loop (Z.to_nat iterations) board simulation_depth w.

(** *** Ranking *)

(** Where [sorted(..., reverse=True)] puts one more element: before the
    first element whose key is not larger (the sort is stable). *)
Fixpoint insert_desc (x : nat * ref) (l : list (nat * ref))
  : list (nat * ref) :=
  match l with
  | [] => [x]
  | y :: l' => if y.1 <=? x.1 then x :: l else y :: insert_desc x l'
  end.

Definition sorted_desc (l : list (nat * ref)) : list (nat * ref) :=
  foldr insert_desc [] l.

(** Pair each child with its key [child.visits]. *)
Fixpoint with_visits (h : list Node) (cs : list ref)
  : outcome (list (nat * ref)) :=
  match cs with
  | [] => Ok []
  | c :: cs' =>
      let* n := deref h c in
      let* rest := with_visits h cs' in
      Ok ((visits n, c) :: rest)
  end.

(** [seq[:n]] for an integer [n] of either sign. *)
Definition slice_to {A} (n : Z) (l : list A) : list A :=
  if (0 <=? n)%Z then take (Z.to_nat n) l
  else take (Z.to_nat (Z.of_nat (length l) + n)) l.

Definition default_top_n : Z := 3.

Definition get_top_moves (h : list Node) (node : ref) (top_n : Z)
  : outcome (list ref) :=
  let* n := deref h node in
  let* keyed := with_visits h (children n) in
  Ok (slice_to top_n (map snd (sorted_desc keyed))).

(** The quotient [node.wins / node.visits] that [show_suggestions]
    prints for each ranked move. *)
Definition average (h : list Node) (node : ref) : outcome R :=
  let* n := deref h node in
  truediv (Q2R (wins n)) (visits n).
End Search.

Arguments Node Move : clear implicits.
Arguments World Board Move : clear implicits.

(** ** The game window

    The logic of [ChessGUI]: which position is on the board, what the
    window shows and whose move it is.  Drawing the position (SVG, PDF
    and image conversion) and the Tk widgets are outside the model: the
    canvas is the position last drawn, the text area a list of lines and
    the suggestion frame a list of buttons.  Numbers are shown as they
    are, not rounded to two decimals. *)

Section Window.
Context `{Rules Board Move}.
Variable rand : nat -> nat.

(** The lines [show_suggestions] writes. *)
Inductive line : Type :=
  | Heading                                (* "Sugerencias de movimientos:" *)
  | MoveLine (i : nat) (m : option Move)   (* "Move {i + 1}: {move}" *)
  | ScoreLine (score : R)                  (* "  - Score: {score}" *)
  | VisitsLine (v : nat)                   (* "  - Visits: {node.visits}" *)
  | WinRateLine (rate : R)                 (* "  - Win Rate: {...}" *)
  | EmptyLine.

(** The text of [move_var]. *)
Inductive caption : Type :=
  | NoCaption
  | LastMove (m : Move)                    (* "Last move: {move}" *)
  | OpponentMove (m : Move).               (* "Opponent's move: {move}" *)

(** A button "Move {i + 1}" whose command is [make_move(m)] with
    [m = node.move]. *)
Record button : Type := mkButton {
  button_text : nat;
  button_move : option Move
}.

Record ChessGUI : Type := mkChessGUI {
  gui_board : ref;
  gui_canvas : option Board;
  gui_move_var : caption;
  gui_text_area : list line;
  gui_suggestion_frame : list button
}.

(** The window together with the board store and the number of calls
    made to [random.choice]. *)
Record Process : Type := mkProcess {
  window : ChessGUI;
  positions : list Board;
  choices : nat
}.

Definition set_canvas (c : option Board) (g : ChessGUI) : ChessGUI :=
  mkChessGUI (gui_board g) c (gui_move_var g) (gui_text_area g)
    (gui_suggestion_frame g).
Definition set_move_var (c : caption) (g : ChessGUI) : ChessGUI :=
  mkChessGUI (gui_board g) (gui_canvas g) c (gui_text_area g)
    (gui_suggestion_frame g).
Definition set_suggestions (text : list line) (buttons : list button)
    (g : ChessGUI) : ChessGUI :=
  mkChessGUI (gui_board g) (gui_canvas g) (gui_move_var g) text buttons.

(** First loop of [show_suggestions]:
    [for i, node in enumerate(top_moves)], from index [i] on. *)
Fixpoint report (h : list (Node Move)) (i : nat) (top_moves : list ref)
  : outcome (list line) :=
  match top_moves with
  | [] => Ok []
  | node :: rest =>
      let* n := deref h node in
      let m := move n in
      let* score := truediv (Q2R (wins n)) (visits n) in
      let* rate := truediv (Q2R (wins n)) (visits n) in
      let* more := report h (S i) rest in
      Ok (MoveLine (i + 1) m :: ScoreLine score :: VisitsLine (visits n)
          :: WinRateLine rate :: EmptyLine :: more)
  end.

(** Second loop of [show_suggestions]: one button per ranked move. *)
Fixpoint make_buttons (h : list (Node Move)) (i : nat)
    (top_moves : list ref) : outcome (list button) :=
  match top_moves with
  | [] => Ok []
  | node :: rest =>
      let* n := deref h node in
      let* more := make_buttons h (S i) rest in
      Ok (mkButton (i + 1) (move n) :: more)
  end.

Definition show_suggestions (p : Process) : outcome Process :=
  let g := window p in
  (* the text area is emptied and the old buttons are destroyed *)
  let* w := mcts rand (positions p) (choices p) (gui_board g)
              default_iterations default_simulation_depth in
  let* top_moves := get_top_moves (nodes w) root 3 in
  let* text := report (nodes w) 0 top_moves in
  let* buttons := make_buttons (nodes w) 0 top_moves in
  Ok (mkProcess (set_suggestions (Heading :: text) buttons g)
        (boards w) (draws w)).

(** [make_opponent_move], with [self.update_board] passed as [update]. *)
Definition make_opponent_move_with (update : Process -> outcome Process)
    (p : Process) : outcome Process :=
  let g := window p in
  let* b := deref (positions p) (gui_board g) in
  let* (m, d) := choice rand (choices p) (legal_moves b) in
  let* bs := push_at (positions p) (gui_board g) m in
  update (mkProcess (set_move_var (OpponentMove m) g) bs d).

(** [make_move(move)], with [self.update_board] passed as [update]. *)
Definition make_move_with (update : Process -> outcome Process)
    (move : option Move) (p : Process) : outcome Process :=
  let g := window p in
  match move with
  | None => Raise AttributeError
  | Some m =>
      let* bs := push_at (positions p) (gui_board g) m in
      update (mkProcess (set_move_var (LastMove m) g) bs (choices p))
  end.

(** [update_board]: draw the position, then ask White or move for
    Black.  [fuel] bounds the depth of the calls between [update_board]
    and [make_opponent_move]. *)
Fixpoint update_board (fuel : nat) (p : Process) : outcome Process :=
  match fuel with
  | 0 => Stuck
  | S fuel' =>
      let g := window p in
      let* b := deref (positions p) (gui_board g) in
      let p := mkProcess (set_canvas (Some b) g) (positions p) (choices p) in
      if turn b then show_suggestions p
      else make_opponent_move_with (update_board fuel') p
  end.

Definition make_opponent_move (fuel : nat) : Process -> outcome Process :=
  make_opponent_move_with (update_board fuel).

Definition make_move (fuel : nat) : option Move -> Process -> outcome Process :=
  make_move_with (update_board fuel).
End Window.

Arguments line Move : clear implicits.
Arguments caption Move : clear implicits.
Arguments button Move : clear implicits.
Arguments ChessGUI Board Move : clear implicits.
Arguments Process Board Move : clear implicits.

(** * Shortest paths: [Dijsktra.py] *)
Module Dijsktra.

(** A Python computation ends normally, raises [KeyError], or (in the
    model only) runs out of loop budget. *)
Inductive result (A : Type) : Type :=
  | Done (a : A)
  | KeyError
  | Unfinished.
Arguments Done {A} a.
Arguments KeyError {A}.
Arguments Unfinished {A}.

Definition then_ {A B} (m : result A) (k : A -> result B) : result B :=
  match m with
  | Done a => k a
  | KeyError => KeyError
  | Unfinished => Unfinished
  end.

Notation "'let+' x ':=' m 'in' k" := (then_ m (fun x => k))
  (at level 10, x pattern, m at level 100, k at level 200).

(** ** Python dicts with [str] keys

    The items in insertion order.  Assigning to a key that is present
    keeps its place; a new key goes to the end. *)
Definition dict (V : Type) : Type := list (string * V).

Section Dict.
Context {V : Type}.

Fixpoint get (d : dict V) (k : string) : option V :=
  match d with
  | [] => None
  | (k', v) :: d' => if (k =? k')%string then Some v else get d' k
  end.

(** [k in d] *)
Definition contains (d : dict V) (k : string) : bool :=
  match get d k with Some _ => true | None => false end.

(** [d[k]] *)
Definition getitem (d : dict V) (k : string) : result V :=
  match get d k with Some v => Done v | None => KeyError end.

(** [d[k] = v] *)
Fixpoint setitem (d : dict V) (k : string) (v : V) : dict V :=
  match d with
  | [] => [(k, v)]
  | (k', v') :: d' =>
      if (k =? k')%string then (k', v) :: d'
      else (k', v') :: setitem d' k v
  end.

End Dict.

(** [{node: x for node in d}] *)
Definition constant {V W : Type} (x : W) (d : dict V) : dict W :=
  map (fun kv => (kv.1, x)) d.

(** ** The class [Graph] *)
Record Graph : Type := mkGraph { nodes : dict (dict Z) }.

(** [Graph()] *)
Definition new_graph : Graph := mkGraph [].

Definition add_node (self : Graph) (name : string) : Graph :=
  if negb (contains (nodes self) name)
  then mkGraph (setitem (nodes self) name [])
  else self.

Definition add_edge (self : Graph) (node1 node2 : string) (cost : Z)
    : result Graph :=
  let self := add_node self node1 in
  let self := add_node self node2 in
  let+ adj := getitem (nodes self) node1 in
  let self := mkGraph (setitem (nodes self) node1 (setitem adj node2 cost)) in
  let+ adj := getitem (nodes self) node2 in
  Done (mkGraph (setitem (nodes self) node2 (setitem adj node1 cost))).

(** ** [heapq] on pairs [(cost, node)]

    The queue is used through [heappush], [heappop] and its truth value
    only, so it is kept as the list of its entries; [heappop] takes out
    the least entry in the order of Python tuples: by cost, then by
    name. *)
Definition entry : Type := Z * string.

Definition entry_ltb (x y : entry) : bool :=
  (x.1 <? y.1)%Z || ((x.1 =? y.1)%Z && (x.2 <? y.2)%string).

Definition heappush (pq : list entry) (x : entry) : list entry := x :: pq.

Fixpoint heappop (pq : list entry) : option (entry * list entry) :=
  match pq with
  | [] => None
  | x :: pq' =>
      match heappop pq' with
      | None => Some (x, [])
      | Some (y, rest) =>
          if entry_ltb y x then Some (y, x :: rest) else Some (x, pq')
      end
  end.

(** ** [Graph.dijkstra] *)

(** A tentative distance: [float('inf')] or a number. *)
Inductive distance : Set :=
  | Inf
  | Fin (d : Z).

(** [x < y] for a number [x] and a tentative distance [y]. *)
Definition below (x : Z) (y : distance) : bool :=
  match y with
  | Inf => true
  | Fin y => (x <? y)%Z
  end.

Record search : Type := mkSearch {
  pq : list entry;
  distances : dict distance;
  previous_nodes : dict (option string)
}.

(** The [for neighbor, cost in self.nodes[current_node].items()] loop. *)
Fixpoint relax (items : list (string * Z)) (current_distance : Z)
    (current_node : string) (s : search) : result search :=
  match items with
  | [] => Done s
  | (neighbor, cost) :: items' =>
      let distance := (current_distance + cost)%Z in
      let+ old := getitem (distances s) neighbor in
      if below distance old then
        relax items' current_distance current_node
          (mkSearch (heappush (pq s) (distance, neighbor))
                    (setitem (distances s) neighbor (Fin distance))
                    (setitem (previous_nodes s) neighbor
                       (Some current_node)))
      else relax items' current_distance current_node s
  end.

(** The [while pq] loop. *)
Fixpoint explore (fuel : nat) (self : Graph) (goal : string) (s : search)
    : result search :=
  match heappop (pq s) with
  | None => Done s
  | Some ((current_distance, current_node), rest) =>
      match fuel with
      | 0 => Unfinished
      | S fuel' =>
          let s := mkSearch rest (distances s) (previous_nodes s) in
          if (current_node =? goal)%string then Done s
          else
            let+ items := getitem (nodes self) current_node in
            let+ s := relax items current_distance current_node s in
            explore fuel' self goal s
      end
  end.

(** The [while previous_nodes[node] is not None] loop. *)
Fixpoint rebuild (fuel : nat) (previous_nodes : dict (option string))
    (path : list string) (node : string) : result (list string) :=
  let+ p := getitem previous_nodes node in
  match p with
  | None => Done path
  | Some p =>
      match fuel with
      | 0 => Unfinished
      | S fuel' => rebuild fuel' previous_nodes (path ++ [node]) p
      end
  end.

Definition dijkstra (fuel : nat) (self : Graph) (start goal : string)
    : result (list string * distance) :=
  let s := mkSearch [(0%Z, start)]
             (setitem (constant Inf (nodes self)) start (Fin 0))
             (constant None (nodes self)) in
  let+ s := explore fuel self goal s in
  let+ path := rebuild fuel (previous_nodes s) [] goal in
  let path := rev (path ++ [start]) in
  let+ d := getitem (distances s) goal in
  Done (path, d).

End Dijsktra.

(** * A-star search: [Algoritmo A.py] *)
Module AStar.

(** A number of the search: an [int], or [float('inf')] from the
    heuristic. *)
Inductive num : Set :=
  | Inf
  | Fin (z : Z).

Definition add (x y : num) : num :=
  match x, y with
  | Fin a, Fin b => Fin (a + b)
  | _, _ => Inf
  end.

Definition ltb (x y : num) : bool :=
  match x, y with
  | Fin a, Fin b => (a <? b)%Z
  | Fin _, Inf => true
  | Inf, _ => false
  end.

(** The class [Nodo].  Its objects are never changed after
    [__init__], so a node holds its parent as a value. *)
#[warnings="-register-all"] Inductive Nodo : Type := mkNodo {
  nombre : string;
  g : num;
  h : num;
  f : num;
  padre : option Nodo
}.

(** [Nodo(nombre, g, h, padre)] *)
Definition new_nodo (nombre : string) (g h : num) (padre : option Nodo)
    : Nodo :=
  mkNodo nombre g h (add g h) padre.

(** [Nodo.__lt__] *)
Definition lt (self otro : Nodo) : bool := ltb (f self) (f otro).

(** ** [heapq]

    [heapq] keeps the list as a binary heap and compares its entries with
    [__lt__] only; which of several nodes with the same [f] comes out
    first depends on the layout of the heap.  The search is written
    against what every such queue does: [heappush] adds an entry,
    [heappop] takes out an entry that no other entry is less than, and
    fails on the empty list only. *)
Class Heapq : Type := {
  heappush : list Nodo -> Nodo -> list Nodo;
  heappop : list Nodo -> option (Nodo * list Nodo)
}.

Record heapq_laws `{Heapq} : Prop := mkHeapqLaws {
  heappush_perm : forall heap x, heappush heap x ≡ₚ x :: heap;
  heappop_perm : forall heap x rest,
    heappop heap = Some (x, rest) -> heap ≡ₚ x :: rest;
  heappop_least : forall heap x rest,
    heappop heap = Some (x, rest) -> forall y, y ∈ rest -> lt y x = false;
  heappop_Some : forall heap, heap <> [] -> is_Some (heappop heap)
}.

Section Search.
Context `{Heapq}.
Variable obtener_vecinos : string -> list (string * Z).
Variable heuristica : string -> string -> num.

(** [vecino in cerrada] *)
Definition en_cerrada (cerrada : list string) (vecino : string) : bool :=
  existsb (String.eqb vecino) cerrada.

(** [any(vecino == n.nombre for n in abierta)] *)
Definition en_abierta (abierta : list Nodo) (vecino : string) : bool :=
  existsb (fun n => (vecino =? nombre n)%string) abierta.

(** The [for vecino, coste in obtener_vecinos(...)] loop. *)
Fixpoint explorar (vecinos : list (string * Z)) (nodo_actual : Nodo)
    (objetivo : string) (cerrada : list string) (abierta : list Nodo)
    : list Nodo :=
  match vecinos with
  | [] => abierta
  | (vecino, coste) :: vecinos' =>
      if en_cerrada cerrada vecino then
        explorar vecinos' nodo_actual objetivo cerrada abierta
      else
        let g := add (g nodo_actual) (Fin coste) in
        let h := heuristica vecino objetivo in
        let nodo_vecino := new_nodo vecino g h (Some nodo_actual) in
        if negb (en_abierta abierta vecino) then
          explorar vecinos' nodo_actual objetivo cerrada
            (heappush abierta nodo_vecino)
        else explorar vecinos' nodo_actual objetivo cerrada abierta
  end.

(** The [while nodo_actual] loop: the names from a node up to the node
    without parent. *)
Fixpoint camino_desde (nodo_actual : Nodo) : list string :=
  nombre nodo_actual ::
    match padre nodo_actual with
    | Some p => camino_desde p
    | None => []
    end.

(** The [while abierta] loop. *)
Fixpoint bucle (fuel : nat) (objetivo : string) (abierta : list Nodo)
    (cerrada : list string) : outcome (option (list string)) :=
  match abierta with
  | [] => Ok None
  | _ :: _ =>
      match fuel with
      | 0 => Stuck
      | S fuel' =>
          match heappop abierta with
          | None => Raise IndexError
          | Some (nodo_actual, abierta) =>
              if (nombre nodo_actual =? objetivo)%string then
                Ok (Some (rev (camino_desde nodo_actual)))
              else
                let cerrada := nombre nodo_actual :: cerrada in
                bucle fuel' objetivo
                  (explorar (obtener_vecinos (nombre nodo_actual))
                     nodo_actual objetivo cerrada abierta)
                  cerrada
          end
      end
  end.

Definition a_estrella (fuel : nat) (inicio objetivo : string)
    : outcome (option (list string)) :=
  let nodo_inicio :=
    new_nodo inicio (Fin 0) (heuristica inicio objetivo) None in
  bucle fuel objetivo (heappush [] nodo_inicio) [].

End Search.

(** ** The example of the file *)

(** [grafo.get(nodo, [])] *)
Definition obtener_vecinos (nodo : string) : list (string * Z) :=
  if (nodo =? "A")%string then [("B", 1%Z); ("C", 4%Z)]%string
  else if (nodo =? "B")%string
  then [("A", 1%Z); ("C", 2%Z); ("D", 5%Z)]%string
  else if (nodo =? "C")%string
  then [("A", 4%Z); ("B", 2%Z); ("D", 1%Z)]%string
  else if (nodo =? "D")%string then [("B", 5%Z); ("C", 1%Z)]%string
  else [].

(** [heuristicas.get(nodo, float('inf'))] *)
Definition heuristica (nodo objetivo : string) : num :=
  if (nodo =? "A")%string then Fin 7
  else if (nodo =? "B")%string then Fin 6
  else if (nodo =? "C")%string then Fin 2
  else if (nodo =? "D")%string then Fin 0
  else Inf.

End AStar.

(** ** A small concrete game

    A countdown game on a board with a fixed placement: while plies remain
    the side to move has two moves, each of which passes the turn; when
    none remain the side to move has lost.  It instantiates [Rules] so
    that the general statements below can be run on concrete inputs. *)
Module Toy.
Record board : Set := mkBoard {
  placement : list (Square * Piece);
  to_move : Color;
  plies : nat
}.

Fixpoint lookup_square (sq : Square) (l : list (Square * Piece))
  : option Piece :=
  match l with
  | [] => None
  | (s, p) :: l' => if s =? sq then Some p else lookup_square sq l'
  end.

#[global] Instance rules : Rules board nat := {|
  legal_moves b := if plies b =? 0 then [] else [0; 1];
  push b m := mkBoard (placement b) (negb (to_move b)) (plies b - 1);
  is_game_over b := plies b =? 0;
  result b :=
    if plies b =? 0 then (if to_move b then "0-1" else "1-0")%string
    else "*"%string;
  turn b := to_move b;
  piece_at b sq := lookup_square sq (placement b)
|}.

(** White rook on a1, black pawn on h7, White to move. *)
Definition rook_vs_pawn (n : nat) : board :=
  mkBoard [(0, mkPiece ROOK WHITE); (55, mkPiece PAWN BLACK)] WHITE n.

(** An oracle for [random.choice]. *)
Definition rand (k : nat) : nat := k.

(** A root visited five times with a visited and an unvisited child. *)
Definition two_children : list (Node nat) :=
  [mkNode None None [1; 2] 2 5;
   mkNode (Some 0) (Some 0) [] 2 5;
   mkNode (Some 1) (Some 0) [] 0 0].

(** A root whose three children have (visits, wins) = (10, 5), (3, 3)
    and (20, 1). *)
Definition three_children : list (Node nat) :=
  [mkNode None None [1; 2; 3] 9 33;
   mkNode (Some 0) (Some 0) [] 5 10;
   mkNode (Some 1) (Some 0) [] 3 3;
   mkNode (Some 2) (Some 0) [] 1 20].
End Toy.

(** ** Vocabulary of the statements

    The notions the properties below are stated with: the evaluator's
    description, the order of a ranking, the shape of the search tree and
    the phases of one round of the loop. *)

Section Vocabulary.
Context `{Rules Board Move} (rand : nat -> nat).
Implicit Types (h : list (Node Move)) (n : Node Move) (ms : list Move).
Implicit Types (w : World Board Move) (cs : list ref).

(** The value table as the description gives it. *)
Definition piece_value (pt : PieceType) : Z :=
  match pt with
  | PAWN => 1 | KNIGHT => 3 | BISHOP => 3
  | ROOK => 5 | QUEEN => 9 | KING => 0
  end%Z.

(** What the piece on [sq] is worth to side [c]. *)
Definition worth (b : Board) (c : Color) (sq : Square) : Z :=
  match piece_at b sq with
  | Some p => if bool_decide (color p = c) then piece_value (piece_type p)
              else 0%Z
  | None => 0%Z
  end.

Definition occupied_by (b : Board) (c : Color) (sq : Square) : Z :=
  match piece_at b sq with
  | Some p => if bool_decide (color p = c) then 1%Z else 0%Z
  | None => 0%Z
  end.

Definition sum_over (f : Square -> Z) (l : list Square) : Z :=
  foldr (fun sq acc => (f sq + acc)%Z) 0%Z l.

(** Material of side [c]: the values of its pieces, square by square. *)
Definition side_material (b : Board) (c : Color) : Z :=
  sum_over (worth b c) SQUARES.

(** Number of centre squares held by side [c]. *)
Definition center_count (b : Board) (c : Color) : Z :=
  sum_over (occupied_by b c) center_squares.

Definition count_on (b : Board) (l : list Square) (pt : PieceType)
    (c : Color) : Z :=
  Z.of_nat (length (filter (fun sq => piece_at b sq = Some (mkPiece pt c)) l)).

(** The placement of a board that holds a white rook on [r], a black
    pawn on [p] and nothing else. *)
Definition rook_and_pawn_only (b : Board) (r p : Square) : Prop :=
  r < 64 /\ p < 64 /\ r <> p /\
  forall sq, sq < 64 ->
    piece_at b sq =
      if decide (sq = r) then Some (mkPiece ROOK WHITE)
      else if decide (sq = p) then Some (mkPiece PAWN BLACK)
      else None.

(** The visit count behind a reference. *)
Definition visits_of h (r : ref) : nat :=
  match h !! r with
  | Some n => visits n
  | None => 0
  end.

Definition by_visits_desc h (a b : ref) : Prop :=
  visits_of h b <= visits_of h a.

Definition key_desc (a b : nat * ref) : Prop := b.1 <= a.1.

(** The children of [self] are live, point back to it and have been
    visited no more often than it. *)
Definition family h (self : ref) (n : Node Move) : Prop :=
  forall c, c ∈ children n ->
    exists cn, h !! c = Some cn /\ parent cn = Some self /\
               visits cn <= visits n.

(** Every position that is not over has a legal move (python-chess
    declares a position without legal moves over, as checkmate or
    stalemate). *)
Definition playable : Prop :=
  forall b : Board, is_game_over b = false -> legal_moves b <> [].

(** [played b ms b']: from [b], the moves [ms] were played in turn, each
    one legal in a position that was not over, and led to [b']. *)
Inductive played : Board -> list Move -> Board -> Prop :=
  | played_nil b : played b [] b
  | played_cons b m ms b' :
      is_game_over b = false -> m ∈ legal_moves b ->
      played (push b m) ms b' -> played b (m :: ms) b'.

(** The store holds a tree: the root has no parent, every other node
    has one, allocated before it and visited at least as often, and the
    children of a node are live nodes that point back to it and carry a
    move. *)
Record tree h : Prop := mkTree {
  tree_root : exists r, h !! root = Some r /\ parent r = None;
  tree_parent : forall i n p,
    h !! i = Some n -> parent n = Some p ->
    p < i /\ exists pn, h !! p = Some pn /\ visits n <= visits pn;
  tree_nonroot : forall i n,
    h !! i = Some n -> i <> root -> is_Some (parent n);
  tree_children : forall i n c,
    h !! i = Some n -> c ∈ children n ->
    exists cn, h !! c = Some cn /\ parent cn = Some i /\ is_Some (move cn)
}.

(** Between two rounds of the loop a node that was never visited has no
    children. *)
Definition settled h : Prop :=
  forall i n, h !! i = Some n -> visits n = 0 -> children n = [].

(** The store after [node] was given one fresh child per move. *)
Definition expanded h (node : ref) n ms : list (Node Move) :=
  <[node := set_children (children n ++ seq (length h) (length ms)) n]> h
  ++ map (fun m => new_node (Some m) (Some node)) ms.

(** One round of the loop on one node. *)
Definition bump (delta : Q) n : Node Move :=
  set_wins (wins n + delta)%Q (set_visits (visits n + 1) n).

(** The nodes the loop walks through: [node], its parent, and so on. *)
Fixpoint path_up (fuel : nat) h (node : option ref) : list ref :=
  match node, fuel with
  | Some r, S fuel' =>
      r :: match h !! r with
           | Some n => path_up fuel' h (parent n)
           | None => []
           end
  | _, _ => []
  end.

(** Parents are allocated before their children. *)
Definition parents_below h : Prop :=
  forall i n p, h !! i = Some n -> parent n = Some p -> p < i.

(** The phases of one round that starts in [w] with input board [b0]:
    selection stops at [leaf] with the temporary board at [b1];
    expansion leaves the world [w1] and the node [node1]; the rollout
    plays [ms] and stops at [fb]; backpropagation adds [delta] along
    the path from [node1]; the round ends in [w']. *)
Record round (board : ref) (sd : Z) w (b0 : Board) (leaf : ref)
    (b1 : Board) w1 (node1 : ref) (ms : list Move) (fb : Board)
    (delta : Q) w' : Prop := mkRound {
  rd_run : iteration rand board sd w = Ok w';
  rd_input : boards w !! board = Some b0;
  rd_leaf : exists nleaf,
    nodes w !! leaf = Some nleaf /\ children nleaf = [];
  rd_root_leaf :
    children <$> nodes w !! root = Some [] -> leaf = root /\ b1 = b0;
  rd_best : forall n c,
    nodes w !! root = Some n -> children n <> [] ->
    best_child (nodes w) root = Ok c ->
    children <$> nodes w !! c = Some [] -> leaf = c;
  rd_expansion :
    (is_game_over b1 = true /\ nodes w1 = nodes w /\ node1 = leaf /\
     draws w1 = draws w /\ boards w1 !! length (boards w) = Some b1) \/
    (is_game_over b1 = false /\
     (exists nleaf, nodes w !! leaf = Some nleaf /\
        nodes w1 = expanded (nodes w) leaf nleaf (legal_moves b1)) /\
     length (nodes w) <= node1
       < length (nodes w) + length (legal_moves b1) /\
     draws w1 = S (draws w) /\
     exists m, boards w1 !! length (boards w) = Some (push b1 m));
  rd_tree1 : tree (nodes w1);
  rd_rollout : exists b2,
    boards w1 !! length (boards w) = Some b2 /\ played b2 ms fb /\
    length ms <= Z.to_nat sd /\
    (is_game_over fb = true \/ length ms = Z.to_nat sd);
  rd_delta : delta = signed fb (final_score fb);
  rd_nodes : forall i,
    nodes w' !! i =
      if decide (i ∈ path_up (length (nodes w1)) (nodes w1) (Some node1))
      then bump delta <$> nodes w1 !! i
      else nodes w1 !! i;
  rd_length : length (nodes w') = length (nodes w1);
  rd_boards : boards w' = <[length (boards w) := fb]> (boards w1);
  rd_boards1 :
    length (boards w1) = S (length (boards w)) /\
    forall j, j < length (boards w) -> boards w1 !! j = boards w !! j;
  rd_draws : draws w' = draws w1 + length ms
}.

(** The nodes whose statistics a round updates: the path from [node1] up
    to the root. *)
Definition round_path w1 (node1 : ref) : list ref :=
  path_up (length (nodes w1)) (nodes w1) (Some node1).

(** The state between two rounds of a search whose input is [board]. *)
Definition coherent (board : ref) w : Prop :=
  tree (nodes w) /\ settled (nodes w) /\ board < length (boards w).

(** What [k] rounds have done to the world. *)
Record advance (k : nat) w w' : Prop := mkAdvance {
  adv_root : forall r, nodes w !! root = Some r ->
    exists r', nodes w' !! root = Some r' /\ visits r' = visits r + k;
  adv_old : forall i n, nodes w !! i = Some n ->
    exists n', nodes w' !! i = Some n' /\ visits n <= visits n' /\
      (children n <> [] -> children n' = children n);
  adv_boards : forall j, j < length (boards w) ->
    boards w' !! j = boards w !! j;
  adv_boards_length : length (boards w) <= length (boards w')
}.

(** The world a search starts from. *)
Definition initial (bs : list Board) (d : nat) : World Board Move :=
  mkWorld [new_node None None] bs d.

Definition unvisited h cs : nat :=
  length (filter (fun c => visits_of h c = 0) cs).
End Vocabulary.

(** ** Further vocabulary

    Notions used by the properties of the second part. *)

Section MoreVocabulary.
Context `{Rules Board Move}.
Implicit Types (h : list (Node Move)) (n : Node Move) (cs : list ref).
Implicit Types (w : World Board Move).

(** The other colour on the same square. *)
Definition swap_color (p : Piece) : Piece :=
  mkPiece (piece_type p) (negb (color p)).

(** [b'] holds the pieces of [b] with the colours exchanged. *)
Definition colors_swapped (b b' : Board) : Prop :=
  forall sq, sq < 64 -> piece_at b' sq = swap_color <$> piece_at b sq.

(** The children [cs] in the order [get_top_moves] ranks them. *)
Definition ranking h cs : list ref :=
  map snd (sorted_desc (map (fun c => (visits_of h c, c)) cs)).

(** The visits of the nodes [cs], added up. *)
Definition sum_visits h cs : nat :=
  foldr (fun c acc => visits_of h c + acc) 0 cs.

(** What [k] rounds with rollout bound [sd] have used and kept. *)
Record growth (k : nat) (sd : Z) w w' : Prop := mkGrowth {
  gr_boards : length (boards w') = length (boards w) + k;
  gr_draws :
    draws w <= draws w' /\ draws w' <= draws w + k * (1 + Z.to_nat sd);
  gr_nodes : length (nodes w) <= length (nodes w');
  gr_old : forall i n, nodes w !! i = Some n ->
    exists n', nodes w' !! i = Some n' /\ move n' = move n /\
      parent n' = parent n /\ visits n <= visits n'
}.

(** The largest reward a round can produce. *)
Definition score_bound : Q := 5764 # 10.

(** A node of [h] that was never visited has the score 0 it was created
    with. *)
Definition untouched h : Prop :=
  forall i n, h !! i = Some n -> visits n = 0 -> wins n = 0%Q.

(** From [w] to [w'] every node stays, its visits do not go down, and a
    node with the same visits has the same score. *)
Definition kept w w' : Prop :=
  forall i n, nodes w !! i = Some n ->
    exists n', nodes w' !! i = Some n' /\ visits n <= visits n' /\
      (visits n' = visits n -> wins n' = wins n).

(** Every node with a parent is among the children of that parent. *)
Definition listed h : Prop :=
  forall i n p, h !! i = Some n -> parent n = Some p ->
    exists pn, h !! p = Some pn /\ i ∈ children pn.

(** The root of [h] has one child per legal move of [b], allocated right
    after it and in the order of the moves. *)
Definition rooted (b : Board) h : Prop :=
  exists r,
    h !! root = Some r /\
    children r = seq 1 (length (legal_moves b)) /\
    forall i m, legal_moves b !! i = Some m ->
      exists cn, h !! S i = Some cn /\ move cn = Some m /\
                 parent cn = Some root.

(** [descent h node ms node']: going down from [node], each time from
    a node that has children to the child [best_child] returns, leads to
    [node']; [ms] are the moves of the nodes passed, in order. *)
Inductive descent h : ref -> list Move -> ref -> Prop :=
  | descent_here node : descent h node [] node
  | descent_down node n c cn m ms node' :
      h !! node = Some n -> children n <> [] ->
      best_child h node = Ok c ->
      h !! c = Some cn -> move cn = Some m ->
      descent h c ms node' -> descent h node (m :: ms) node'.
End MoreVocabulary.

(** ** The order of priorities

    The order of the reals, with [PInf] above every finite priority. *)
Definition prio_le (a b : priority) : Prop :=
  match a, b with
  | _, PInf => True
  | PInf, Fin _ => False
  | Fin x, Fin y => (x <= y)%R
  end.

Definition prio_lt (a b : priority) : Prop :=
  match a, b with
  | Fin _, PInf => True
  | Fin x, Fin y => (x < y)%R
  | _, _ => False
  end.

(** ** Vocabulary for the floating-point evaluator *)
Section FloatVocabulary.
Context `{Rules Board Move}.

(** The square on file [file] (a = 0, ..., h = 7) of rank [rank]
    (1, ..., 8). *)
Definition square_at (file rank : nat) : Square := 8 * (rank - 1) + file.

(** d4, d5, e4 and e5. *)
Definition centre : list Square :=
  [square_at 3 4; square_at 3 5; square_at 4 4; square_at 4 5].

(** Number of the squares d4, d5, e4, e5 held by side [c]. *)
Definition centre_held (b : Board) (c : Color) : Z :=
  sum_over (occupied_by b c) centre.

(** White's material minus Black's. *)
Definition material (b : Board) : Z :=
  (side_material b WHITE - side_material b BLACK)%Z.

(** The score as the description gives it, as an exact number. *)
Definition ideal_score (b : Board) : Q :=
  inject_Z (material b)
  + (1 # 10) * inject_Z (centre_held b WHITE)
  - (1 # 10) * inject_Z (centre_held b BLACK).

(** The side that holds [sq], if any. *)
Definition holder (b : Board) (sq : Square) : option Color :=
  color <$> piece_at b sq.
End FloatVocabulary.

(** The number a float stands for: [m * 2^e] with its sign. *)
Definition float_value (x : SpecFloat.spec_float) : option Q :=
  match x with
  | SpecFloat.S754_zero _ => Some 0%Q
  | SpecFloat.S754_finite s m e =>
      let sm := if s then Z.neg m else Z.pos m in
      Some match e with
           | Z.neg p => sm # (2 ^ p)
           | _ => inject_Z (sm * 2 ^ e)
           end
  | _ => None
  end.

Definition value (n : Binary64.number) : option Q :=
  match n with
  | Binary64.Int z => Some (inject_Z z)
  | Binary64.Float x => float_value x
  end.

(** The rounding error allowed for: [2^-43]. *)
Definition rounding : Q := 1 # 8796093022208.

(** [v] is within [rounding] of [x]. *)
Definition about (x v : Q) : Prop :=
  (x - rounding <= v /\ v <= x + rounding)%Q.

(** What a centre square does to the score, by who holds it. *)
Definition float_step (score : Binary64.number) (held : option Color)
    : Binary64.number :=
  match held with
  | Some true => Binary64.add_float score Binary64.tenth
  | Some false => Binary64.sub_float score Binary64.tenth
  | None => score
  end.

(** The same on a score that is a float already. *)
Definition sf_step (x : SpecFloat.spec_float) (held : option Color)
    : SpecFloat.spec_float :=
  match held with
  | Some true => SpecFloat.SFadd 53 1024 x Binary64.tenth
  | Some false => SpecFloat.SFsub 53 1024 x Binary64.tenth
  | None => x
  end.

(** The tenths the centre squares stand for: one up per square held by
    White, one down per square held by Black. *)
Definition tenths (helds : list (option Color)) : Z :=
  foldr (fun held acc =>
           match held with
           | Some true => 1 + acc
           | Some false => -1 + acc
           | None => acc
           end)%Z 0%Z helds.

(** [x] is a finite float within [2^-43] of [t10 / 10]; the comparison
    is made on integers, in units of [2^-56 / 10]. *)
Definition near (x : SpecFloat.spec_float) (t10 : Z) : bool :=
  match x with
  | SpecFloat.S754_zero _ => (t10 =? 0)%Z
  | SpecFloat.S754_finite s m e =>
      (0 <=? e + 56)%Z &&
      (Z.abs (10 * ((if s then Z.neg m else Z.pos m) * 2 ^ (e + 56))
              - t10 * 2 ^ 56) <=? 81920)%Z
  | _ => false
  end.

(** [near] for [x] and for every float reached from [x] by at most [n]
    additions or subtractions of [0.1]. *)
Fixpoint near_all (n : nat) (x : SpecFloat.spec_float) (t10 : Z) : bool :=
  near x t10 &&
  match n with
  | 0 => true
  | S n' =>
      near_all n' (SpecFloat.SFadd 53 1024 x Binary64.tenth) (t10 + 1) &&
      near_all n' (SpecFloat.SFsub 53 1024 x Binary64.tenth) (t10 - 1)
  end.

(** The integers from -576 to 576. *)
Definition materials : list Z :=
  map (fun i => (Z.of_nat i - 576)%Z) (seq 0 1153).

(** ** Further concrete inputs *)
Module Examples.
(** [Toy.rook_vs_pawn] with the colours exchanged. *)
Definition pawn_vs_rook (n : nat) : Toy.board :=
  Toy.mkBoard [(0, mkPiece ROOK BLACK); (55, mkPiece PAWN WHITE)] WHITE n.

(** A window on the position [Toy.rook_vs_pawn n], before anything was
    drawn. *)
Definition fresh_window (n : nat) : Process Toy.board nat :=
  mkProcess (mkChessGUI 0 None NoCaption [] []) [Toy.rook_vs_pawn n] 0.

(** A root whose four children have 5, 7, 5 and 7 visits. *)
Definition tied_children : list (Node nat) :=
  [mkNode None None [1; 2; 3; 4] 0 24;
   mkNode (Some 0) (Some 0) [] 1 5;
   mkNode (Some 1) (Some 0) [] 2 7;
   mkNode (Some 2) (Some 0) [] 0 5;
   mkNode (Some 3) (Some 0) [] (-1) 7].

(** White pawns on d4, d5 and e4, nothing else. *)
Definition three_pawns : Toy.board :=
  Toy.mkBoard [(27, mkPiece PAWN WHITE); (35, mkPiece PAWN WHITE);
               (28, mkPiece PAWN WHITE)] WHITE 3.
End Examples.

(** ** Vocabulary for graphs and shortest paths *)
Module Paths.
Import Dijsktra.

#[local] Instance string_eq_dec : EqDecision string := String.string_dec.

(** [name in self.nodes] *)
Definition has_node (g : Graph) (name : string) : Prop :=
  is_Some (get (nodes g) name).

(** [self.nodes[u][v]], when both lookups succeed. *)
Definition cost_of (g : Graph) (u v : string) : option Z :=
  match get (nodes g) u with
  | Some items => get items v
  | None => None
  end.

(** [(v, c)] is one of the items of [self.nodes[u]]. *)
Definition edge (g : Graph) (u v : string) (c : Z) : Prop :=
  exists items, get (nodes g) u = Some items /\ (v, c) ∈ items.

(** Every neighbour is a node. *)
Definition closed (g : Graph) : Prop :=
  forall u v c, edge g u v c -> has_node g v.

Definition nonnegative (g : Graph) : Prop :=
  forall u v c, edge g u v c -> (0 <= c)%Z.

(** The graphs the class makes: from [Graph()] by [add_node] and
    [add_edge]; [built_nonneg] also asks every cost to be at least 0. *)
Inductive built : Graph -> Prop :=
  | built_new : built new_graph
  | built_node g name : built g -> built (add_node g name)
  | built_edge g a b c g' :
      built g -> (0 <= c)%Z -> add_edge g a b c = Done g' -> built g'.

(** Each key occurs once, in the graph and in every adjacency dict. *)
Definition proper (g : Graph) : Prop :=
  NoDup (nodes g).*1 /\
  forall u items, get (nodes g) u = Some items -> NoDup items.*1.

(** [route g path u w c]: [path] lists the nodes of a walk from [u] to
    [w] along edges of [g], of total cost [c]. *)
Inductive route (g : Graph) : list string -> string -> string -> Z -> Prop :=
  | route_one u : route g [u] u u 0
  | route_step u v c path w total :
      edge g u v c -> route g (v :: path) v w total ->
      route g (u :: v :: path) u w (c + total).

(** The number of items of the adjacency dicts of the nodes outside
    [done]. *)
Definition load (done : list string) (ns : dict (dict Z)) : nat :=
  sum_list (map (fun kv => if decide (kv.1 ∈ done) then 0 else length kv.2)
                ns).

(** A loop budget that suffices for [dijkstra]. *)
Definition budget (g : Graph) : nat := 2 + load [] (nodes g).

(** [u] entered [done] before [v] did ([done] has the latest first). *)
Definition before (done : list string) (u v : string) : Prop :=
  forall l1 l2, done = l1 ++ v :: l2 -> u ∈ l2.

(** What holds of the search between two steps of the loops of
    [dijkstra].  [done] lists the nodes whose items were gone through,
    [lo] is the distance popped last, [u] the node popped last and
    [todo] its items still to go through; [m] bounds the loop rounds
    left. *)
Record invariant (g : Graph) (start goal : string) (done : list string)
    (lo : Z) (u : string) (todo : list (string * Z)) (m : nat)
    (s : search) : Prop := mkInvariant {
  inv_keys_d : forall v, has_node g v -> is_Some (get (distances s) v);
  inv_keys_p :
    forall v, has_node g v <-> is_Some (get (previous_nodes s) v);
  inv_start :
    get (distances s) start = Some (Fin 0) /\
    get (previous_nodes s) start = Some None;
  inv_lo : (0 <= lo)%Z;
  inv_pq : forall d w, (d, w) ∈ pq s ->
    (lo <= d)%Z /\ has_node g w /\
    exists d', get (distances s) w = Some (Fin d') /\ (d' <= d)%Z;
  inv_nodup : NoDup (pq s);
  inv_pending : forall w dw, get (distances s) w = Some (Fin dw) ->
    (dw, w) ∈ pq s \/ w ∈ done;
  inv_done : forall w, w ∈ done ->
    exists dw,
      get (distances s) w = Some (Fin dw) /\ (dw <= lo)%Z /\
      ((dw, w) ∉ pq s) /\
      forall v c, edge g w v c ->
        (w = u /\ (v, c) ∈ todo) \/
        exists dv, get (distances s) v = Some (Fin dv) /\ (dv <= dw + c)%Z;
  inv_goal : goal ∉ done;
  inv_prev : forall v dv, v <> start ->
    get (distances s) v = Some (Fin dv) ->
    exists p dp c,
      get (previous_nodes s) v = Some (Some p) /\ p ∈ done /\
      get (distances s) p = Some (Fin dp) /\ edge g p v c /\
      dv = (dp + c)%Z /\ before done p v;
  inv_unreached : forall v, get (distances s) v = Some Inf ->
    get (previous_nodes s) v = Some None;
  inv_size : length (pq s) + length todo + load done (nodes g) <= m;
  inv_budget : length done + m < budget g
}.

(** What holds when the [while pq] loop is left. *)
Record explored (g : Graph) (start goal : string) (done : list string)
    (s : search) : Prop := mkExplored {
  exp_keys_d : forall v, has_node g v -> is_Some (get (distances s) v);
  exp_keys_p :
    forall v, has_node g v <-> is_Some (get (previous_nodes s) v);
  exp_start :
    get (distances s) start = Some (Fin 0) /\
    get (previous_nodes s) start = Some None;
  exp_goal : goal ∉ done;
  exp_prev : forall v dv, v <> start ->
    get (distances s) v = Some (Fin dv) ->
    exists p dp c,
      get (previous_nodes s) v = Some (Some p) /\ p ∈ done /\
      get (distances s) p = Some (Fin dp) /\ edge g p v c /\
      dv = (dp + c)%Z /\ before done p v;
  exp_unreached : forall v, get (distances s) v = Some Inf ->
    get (previous_nodes s) v = Some None;
  exp_budget : length done < budget g;
  exp_best : forall path c, route g path start goal c ->
    exists d, get (distances s) goal = Some (Fin d) /\ (d <= c)%Z
}.

(** The adjacency dict of [u], empty when [u] is no node. *)
Definition items_of (g : Graph) (u : string) : dict Z :=
  default [] (get (nodes g) u).

(** Every edge can be taken in both directions at the same cost. *)
Definition undirected (g : Graph) : Prop :=
  forall u v c, edge g u v c -> edge g v u c.

(** A sequence of calls of [add_edge]. *)
Fixpoint add_edges (es : list (string * string * Z)) (g : Graph)
    : result Graph :=
  match es with
  | [] => Done g
  | (a, b, c) :: es' => let+ g' := add_edge g a b c in add_edges es' g'
  end.

(** The map of the example at the end of the file. *)
Definition game_map_edges : list (string * string * Z) :=
  [("Inicio", "Bosque", 2%Z); ("Bosque", "Cueva", 3%Z);
   ("Bosque", "Río", 1%Z); ("Cueva", "Montaña", 4%Z);
   ("Río", "Montaña", 2%Z); ("Montaña", "Final", 1%Z)]%string.

Definition game_map : Graph :=
  match add_edges game_map_edges new_graph with
  | Done g => g
  | _ => new_graph
  end.

End Paths.

(** ** Vocabulary for the A-star search *)
Module Caminos.
Import AStar.

Section Grafo.
Variable obtener_vecinos : string -> list (string * Z).

(** [v] is listed among the neighbours of [u], at some cost. *)
Definition vecino_de (u v : string) : Prop :=
  exists c, (v, c) ∈ obtener_vecinos u.

(** [camino path a b]: [path] lists the nodes of a walk from [a] to [b],
    each one a neighbour of the one before. *)
Inductive camino : list string -> string -> string -> Prop :=
  | camino_uno u : camino [u] u u
  | camino_paso u v path w :
      vecino_de u v -> camino (v :: path) v w ->
      camino (u :: v :: path) u w.

Definition alcanzable (a b : string) : Prop := exists path, camino path a b.

(** The names in [names] have all their neighbours in [names]. *)
Definition cerrado_por_vecinos (names : list string) : Prop :=
  forall u v, u ∈ names -> vecino_de u v -> v ∈ names.

(** The chain of parents of a node is a walk from [inicio] that visits
    no name twice. *)
Fixpoint trazado (inicio : string) (n : Nodo) : Prop :=
  match n with
  | mkNodo nm _ _ _ None => nm = inicio
  | mkNodo nm _ _ _ (Some p) =>
      vecino_de (nombre p) nm /\ (nm ∉ camino_desde p) /\ trazado inicio p
  end.

(** The names of [names] that are not in [cerrada]. *)
Definition pendientes (names cerrada : list string) : list string :=
  filter (fun x => en_cerrada cerrada x = false) names.

(** What holds of the open and the closed list between two rounds of
    the [while abierta] loop. *)
Record estado_ok (names : list string) (inicio objetivo : string)
    (abierta : list Nodo) (cerrada : list string) : Prop := mkEstadoOk {
  ok_nodup : NoDup (map nombre abierta);
  ok_fresh : forall n, n ∈ abierta ->
    (nombre n ∉ cerrada) /\ nombre n ∈ names;
  ok_traza : forall n, n ∈ abierta ->
    trazado inicio n /\
    forall p x, padre n = Some p -> x ∈ camino_desde p -> x ∈ cerrada;
  ok_cerrada : forall x, x ∈ cerrada -> x ∈ names /\ x <> objetivo;
  ok_inicio : inicio ∈ cerrada \/ inicio ∈ map nombre abierta;
  ok_frontera : forall u v, u ∈ cerrada -> vecino_de u v ->
    v ∈ cerrada \/ v ∈ map nombre abierta
}.

End Grafo.

(** A queue for the examples: the first entry that no other entry is
    less than. *)
Fixpoint pop_min (heap : list Nodo) : option (Nodo * list Nodo) :=
  match heap with
  | [] => None
  | x :: heap' =>
      match pop_min heap' with
      | None => Some (x, [])
      | Some (y, rest) =>
          if lt y x then Some (y, x :: rest) else Some (x, heap')
      end
  end.

(** [heappush] without any order. *)
#[local] Instance lista : Heapq := {|
  heappush heap x := x :: heap;
  heappop := pop_min
|}.

(** The names of the example. *)
Definition letras : list string := ["A"; "B"; "C"; "D"]%string.

End Caminos.

(** ** The evaluator against its description *)

Section EvaluatorSpec.
Context `{Rules Board Move}.

Lemma count_on_cons b sq l pt c :
  count_on b (sq :: l) pt c =
  ((if bool_decide (piece_at b sq = Some (mkPiece pt c)) then 1 else 0)
   + count_on b l pt c)%Z.
Proof.
  unfold count_on. rewrite filter_cons.
  case_bool_decide; destruct (decide _); try contradiction; simpl length; lia.
Qed.

Lemma worth_by_type b c l :
  sum_over (worth b c) l =
  (1 * count_on b l PAWN c + 3 * count_on b l KNIGHT c
   + 3 * count_on b l BISHOP c + 5 * count_on b l ROOK c
   + 9 * count_on b l QUEEN c + 0 * count_on b l KING c)%Z.
Proof.
  induction l as [|sq l IH]; [reflexivity|].
  cbn [sum_over foldr]. fold (sum_over (worth b c) l). rewrite IH.
  rewrite !count_on_cons. unfold worth.
  destruct (piece_at b sq) as [[pt col]|]; cbn [color piece_type].
  - destruct pt, col, c; repeat case_bool_decide; try congruence;
      cbn [piece_value]; lia.
  - repeat case_bool_decide; try congruence; lia.
Qed.

Lemma material_loop b :
  fold_left (material_step b) PIECE_VALUES 0%Z =
  (side_material b WHITE - side_material b BLACK)%Z.
Proof.
  unfold side_material. rewrite !worth_by_type.
  unfold PIECE_VALUES, material_step. cbn [fold_left fst snd].
  unfold count_on, pieces. lia.
Qed.

Lemma center_loop b (s : Z) :
  (fold_left (center_step b) center_squares (inject_Z s) ==
   inject_Z s + (1 # 10) * inject_Z (center_count b WHITE)
   - (1 # 10) * inject_Z (center_count b BLACK))%Q.
Proof.
  unfold center_count, sum_over, center_squares, center_step, occupied_by.
  cbn [fold_left foldr].
  destruct (piece_at b D4) as [[? []]|], (piece_at b D5) as [[? []]|],
    (piece_at b E4) as [[? []]|], (piece_at b E5) as [[? []]|];
    cbn [color bool_decide decide_rel]; unfold WHITE, BLACK;
    repeat case_bool_decide; try congruence;
    cbn [Z.add inject_Z]; unfold Qeq, Qminus, Qplus, Qmult, Qopp, inject_Z;
    cbn [Qnum Qden]; lia.
Qed.

Lemma evaluate_board_formula b :
  (evaluate_board b ==
   inject_Z (side_material b WHITE - side_material b BLACK)
   + (1 # 10) * inject_Z (center_count b WHITE)
   - (1 # 10) * inject_Z (center_count b BLACK))%Q.
Proof. unfold evaluate_board. rewrite material_loop. apply center_loop. Qed.
End EvaluatorSpec.

Section EvaluatorCase.
Context `{Rules Board Move}.

Lemma sum_over_zero (f : Square -> Z) l :
  (forall sq, sq ∈ l -> f sq = 0%Z) -> sum_over f l = 0%Z.
Proof.
  induction l as [|a l IH]; intros Hf; [reflexivity|].
  cbn [sum_over foldr]. fold (sum_over f l).
  rewrite Hf by apply list_elem_of_here.
  rewrite IH; [reflexivity|]. intros sq Hsq. apply Hf.
  by apply list_elem_of_further.
Qed.

Lemma sum_over_single (f : Square -> Z) l r v :
  NoDup l -> r ∈ l ->
  (forall sq, sq ∈ l -> f sq = if decide (sq = r) then v else 0%Z) ->
  sum_over f l = v.
Proof.
  induction l as [|a l IH]; intros Hnd Hr Hf.
  - by apply elem_of_nil in Hr.
  - apply NoDup_cons in Hnd as [Ha Hnd].
    cbn [sum_over foldr]. fold (sum_over f l).
    rewrite Hf by apply list_elem_of_here.
    destruct (decide (a = r)) as [->|Hne].
    + rewrite sum_over_zero; [lia|].
      intros sq Hsq. rewrite Hf by (by apply list_elem_of_further).
      destruct (decide (sq = r)) as [->|]; [contradiction|reflexivity].
    + apply elem_of_cons in Hr as [->|Hr]; [congruence|].
      rewrite IH; [lia|assumption|assumption|].
      intros sq Hsq. apply Hf. by apply list_elem_of_further.
Qed.

Lemma in_SQUARES sq : sq ∈ SQUARES <-> sq < 64.
Proof. unfold SQUARES. rewrite elem_of_seq. lia. Qed.
End EvaluatorCase.

(** ** Ranking the root's children *)

Section Ranking.
Context `{Rules Board Move}.
Implicit Types (h : list (Node Move)) (l : list (nat * ref)).

Lemma insert_desc_perm x l : insert_desc x l ≡ₚ x :: l.
Proof.
  induction l as [|y l IH]; [reflexivity|].
  cbn [insert_desc]. destruct (y.1 <=? x.1); [reflexivity|].
  rewrite IH. apply Permutation_swap.
Qed.

Lemma sorted_desc_perm l : sorted_desc l ≡ₚ l.
Proof.
  induction l as [|x l IH]; [reflexivity|].
  cbn [sorted_desc foldr]. fold (sorted_desc l).
  rewrite insert_desc_perm. by rewrite IH.
Qed.

Lemma insert_desc_sorted x l :
  StronglySorted key_desc l -> StronglySorted key_desc (insert_desc x l).
Proof.
  induction 1 as [|y l Hs IH Hy]; cbn [insert_desc].
  - repeat constructor.
  - destruct (Nat.leb_spec (y.1) (x.1)) as [Hle|Hgt].
    + constructor; [by constructor|].
      constructor; [exact Hle|].
      eapply Forall_impl; [exact Hy|]. unfold key_desc. intros; lia.
    + constructor; [exact IH|].
      rewrite insert_desc_perm. constructor; [unfold key_desc; lia|exact Hy].
Qed.

Lemma sorted_desc_sorted l : StronglySorted key_desc (sorted_desc l).
Proof.
  induction l as [|x l IH]; [constructor|].
  cbn [sorted_desc foldr]. by apply insert_desc_sorted.
Qed.

Lemma with_visits_ok h cs :
  Forall (fun c => is_Some (h !! c)) cs ->
  with_visits h cs = Ok (map (fun c => (visits_of h c, c)) cs).
Proof.
  induction 1 as [|c cs [n Hn] _ IH]; [reflexivity|].
  cbn [with_visits map]. unfold deref, visits_of. rewrite Hn. cbn [bind].
  rewrite IH. reflexivity.
Qed.

Lemma sorted_keys_sorted_refs h l :
  Forall (fun p => p.1 = visits_of h p.2) l ->
  StronglySorted key_desc l ->
  StronglySorted (by_visits_desc h) (map snd l).
Proof.
  intros Hk Hs. induction Hs as [|p l Hs IH Hp]; [constructor|].
  apply Forall_cons in Hk as [Hp1 Hk].
  cbn [map]. constructor; [by apply IH|].
  apply Forall_fmap. rewrite Forall_forall in Hp, Hk. apply Forall_forall.
  intros q Hq. unfold by_visits_desc; cbn.
  specialize (Hp q Hq). specialize (Hk q Hq). unfold key_desc in Hp. lia.
Qed.

(** What [get_top_moves] returns on a node whose children are live. *)
Lemma get_top_moves_ok h node n (top_n : Z) :
  h !! node = Some n ->
  Forall (fun c => is_Some (h !! c)) (children n) ->
  (0 <= top_n)%Z ->
  exists ranked,
    get_top_moves h node top_n = Ok (take (Z.to_nat top_n) ranked) /\
    ranked ≡ₚ children n /\
    StronglySorted (by_visits_desc h) ranked.
Proof.
  intros Hn Hcs Hpos.
  set (keyed := map (fun c => (visits_of h c, c)) (children n)).
  exists (map snd (sorted_desc keyed)). split; [|split].
  - unfold get_top_moves, deref. rewrite Hn. cbn [bind].
    rewrite with_visits_ok by assumption. cbn [bind]. fold keyed.
    unfold slice_to. destruct (Z.leb_spec 0 top_n); [reflexivity|lia].
  - rewrite sorted_desc_perm. subst keyed. rewrite map_map. cbn.
    by rewrite map_id.
  - apply sorted_keys_sorted_refs; [|apply sorted_desc_sorted].
    rewrite sorted_desc_perm. subst keyed. apply Forall_fmap.
    apply Forall_forall. intros c _. reflexivity.
Qed.

(** C5.  [get_top_moves(node, n)] returns the first [n] of the node's
    children arranged by decreasing [visits], whatever their [wins];
    for three children with visits 10, 3 and 20 the top two are the
    child with 20 visits and then the child with 10. *)
Theorem C5_get_top_moves :
  (forall h node n (top_n : Z),
     h !! node = Some n ->
     Forall (fun c => is_Some (h !! c)) (children n) ->
     (0 <= top_n)%Z ->
     exists ranked,
       get_top_moves h node top_n = Ok (take (Z.to_nat top_n) ranked) /\
       ranked ≡ₚ children n /\
       StronglySorted (by_visits_desc h) ranked) /\
  (forall h node n (a b c : ref) na nb nc,
     h !! node = Some n -> children n = [a; b; c] ->
     h !! a = Some na -> h !! b = Some nb -> h !! c = Some nc ->
     visits na = 10 -> visits nb = 3 -> visits nc = 20 ->
     get_top_moves h node 2 = Ok [c; a]).
Proof.
  split; [apply get_top_moves_ok|].
  intros h node n a b c na nb nc Hn Hcs Ha Hb Hc Hva Hvb Hvc.
  unfold get_top_moves, deref. rewrite Hn. cbn [bind]. rewrite Hcs.
  cbn [with_visits]. unfold deref. rewrite Ha, Hb, Hc. cbn [bind].
  rewrite Hva, Hvb, Hvc. reflexivity.
Qed.
End Ranking.

(** ** Selection by UCB1 *)

Section Selection.
Context `{Rules Board Move}.
Implicit Types (h : list (Node Move)) (k : priority).

Lemma ln_INR_nonneg (n : nat) : 0 < n -> (0 <= ln (INR n))%R.
Proof.
  intros Hn. destruct (decide (n = 1)) as [->|Hne].
  - cbn [INR]. rewrite ln_1. lra.
  - left. rewrite <- ln_1. apply ln_increasing; [lra|].
    apply lt_1_INR. lia.
Qed.

Lemma radicand_nonneg (pv v : nat) :
  0 < pv -> 0 < v -> (0 <= ln (INR pv) / INR v)%R.
Proof.
  intros Hpv Hv. apply Rle_mult_inv_pos; [by apply ln_INR_nonneg|].
  by apply lt_0_INR.
Qed.

(** An unvisited node has infinite priority, whatever the weight. *)
Lemma ucb1_unvisited h c n (C : R) :
  h !! c = Some n -> visits n = 0 -> ucb1 h c C = Ok PInf.
Proof.
  intros Hc Hv. unfold ucb1, deref. rewrite Hc. cbn [bind]. by rewrite Hv.
Qed.

(** A visited node under a visited parent has the UCB1 value. *)
Lemma ucb1_visited h c n p pn (C : R) :
  h !! c = Some n -> 0 < visits n ->
  parent n = Some p -> h !! p = Some pn -> 0 < visits pn ->
  ucb1 h c C =
    Ok (Fin (Q2R (wins n) / INR (visits n)
             + C * sqrt (ln (INR (visits pn)) / INR (visits n)))%R).
Proof.
  intros Hc Hv Hp Hpn Hpv. unfold ucb1, deref. rewrite Hc. cbn [bind].
  destruct (Nat.eqb_spec (visits n) 0) as [|_]; [lia|].
  unfold truediv. destruct (Nat.eqb_spec (visits n) 0) as [|_]; [lia|].
  cbn [bind]. rewrite Hp, Hpn. cbn [bind]. unfold math_log.
  destruct (Nat.eqb_spec (visits pn) 0) as [|_]; [lia|]. cbn [bind].
  unfold math_sqrt. destruct (Rlt_dec _ 0) as [Hneg|_]; [|reflexivity].
  pose proof (radicand_nonneg (visits pn) (visits n) Hpv Hv). lra.
Qed.

(** The division by [visits] is never reached with [visits = 0]. *)
Lemma ucb1_no_zero_division h c (C : R) :
  ucb1 h c C <> Raise ZeroDivisionError.
Proof.
  unfold ucb1, deref. destruct (h !! c) as [n|]; cbn [bind]; [|discriminate].
  destruct (Nat.eqb_spec (visits n) 0) as [|Hv]; [discriminate|].
  unfold truediv. destruct (Nat.eqb_spec (visits n) 0) as [|_]; [lia|].
  cbn [bind]. destruct (parent n) as [p|]; cbn [bind]; [|discriminate].
  destruct (h !! p) as [pn|]; cbn [bind]; [|discriminate].
  unfold math_log. destruct (visits pn =? 0); cbn [bind]; [discriminate|].
  unfold math_sqrt. destruct (Rlt_dec _ 0); cbn [bind]; discriminate.
Qed.

Lemma ucb1_inf_unvisited h c n (C : R) :
  h !! c = Some n -> ucb1 h c C = Ok PInf -> visits n = 0.
Proof.
  intros Hc. unfold ucb1, deref. rewrite Hc. cbn [bind].
  destruct (Nat.eqb_spec (visits n) 0) as [|Hv]; [done|].
  unfold truediv. destruct (Nat.eqb_spec (visits n) 0) as [|_]; [lia|].
  cbn [bind]. destruct (parent n) as [p|]; cbn [bind]; [|discriminate].
  destruct (h !! p) as [pn|]; cbn [bind]; [|discriminate].
  unfold math_log. destruct (visits pn =? 0); cbn [bind]; [discriminate|].
  unfold math_sqrt. destruct (Rlt_dec _ 0); cbn [bind]; discriminate.
Qed.

(** [prio_gt] is the strict part of a total preorder. *)
Lemma prio_le_trans k1 k2 k3 :
  prio_gt k1 k2 = false -> prio_gt k2 k3 = false -> prio_gt k1 k3 = false.
Proof.
  destruct k1, k2, k3; cbn; try done;
    repeat destruct (Rlt_dec _ _); try done; lra.
Qed.

Lemma prio_gt_le k1 k2 : prio_gt k1 k2 = true -> prio_gt k2 k1 = false.
Proof.
  destruct k1, k2; cbn; try done; repeat destruct (Rlt_dec _ _); try done; lra.
Qed.

Lemma prio_le_refl k : prio_gt k k = false.
Proof. destruct k; cbn; [done|]. destruct (Rlt_dec _ _); [lra|done]. Qed.

Lemma prio_gt_inf_fin (x : R) : prio_gt PInf (Fin x) = true.
Proof. reflexivity. Qed.

(** Python's [>] is the strict order of the extended reals, and its
    negation the order itself. *)
Lemma prio_gt_true k1 k2 : prio_gt k1 k2 = true <-> prio_lt k2 k1.
Proof.
  destruct k1 as [|x], k2 as [|y]; cbn; try done.
  destruct (Rlt_dec y x); split; done.
Qed.

Lemma prio_gt_false k1 k2 : prio_gt k1 k2 = false <-> prio_le k1 k2.
Proof.
  destruct k1 as [|x], k2 as [|y]; cbn; try done.
  destruct (Rlt_dec y x); split; intros Hle;
    first [done | lra | exfalso; lra].
Qed.

Section MaxLoop.
Context {A : Type} (key : A -> outcome priority).

Lemma max_loop_ok (rest : list A) : forall best kbest,
  key best = Ok kbest ->
  (forall x, x ∈ rest -> exists kx, key x = Ok kx) ->
  exists c kc,
    max_loop key best kbest rest = Ok c /\
    (c = best \/ c ∈ rest) /\ key c = Ok kc /\
    prio_gt kbest kc = false /\
    forall x kx, x ∈ rest -> key x = Ok kx -> prio_gt kx kc = false.
Proof.
  induction rest as [|x rest IH]; intros best kbest Hbest Hkeys.
  - exists best, kbest. repeat split; [by left|done|apply prio_le_refl|].
    intros x kx Hx. by apply elem_of_nil in Hx.
  - destruct (Hkeys x) as [kx Hkx]; [apply list_elem_of_here|].
    assert (Hrest : forall y, y ∈ rest -> exists ky, key y = Ok ky).
    { intros y Hy. apply Hkeys. by apply list_elem_of_further. }
    cbn [max_loop]. rewrite Hkx. cbn [bind].
    destruct (prio_gt kx kbest) eqn:Hgt.
    + destruct (IH x kx Hkx Hrest) as (c & kc & Hrun & Hin & Hkc & Hle & Hall).
      exists c, kc. repeat split; [done| |done| |].
      * right. destruct Hin as [->|Hin];
          [apply list_elem_of_here|by apply list_elem_of_further].
      * apply prio_gt_le in Hgt. by eapply prio_le_trans.
      * intros y ky [->|Hy]%elem_of_cons Hky; [congruence|by eapply Hall].
    + destruct (IH best kbest Hbest Hrest)
        as (c & kc & Hrun & Hin & Hkc & Hle & Hall).
      exists c, kc. repeat split; [done| |done|done|].
      * destruct Hin as [->|Hin]; [by left|right].
        by apply list_elem_of_further.
      * intros y ky [->|Hy]%elem_of_cons Hky; [|by eapply Hall].
        assert (ky = kx) as -> by congruence. by eapply prio_le_trans.
Qed.

Lemma py_max_ok (l : list A) :
  l <> [] ->
  (forall x, x ∈ l -> exists kx, key x = Ok kx) ->
  exists c kc,
    py_max key l = Ok c /\ c ∈ l /\ key c = Ok kc /\
    forall x kx, x ∈ l -> key x = Ok kx -> prio_gt kx kc = false.
Proof.
  destruct l as [|x rest]; [done|]. intros _ Hkeys.
  destruct (Hkeys x) as [kx Hkx]; [apply list_elem_of_here|].
  cbn [py_max]. rewrite Hkx. cbn [bind].
  destruct (max_loop_ok rest x kx Hkx)
    as (c & kc & Hrun & Hin & Hkc & Hle & Hall).
  { intros y Hy. apply Hkeys. by apply list_elem_of_further. }
  exists c, kc. repeat split; [done| |done|].
  - destruct Hin as [->|Hin];
      [apply list_elem_of_here|by apply list_elem_of_further].
  - intros y ky [->|Hy]%elem_of_cons Hky; [|by eapply Hall].
    assert (ky = kx) as -> by congruence. done.
Qed.

Lemma max_loop_no_zero_division (rest : list A) : forall best kbest,
  (forall x, key x <> Raise ZeroDivisionError) ->
  max_loop key best kbest rest <> Raise ZeroDivisionError.
Proof.
  induction rest as [|x rest IH]; intros best kbest Hkey; [discriminate|].
  cbn [max_loop]. specialize (Hkey x) as Hx.
  destruct (key x) as [kx| |]; cbn [bind]; [|congruence|discriminate].
  destruct (prio_gt kx kbest); by apply IH.
Qed.
End MaxLoop.
End Selection.

Section BestChild.
Context `{Rules Board Move}.
Implicit Types (h : list (Node Move)) (k : priority).

Lemma family_keys_ok h self n (C : R) :
  h !! self = Some n -> family h self n ->
  forall c, c ∈ children n -> exists k, ucb1 h c C = Ok k.
Proof.
  intros Hn Hfam c Hc. destruct (Hfam c Hc) as (cn & Hcn & Hp & Hle).
  destruct (decide (visits cn = 0)) as [Hz|Hnz].
  - exists PInf. by eapply ucb1_unvisited.
  - eexists. eapply ucb1_visited; eauto; lia.
Qed.

Lemma best_child_ok h self n :
  h !! self = Some n -> children n <> [] -> family h self n ->
  exists c k,
    best_child h self = Ok c /\ c ∈ children n /\
    ucb1 h c default_exploration_weight = Ok k /\
    forall c' k', c' ∈ children n ->
      ucb1 h c' default_exploration_weight = Ok k' -> prio_gt k' k = false.
Proof.
  intros Hn Hne Hfam. unfold best_child, deref. rewrite Hn. cbn [bind].
  apply py_max_ok; [done|]. by eapply family_keys_ok.
Qed.

Lemma best_child_greatest h self n :
  h !! self = Some n -> children n <> [] -> family h self n ->
  exists c k,
    best_child h self = Ok c /\ c ∈ children n /\
    ucb1 h c default_exploration_weight = Ok k /\
    forall c' k', c' ∈ children n ->
      ucb1 h c' default_exploration_weight = Ok k' -> prio_le k' k.
Proof.
  intros Hn Hne Hfam.
  destruct (best_child_ok h self n Hn Hne Hfam) as (c & k & Hc & Hin & Hk & Hmax).
  exists c, k. split_and!; try done.
  intros c' k' Hc' Hk'. apply prio_gt_false. by eapply Hmax.
Qed.

Lemma best_child_unvisited h self n u un :
  h !! self = Some n -> family h self n ->
  u ∈ children n -> h !! u = Some un -> visits un = 0 ->
  exists c cn,
    best_child h self = Ok c /\ c ∈ children n /\
    h !! c = Some cn /\ visits cn = 0.
Proof.
  intros Hn Hfam Hu Hun Hv.
  destruct (best_child_ok h self n) as (c & k & Hrun & Hc & Hk & Hmax);
    [done| |done|].
  { intros Hnil. rewrite Hnil in Hu. by apply elem_of_nil in Hu. }
  destruct (Hfam c Hc) as (cn & Hcn & _ & _).
  exists c, cn. repeat split; try done.
  pose proof (ucb1_unvisited h u un default_exploration_weight Hun Hv) as Hku.
  specialize (Hmax u PInf Hu Hku).
  destruct k as [|x]; [by eapply ucb1_inf_unvisited|discriminate].
Qed.

Lemma best_child_no_zero_division h self :
  best_child h self <> Raise ZeroDivisionError.
Proof.
  unfold best_child, deref. destruct (h !! self) as [n|]; cbn [bind];
    [|discriminate].
  unfold py_max. destruct (children n) as [|c cs]; [discriminate|].
  pose proof (ucb1_no_zero_division h c default_exploration_weight) as Hc.
  destruct (ucb1 h c _) as [k| |]; cbn [bind]; [|congruence|discriminate].
  apply max_loop_no_zero_division. intros x. apply ucb1_no_zero_division.
Qed.

End BestChild.

(** ** The rollout and its reward *)

Section Rollout.
Context `{Rules Board Move} (rand : nat -> nat).

Lemma choice_ok {A} (d : nat) (l : list A) :
  l <> [] -> exists x, choice rand d l = Ok (x, S d) /\ x ∈ l.
Proof.
  destruct l as [|a l]; [done|]. intros _. eexists. split; [reflexivity|].
  apply nth_elem_of. apply Nat.mod_upper_bound. discriminate.
Qed.

Lemma simulate_ok (tb : ref) (sd : Z) (fuel : nat) :
  playable ->
  forall bs b d (depth : Z),
    bs !! tb = Some b -> Z.to_nat (sd - depth) <= fuel ->
    exists ms b',
      simulate rand fuel bs tb d depth sd
        = Ok (<[tb := b']> bs, d + length ms) /\
      played b ms b' /\
      length ms <= Z.to_nat (sd - depth) /\
      (is_game_over b' = true \/ length ms = Z.to_nat (sd - depth)).
Proof.
  intros Hplay. induction fuel as [|fuel IH]; intros bs b d depth Hb Hfuel.
  - exists [], b. cbn [simulate]. unfold deref. rewrite Hb. cbn [bind].
    destruct (Z.ltb_spec depth sd); [lia|]. rewrite andb_false_r.
    rewrite list_insert_id by done. rewrite Nat.add_0_r.
    repeat split; [constructor|cbn; lia|right; cbn; lia].
  - cbn [simulate]. unfold deref. rewrite Hb. cbn [bind].
    destruct (is_game_over b) eqn:Hover; cbn [negb andb].
    { exists [], b. rewrite list_insert_id by done. rewrite Nat.add_0_r.
      repeat split; [constructor|cbn; lia|by left]. }
    destruct (Z.ltb_spec depth sd) as [Hlt|Hge].
    2:{ exists [], b. rewrite list_insert_id by done. rewrite Nat.add_0_r.
        repeat split; [constructor|cbn; lia|right; cbn; lia]. }
    destruct (choice_ok d (legal_moves b)) as (m & Hm & Hin);
      [by apply Hplay|].
    rewrite Hm. cbn [bind]. unfold push_at, deref. rewrite Hb. cbn [bind].
    assert (Htb : tb < length bs) by (by eapply lookup_lt_Some).
    destruct (IH (<[tb := push b m]> bs) (push b m) (S d) (depth + 1)%Z)
      as (ms & b' & Hrun & Hpl & Hlen & Hend);
      [by apply list_lookup_insert_eq|lia|].
    exists (m :: ms), b'. rewrite Hrun, list_insert_insert_eq.
    repeat split.
    + do 2 f_equal. cbn [length]. lia.
    + by constructor.
    + cbn [length]. lia.
    + destruct Hend as [Hend|Hend]; [by left|right]. cbn [length]. lia.
Qed.

Lemma final_score_cases (b : Board) :
  (is_game_over b = true -> result b = "1-0"%string ->
   final_score b = 1%Q) /\
  (is_game_over b = true -> result b = "0-1"%string ->
   final_score b = (-1)%Q) /\
  (is_game_over b = true -> result b <> "1-0"%string ->
   result b <> "0-1"%string -> final_score b = 0%Q) /\
  (is_game_over b = false -> final_score b = evaluate_board b).
Proof.
  unfold final_score. repeat split; intros Hover; rewrite Hover; try done.
  - intros ->. reflexivity.
  - intros ->. reflexivity.
  - intros H1 H2. apply String.eqb_neq in H1, H2. by rewrite H1, H2.
Qed.

End Rollout.

(** ** The shape of the search tree *)

Section Tree.
Context `{Rules Board Move}.
Implicit Types (h : list (Node Move)) (n : Node Move).

Lemma tree_family h i n : tree h -> h !! i = Some n -> family h i n.
Proof.
  intros Ht Hn c Hc.
  destruct (tree_children h Ht i n c Hn Hc) as (cn & Hcn & Hp & _).
  exists cn. repeat split; [done..|].
  destruct (tree_parent h Ht c cn i Hcn Hp) as (_ & pn & Hpn & Hle).
  congruence.
Qed.

Lemma tree_child_gt h i n c :
  tree h -> h !! i = Some n -> c ∈ children n -> i < c < length h.
Proof.
  intros Ht Hn Hc.
  destruct (tree_children h Ht i n c Hn Hc) as (cn & Hcn & Hp & _).
  destruct (tree_parent h Ht c cn i Hcn Hp) as (Hlt & _).
  apply lookup_lt_Some in Hcn. lia.
Qed.

(** What selection leaves behind: the boards other than the temporary
    one are untouched and the node reached has no children. *)
Lemma select_ok h (tb : ref) (fuel : nat) :
  tree h ->
  forall (bs : list Board) node,
    tb < length bs -> node < length h -> length h - node <= fuel ->
    exists node' bs' n',
      select fuel h bs tb node = Ok (node', bs') /\
      length bs' = length bs /\
      (forall j, j <> tb -> bs' !! j = bs !! j) /\
      h !! node' = Some n' /\ children n' = [] /\
      (children <$> h !! node = Some [] -> node' = node /\ bs' = bs) /\
      (forall n c, h !! node = Some n -> children n <> [] ->
         best_child h node = Ok c ->
         (children <$> h !! c = Some [] -> node' = c)).
Proof.
  intros Ht. induction fuel as [|fuel IH]; intros bs node Htb Hnode Hfuel;
    [lia|].
  destruct (lookup_lt_is_Some_2 h node Hnode) as [n Hn].
  cbn [select]. unfold deref at 1. rewrite Hn. cbn [bind].
  destruct (children n) as [|c0 cs] eqn:Hcs.
  { exists node, bs, n. split_and!; try done.
    intros n0 c [= <-]. congruence. }
  destruct (best_child_ok h node n) as (c & k & Hbest & Hc & _);
    [done|congruence|by apply tree_family|].
  rewrite Hbest. cbn [bind].
  destruct (tree_children h Ht node n c Hn Hc) as (cn & Hcn & Hp & [m Hm]).
  destruct (lookup_lt_is_Some_2 bs tb Htb) as [b Hb].
  unfold push_node_move, push_at, deref. rewrite Hcn. cbn [bind].
  rewrite Hm, Hb. cbn [bind].
  pose proof (tree_child_gt h node n c Ht Hn Hc) as Hgt.
  destruct (IH (<[tb := push b m]> bs) c)
    as (node' & bs' & n' & Hrun & Hlen & Hother & Hn' & Hleaf & Hstop & _);
    [by rewrite length_insert|lia|lia|].
  exists node', bs', n'. rewrite Hrun. split_and!; try done.
  - by rewrite Hlen, length_insert.
  - intros j Hj. rewrite Hother by done. by apply list_lookup_insert_ne.
  - cbn. intros [= Hnil]. congruence.
  - intros n0 c1 [= <-] _ Hc1 Hleafc.
    assert (c1 = c) as -> by congruence. by apply Hstop.
Qed.
End Tree.

(** ** Expansion *)

Section Expansion.
Context `{Rules Board Move}.
Implicit Types (h : list (Node Move)) (n : Node Move) (ms : list Move).

Lemma expand_loop_ok ms : forall h node n,
  h !! node = Some n -> expand_loop h node ms = Ok (expanded h node n ms).
Proof.
  induction ms as [|m ms IH]; intros h node n Hn; unfold expanded.
  - cbn [expand_loop length seq map]. rewrite !app_nil_r.
    rewrite list_insert_id; [done|]. rewrite Hn. by destruct n.
  - cbn [expand_loop]. unfold deref.
    rewrite lookup_app_l_Some with (x := n) by done. cbn [bind].
    pose proof (lookup_lt_Some _ _ _ Hn) as Hlt.
    rewrite insert_app_l by done.
    rewrite (IH _ node (set_children (children n ++ [length h]) n)).
    2:{ apply lookup_app_l_Some. by apply list_lookup_insert_eq. }
    unfold expanded. f_equal.
    rewrite length_app, length_insert. cbn [length map].
    rewrite insert_app_l by (by rewrite length_insert).
    rewrite list_insert_insert_eq. rewrite <- app_assoc. cbn [app].
    change (set_children ?c2 (set_children ?c1 n)) with (set_children c2 n).
    change (children (set_children ?c n)) with c.
    rewrite <- app_assoc. cbn [app seq].
    by replace (length h + 1) with (S (length h)) by lia.
Qed.

Lemma length_expanded h node n ms :
  length (expanded h node n ms) = length h + length ms.
Proof.
  unfold expanded. by rewrite length_app, length_insert, length_map.
Qed.

Lemma expanded_node h node n ms :
  h !! node = Some n ->
  expanded h node n ms !! node =
    Some (set_children (children n ++ seq (length h) (length ms)) n).
Proof.
  intros Hn. unfold expanded. apply lookup_app_l_Some.
  apply list_lookup_insert_eq. by eapply lookup_lt_Some.
Qed.

Lemma expanded_old h node n ms i :
  i < length h -> i <> node -> expanded h node n ms !! i = h !! i.
Proof.
  intros Hi Hne. unfold expanded.
  rewrite lookup_app_l by (by rewrite length_insert).
  by apply list_lookup_insert_ne.
Qed.

Lemma expanded_new h node n ms i x :
  length h <= i -> expanded h node n ms !! i = Some x ->
  exists m, x = new_node (Some m) (Some node).
Proof.
  intros Hi. unfold expanded.
  rewrite lookup_app_r by (by rewrite length_insert).
  rewrite list_lookup_fmap. intros Hx.
  apply fmap_Some in Hx as (m & _ & ->). by exists m.
Qed.

Lemma expanded_lookup_cases h node n ms i x :
  h !! node = Some n ->
  expanded h node n ms !! i = Some x ->
  (i = node /\
   x = set_children (children n ++ seq (length h) (length ms)) n) \/
  (i <> node /\ i < length h /\ h !! i = Some x) \/
  (length h <= i < length h + length ms /\
   exists m, x = new_node (Some m) (Some node)).
Proof.
  intros Hn Hx. pose proof (lookup_lt_Some _ _ _ Hx) as Hlt.
  rewrite length_expanded in Hlt.
  destruct (decide (i = node)) as [->|Hne].
  - left. rewrite expanded_node in Hx by done. split; congruence.
  - right. destruct (decide (i < length h)) as [Hi|Hi].
    + left. rewrite expanded_old in Hx by done. done.
    + right. split; [lia|]. eapply expanded_new; [|done]. lia.
Qed.
End Expansion.

(** ** Backpropagation *)

Section Backprop.
Context `{Rules Board Move}.
Implicit Types (h : list (Node Move)) (n : Node Move).

Lemma tree_parents_below h : tree h -> parents_below h.
Proof. intros Ht i n p Hn Hp. by destruct (tree_parent h Ht i n p Hn Hp). Qed.

Lemma path_up_ext fuel : forall h1 h2 node,
  (forall x, parent <$> h1 !! x = parent <$> h2 !! x) ->
  path_up fuel h1 node = path_up fuel h2 node.
Proof.
  induction fuel as [|fuel IH]; intros h1 h2 node Hext; [by destruct node|].
  destruct node as [r|]; [|done]. cbn [path_up]. f_equal.
  specialize (Hext r) as Hr.
  destruct (h1 !! r) as [n1|], (h2 !! r) as [n2|]; try done.
  cbn in Hr. injection Hr as ->. by apply IH.
Qed.

Lemma path_up_le h fuel : parents_below h ->
  forall r x, x ∈ path_up fuel h (Some r) -> x <= r.
Proof.
  intros Hdec. induction fuel as [|fuel IH]; intros r x Hx.
  - by apply elem_of_nil in Hx.
  - cbn [path_up] in Hx. apply elem_of_cons in Hx as [->|Hx]; [lia|].
    destruct (h !! r) as [n|] eqn:Hn; [|by apply elem_of_nil in Hx].
    destruct (parent n) as [p|] eqn:Hp.
    + specialize (IH p x Hx). specialize (Hdec r n p Hn Hp). lia.
    + destruct fuel; by apply elem_of_nil in Hx.
Qed.

Lemma path_up_self h fuel r : r ∈ path_up (S fuel) h (Some r).
Proof. cbn [path_up]. apply list_elem_of_here. Qed.

Lemma path_up_parent h fuel : parents_below h ->
  forall r x n p,
    r < fuel -> x ∈ path_up fuel h (Some r) ->
    h !! x = Some n -> parent n = Some p ->
    p ∈ path_up fuel h (Some r).
Proof.
  intros Hdec. induction fuel as [|fuel IH]; intros r x n p Hr Hx Hn Hp;
    [lia|].
  cbn [path_up] in Hx |- *. apply elem_of_cons in Hx as [->|Hx].
  - rewrite Hn, Hp. apply list_elem_of_further.
    specialize (Hdec r n p Hn Hp).
    destruct fuel; [lia|]. apply path_up_self.
  - apply list_elem_of_further.
    destruct (h !! r) as [nr|] eqn:Hnr; [|by apply elem_of_nil in Hx].
    destruct (parent nr) as [pr|] eqn:Hpr.
    + specialize (Hdec r nr pr Hnr Hpr) as Hlt.
      eapply IH; [lia|done..].
    + destruct fuel; by apply elem_of_nil in Hx.
Qed.

Lemma path_up_root h fuel : tree h ->
  forall r, r < length h -> r < fuel -> root ∈ path_up fuel h (Some r).
Proof.
  intros Ht. induction fuel as [|fuel IH]; intros r Hlen Hr; [lia|].
  cbn [path_up]. destruct (decide (r = root)) as [->|Hne];
    [apply list_elem_of_here|].
  apply list_elem_of_further.
  destruct (lookup_lt_is_Some_2 h r Hlen) as [n Hn]. rewrite Hn.
  destruct (tree_nonroot h Ht r n Hn Hne) as [p Hp]. rewrite Hp.
  destruct (tree_parent h Ht r n p Hn Hp) as (Hlt & _). apply IH; lia.
Qed.

Lemma backprop_ok (bs : list Board) (tb : ref) (b : Board) (score : Q)
    (fuel : nat) :
  bs !! tb = Some b ->
  forall h node,
    parents_below h ->
    (forall r, node = Some r -> r < length h /\ r < fuel) ->
    exists h',
      backprop fuel h bs tb score node = Ok h' /\
      length h' = length h /\
      forall i,
        h' !! i =
          if decide (i ∈ path_up fuel h node)
          then bump (signed b score) <$> h !! i
          else h !! i.
Proof.
  intros Hb. induction fuel as [|fuel IH]; intros h node Hdec Hnode.
  - destruct node as [r|]; [destruct (Hnode r eq_refl); lia|].
    by exists h.
  - destruct node as [r|]; [|by exists h].
    destruct (Hnode r eq_refl) as [Hlen Hfuel].
    destruct (lookup_lt_is_Some_2 h r Hlen) as [n Hn].
    cbn [backprop path_up]. unfold deref. rewrite Hn, Hb. cbn [bind].
    fold (bump (signed b score) n).
    set (h1 := <[r := bump (signed b score) n]> h).
    assert (Hext : forall x, parent <$> h1 !! x = parent <$> h !! x).
    { intros x. subst h1. destruct (decide (x = r)) as [->|Hne].
      - rewrite list_lookup_insert_eq by done. by rewrite Hn.
      - by rewrite list_lookup_insert_ne. }
    assert (Hdec1 : parents_below h1).
    { intros i ni p Hni Hp. specialize (Hext i). rewrite Hni in Hext.
      destruct (h !! i) as [n0|] eqn:Hn0; [|done].
      cbn in Hext. eapply Hdec; [done|]. congruence. }
    destruct (IH h1 (parent n) Hdec1) as (h' & Hrun & Hlen' & Hlook).
    { intros p Hp. specialize (Hdec r n p Hn Hp). subst h1.
      rewrite length_insert. lia. }
    exists h'. change (parent (bump (signed b score) n)) with (parent n).
    split_and!; [done|by rewrite Hlen'; subst h1; rewrite length_insert|].
    intros i. rewrite Hlook. rewrite (path_up_ext fuel h1 h) by done.
    destruct (decide (i = r)) as [->|Hne].
    + assert (Hnot : r ∉ path_up fuel h (parent n)).
      { intros Hin. destruct (parent n) as [p|] eqn:Hp.
        - apply path_up_le in Hin; [|done].
          specialize (Hdec r n p Hn Hp). lia.
        - destruct fuel; by apply elem_of_nil in Hin. }
      rewrite (decide_False (P := r ∈ path_up fuel h (parent n))) by done.
      rewrite (decide_True (P := r ∈ r :: path_up fuel h (parent n)))
        by apply list_elem_of_here.
      subst h1. rewrite list_lookup_insert_eq by done. by rewrite Hn.
    + subst h1. rewrite list_lookup_insert_ne by done.
      destruct (decide (i ∈ path_up fuel h (parent n))) as [Hin|Hin].
      * rewrite decide_True; [done|]. by apply list_elem_of_further.
      * rewrite decide_False; [done|].
        intros [?|?]%elem_of_cons; done.
Qed.
End Backprop.

(** ** Expansion keeps the tree *)

Section ExpansionTree.
Context `{Rules Board Move} (rand : nat -> nat).
Implicit Types (h : list (Node Move)) (n : Node Move) (ms : list Move).

(** Expansion changes nothing but the children of the expanded node. *)
Lemma expanded_keeps h node n ms j x :
  h !! node = Some n -> h !! j = Some x ->
  exists x',
    expanded h node n ms !! j = Some x' /\
    parent x' = parent x /\ move x' = move x /\
    visits x' = visits x /\ wins x' = wins x /\
    (j <> node -> x' = x).
Proof.
  intros Hn Hx. destruct (decide (j = node)) as [->|Hne].
  - rewrite expanded_node by done. eexists. split; [done|].
    assert (x = n) as -> by congruence. by split_and!.
  - exists x. rewrite expanded_old; [by split_and!| |done].
    by eapply lookup_lt_Some.
Qed.

Lemma tree_expanded h node n ms :
  tree h -> h !! node = Some n -> children n = [] ->
  tree (expanded h node n ms).
Proof.
  intros Ht Hn Hleaf. split.
  - destruct (tree_root h Ht) as (r & Hr & Hpr).
    destruct (expanded_keeps h node n ms root r Hn Hr)
      as (r' & Hr' & Hp & _).
    exists r'. split; [done|congruence].
  - intros i x p Hx Hp.
    destruct (expanded_lookup_cases h node n ms i x Hn Hx)
      as [[-> ->]|[(Hne & Hi & Hold)|(Hi & m & ->)]].
    + destruct (tree_parent h Ht node n p Hn Hp) as (Hlt & pn & Hpn & Hle).
      split; [done|]. exists pn. split; [|done].
      rewrite expanded_old; [done| |lia]. by eapply lookup_lt_Some.
    + destruct (tree_parent h Ht i x p Hold Hp) as (Hlt & pn & Hpn & Hle).
      split; [done|].
      destruct (expanded_keeps h node n ms p pn Hn Hpn)
        as (pn' & Hpn' & _ & _ & Hv & _).
      exists pn'. split; [done|lia].
    + cbn in Hp. injection Hp as <-.
      pose proof (lookup_lt_Some _ _ _ Hn). split; [lia|].
      eexists. split; [by apply expanded_node|]. cbn. lia.
  - intros i x Hx Hne.
    destruct (expanded_lookup_cases h node n ms i x Hn Hx)
      as [[-> ->]|[(_ & Hi & Hold)|(Hi & m & ->)]].
    + by apply (tree_nonroot h Ht node n).
    + by apply (tree_nonroot h Ht i x).
    + by eexists.
  - intros i x c Hx Hc.
    destruct (expanded_lookup_cases h node n ms i x Hn Hx)
      as [[-> ->]|[(Hne & Hi & Hold)|(Hi & m & ->)]].
    + cbn in Hc. rewrite Hleaf in Hc. cbn in Hc.
      apply elem_of_seq in Hc.
      destruct (lookup_lt_is_Some_2 (expanded h node n ms) c) as [cn Hcn];
        [rewrite length_expanded; lia|].
      destruct (expanded_new h node n ms c cn) as [m ->]; [lia|done|].
      eexists. split; [done|]. split; [done|by eexists].
    + destruct (tree_children h Ht i x c Hold Hc) as (cn & Hcn & Hp & Hm).
      destruct (expanded_keeps h node n ms c cn Hn Hcn)
        as (cn' & Hcn' & Hp' & Hm' & _).
      exists cn'. split; [done|]. split; congruence.
    + by apply elem_of_nil in Hc.
Qed.

(** What expansion does at a leaf [node] of the tree. *)
Lemma expansion_ok (w : World Board Move) (tb node : ref) n (b : Board) :
  playable ->
  nodes w !! node = Some n -> children n = [] ->
  boards w !! tb = Some b ->
  exists w1 node1,
    expansion rand w tb node = Ok (w1, node1) /\
    ((is_game_over b = true /\ w1 = w /\ node1 = node) \/
     (is_game_over b = false /\
      nodes w1 = expanded (nodes w) node n (legal_moves b) /\
      length (nodes w) <= node1
        < length (nodes w) + length (legal_moves b) /\
      (exists m, boards w1 = <[tb := push b m]> (boards w)) /\
      draws w1 = S (draws w))).
Proof.
  intros Hplay Hn Hleaf Hb. unfold expansion, deref. rewrite Hb. cbn [bind].
  destruct (is_game_over b) eqn:Hover; cbn [negb].
  { exists w, node. split; [done|]. by left. }
  rewrite (expand_loop_ok _ _ _ n) by done. cbn [bind].
  rewrite expanded_node by done. cbn [bind].
  change (children (set_children ?c n)) with c. rewrite Hleaf. cbn [app].
  destruct (choice_ok rand (draws w)
              (seq (length (nodes w)) (length (legal_moves b))))
    as (c & Hc & Hin).
  { specialize (Hplay b Hover). destruct (legal_moves b); [done|discriminate]. }
  rewrite Hc. cbn [bind]. apply elem_of_seq in Hin.
  set (h1 := expanded (nodes w) node n (legal_moves b)).
  destruct (lookup_lt_is_Some_2 h1 c) as [cn Hcn];
    [subst h1; rewrite length_expanded; lia|].
  destruct (expanded_new (nodes w) node n (legal_moves b) c cn) as [m ->];
    [lia|done|].
  unfold push_node_move, push_at, deref. rewrite Hcn. cbn [bind move new_node].
  rewrite Hb. cbn [bind].
  eexists _, c. split; [done|]. right. split_and!; try done; try lia.
  by exists m.
Qed.
End ExpansionTree.

(** ** One round of the loop, phase by phase *)

Section Iteration.
Context `{Rules Board Move} (rand : nat -> nat).
Implicit Types (h : list (Node Move)) (n : Node Move).
Implicit Types (w : World Board Move).

Lemma iteration_round (board : ref) (sd : Z) w :
  playable -> tree (nodes w) -> board < length (boards w) ->
  exists b0 leaf b1 w1 node1 ms fb delta w',
    round rand board sd w b0 leaf b1 w1 node1 ms fb delta w'.
Proof.
  intros Hplay Ht Hboard.
  destruct (lookup_lt_is_Some_2 _ _ Hboard) as [b0 Hb0].
  set (tb := length (boards w)).
  destruct (tree_root _ Ht) as (r & Hr & Hpr).
  pose proof (lookup_lt_Some _ _ _ Hr) as Hrlen.
  destruct (select_ok (nodes w) tb (length (nodes w)) Ht
              (boards w ++ [b0]) root)
    as (leaf & bs1 & nleaf & Hsel & Hlen1 & Hother1 & Hleaf & Hnoch
        & Hrootleaf & Hbest);
    [rewrite length_app; cbn; subst tb; lia|done|lia|].
  rewrite length_app in Hlen1. cbn [length] in Hlen1.
  destruct (lookup_lt_is_Some_2 bs1 tb) as [b1 Hb1]; [subst tb; lia|].
  destruct (expansion_ok rand (mkWorld (nodes w) bs1 (draws w)) tb leaf
              nleaf b1 Hplay Hleaf Hnoch Hb1)
    as (w1 & node1 & Hexp & Hcases).
  assert (Ht1 : tree (nodes w1)).
  { destruct Hcases as [(_ & -> & _)|(_ & -> & _)]; [done|].
    by apply tree_expanded. }
  assert (Hb1len : length (boards w1) = S tb /\
                   forall j, j < tb -> boards w1 !! j = boards w !! j).
  { assert (Hbase : forall j, j < tb -> bs1 !! j = boards w !! j).
    { intros j Hj. rewrite Hother1 by lia. by apply lookup_app_l. }
    destruct Hcases as [(_ & -> & _)|(_ & _ & _ & [m ->] & _)]; cbn.
    - split; [lia|done].
    - rewrite length_insert. split; [lia|]. intros j Hj.
      rewrite list_lookup_insert_ne by lia. by apply Hbase. }
  destruct Hb1len as [Hb1len Hb1old].
  destruct (lookup_lt_is_Some_2 (boards w1) tb) as [b2 Hb2]; [lia|].
  destruct (simulate_ok rand tb sd (Z.to_nat sd) Hplay (boards w1) b2
              (draws w1) 0 Hb2)
    as (ms & fb & Hsim & Hpl & Hmslen & Hend); [lia|].
  rewrite Z.sub_0_r in Hmslen, Hend.
  assert (Hnode1 : node1 < length (nodes w1)).
  { destruct Hcases as [(_ & -> & ->)|(_ & -> & Hrange & _)].
    - by eapply lookup_lt_Some.
    - rewrite length_expanded. lia. }
  assert (Hfb : <[tb := fb]> (boards w1) !! tb = Some fb)
    by (apply list_lookup_insert_eq; lia).
  destruct (backprop_ok (<[tb := fb]> (boards w1)) tb fb (final_score fb)
              (length (nodes w1)) Hfb (nodes w1) (Some node1))
    as (h3 & Hback & Hlen3 & Hlook3).
  { by apply tree_parents_below. }
  { intros ? [= <-]. lia. }
  exists b0, leaf, b1, w1, node1, ms, fb, (signed fb (final_score fb)),
    (mkWorld h3 (<[tb := fb]> (boards w1)) (draws w1 + length ms)).
  split; cbn [nodes boards draws]; try done.
  - unfold iteration, deref. rewrite Hb0. cbn [bind]. fold tb.
    rewrite Hsel. cbn [bind]. rewrite Hexp. cbn [bind].
    rewrite Hsim. cbn [bind]. rewrite Hfb. cbn [bind].
    rewrite Hback. done.
  - by exists nleaf.
  - intros Hroot. destruct (Hrootleaf Hroot) as [-> ->]. split; [done|].
    fold tb in Hb1. rewrite lookup_app_r in Hb1 by (subst tb; lia).
    subst tb. rewrite Nat.sub_diag in Hb1. cbn in Hb1. congruence.
  - destruct Hcases as [(Hover & -> & ->)|
                        (Hover & -> & Hrange & [m ->] & Hd)]; [left|right].
    + by split_and!.
    + cbn [nodes boards draws] in *.
      split_and!; try done; try lia; [by exists nleaf|].
      exists m. apply list_lookup_insert_eq. fold tb. lia.
  - exists b2. by split_and!.
Qed.
End Iteration.

(** ** What one round does to the tree *)

Section RoundFacts.
Context `{Rules Board Move} (rand : nat -> nat).
Implicit Types (h : list (Node Move)) (n : Node Move).
Implicit Types (w : World Board Move).

Lemma tree_bumped h h' (delta : Q) (path : list ref) :
  tree h ->
  (forall i, h' !! i =
     if decide (i ∈ path) then bump delta <$> h !! i else h !! i) ->
  (forall x n p, x ∈ path -> h !! x = Some n -> parent n = Some p ->
     p ∈ path) ->
  tree h'.
Proof.
  intros Ht Hlook Hclosed.
  assert (Hfwd : forall i n, h !! i = Some n ->
            exists n', h' !! i = Some n' /\ parent n' = parent n /\
              move n' = move n /\ children n' = children n /\
              visits n <= visits n' /\
              (i ∈ path -> visits n' = visits n + 1)).
  { intros i n Hn. rewrite Hlook, Hn. case_decide; cbn.
    - eexists. split; [done|]. cbn. split_and!; try done; lia.
    - eexists. split; [done|]. split_and!; try done. }
  assert (Hbwd : forall i n', h' !! i = Some n' ->
            exists n, h !! i = Some n /\ parent n' = parent n /\
              move n' = move n /\ children n' = children n /\
              (i ∉ path -> visits n' = visits n) /\
              visits n' <= visits n + 1).
  { intros i n'. rewrite Hlook. case_decide as Hin.
    - intros (n & Hn & ->)%fmap_Some. exists n. cbn.
      split_and!; try done; lia.
    - intros Hn. exists n'. split_and!; try done; lia. }
  split.
  - destruct (tree_root h Ht) as (r & Hr & Hpr).
    destruct (Hfwd _ _ Hr) as (r' & Hr' & Hp & _).
    exists r'. split; [done|congruence].
  - intros i n' p Hn' Hp'.
    destruct (Hbwd _ _ Hn') as (n & Hn & Hp & _ & _ & Hout & Hle).
    rewrite Hp in Hp'.
    destruct (tree_parent h Ht i n p Hn Hp') as (Hlt & pn & Hpn & Hv).
    split; [done|].
    destruct (Hfwd _ _ Hpn) as (pn' & Hpn' & _ & _ & _ & Hge & Hin).
    exists pn'. split; [done|].
    destruct (decide (i ∈ path)) as [Hi|Hi].
    + specialize (Hin (Hclosed i n p Hi Hn Hp')). lia.
    + specialize (Hout Hi). lia.
  - intros i n' Hn' Hne.
    destruct (Hbwd _ _ Hn') as (n & Hn & Hp & _).
    rewrite Hp. by eapply tree_nonroot.
  - intros i n' c Hn' Hc.
    destruct (Hbwd _ _ Hn') as (n & Hn & _ & _ & Hch & _).
    rewrite Hch in Hc.
    destruct (tree_children h Ht i n c Hn Hc) as (cn & Hcn & Hp & Hm).
    destruct (Hfwd _ _ Hcn) as (cn' & Hcn' & Hp' & Hm' & _).
    exists cn'. split; [done|]. split; congruence.
Qed.

Section OneRound.
Variables (board : ref) (sd : Z) (w : World Board Move) (b0 : Board)
  (leaf : ref) (b1 : Board) (w1 : World Board Move) (node1 : ref)
  (ms : list Move) (fb : Board) (delta : Q) (w' : World Board Move).
Hypothesis Hround :
  round rand board sd w b0 leaf b1 w1 node1 ms fb delta w'.
Hypothesis Htree : tree (nodes w).

#[local] Abbreviation the_path := (round_path w1 node1).

Lemma node1_live : node1 < length (nodes w1).
Proof.
  destruct (rd_expansion _ _ _ _ _ _ _ _ _ _ _ _ _ Hround)
    as [(_ & -> & Hsame & _)|(_ & (nl & _ & ->) & Hrange & _)].
  - destruct (rd_leaf _ _ _ _ _ _ _ _ _ _ _ _ _ Hround) as (nl & Hnl & _).
    rewrite Hsame. by eapply lookup_lt_Some.
  - rewrite length_expanded. lia.
Qed.

Lemma node1_on_path : node1 ∈ the_path.
Proof.
  unfold the_path. pose proof node1_live.
  destruct (length (nodes w1)); [lia|]. apply path_up_self.
Qed.

Lemma root_on_path : root ∈ the_path.
Proof.
  apply path_up_root; [by eapply rd_tree1|apply node1_live..].
Qed.

Lemma path_closed x n p :
  x ∈ the_path -> nodes w1 !! x = Some n -> parent n = Some p ->
  p ∈ the_path.
Proof.
  apply path_up_parent; [|apply node1_live].
  apply tree_parents_below. by eapply rd_tree1.
Qed.

Lemma leaf_on_path : leaf ∈ the_path.
Proof.
  destruct (rd_expansion _ _ _ _ _ _ _ _ _ _ _ _ _ Hround)
    as [(_ & _ & Hsame & _)|(_ & (nl & Hnl & Heq) & Hrange & _)].
  - rewrite <- Hsame. apply node1_on_path.
  - pose proof node1_live as Hlive.
    destruct (lookup_lt_is_Some_2 _ _ Hlive) as [cn Hcn].
    pose proof Hcn as Hcn'. rewrite Heq in Hcn'.
    apply expanded_new in Hcn' as [m ->]; [|lia].
    eapply path_closed; [apply node1_on_path|done..].
Qed.

(** An old node after expansion: only [leaf] may have changed, and
    only in its children. *)
Lemma old_after_expansion i n :
  nodes w !! i = Some n ->
  exists n1,
    nodes w1 !! i = Some n1 /\ parent n1 = parent n /\
    move n1 = move n /\ visits n1 = visits n /\ wins n1 = wins n /\
    (i <> leaf -> n1 = n).
Proof.
  intros Hn.
  destruct (rd_expansion _ _ _ _ _ _ _ _ _ _ _ _ _ Hround)
    as [(_ & -> & _)|(_ & (nl & Hnl & ->) & _)].
  - exists n. by split_and!.
  - by apply expanded_keeps.
Qed.

Lemma new_after_expansion i n1 :
  nodes w1 !! i = Some n1 -> length (nodes w) <= i ->
  children n1 = [] /\ visits n1 = 0 /\ wins n1 = 0%Q /\
  parent n1 = Some leaf.
Proof.
  intros Hn1 Hi.
  destruct (rd_expansion _ _ _ _ _ _ _ _ _ _ _ _ _ Hround)
    as [(_ & Heq & _)|(_ & (nl & Hnl & Heq) & _)]; rewrite Heq in Hn1.
  - apply lookup_lt_Some in Hn1. lia.
  - apply expanded_new in Hn1 as [m ->]; [|lia]. done.
Qed.

(** A node after backpropagation. *)
Lemma after_backprop i n1 :
  nodes w1 !! i = Some n1 ->
  exists n',
    nodes w' !! i = Some n' /\
    ((i ∈ the_path /\ n' = bump delta n1) \/
     ((i ∉ the_path) /\ n' = n1)).
Proof.
  intros Hn1. rewrite (rd_nodes _ _ _ _ _ _ _ _ _ _ _ _ _ Hround).
  fold the_path. rewrite Hn1. case_decide; eexists; (split; [done|]).
  - by left.
  - by right.
Qed.

Lemma before_backprop i n' :
  nodes w' !! i = Some n' ->
  exists n1,
    nodes w1 !! i = Some n1 /\
    ((i ∈ the_path /\ n' = bump delta n1) \/
     ((i ∉ the_path) /\ n' = n1)).
Proof.
  rewrite (rd_nodes _ _ _ _ _ _ _ _ _ _ _ _ _ Hround). fold the_path.
  case_decide.
  - intros (n1 & Hn1 & ->)%fmap_Some. exists n1. split; [done|by left].
  - intros Hn1. exists n'. split; [done|by right].
Qed.

Lemma round_tree : tree (nodes w').
Proof.
  eapply (tree_bumped (nodes w1) _ delta the_path).
  - by eapply rd_tree1.
  - apply (rd_nodes _ _ _ _ _ _ _ _ _ _ _ _ _ Hround).
  - apply path_closed.
Qed.

Lemma round_settled : settled (nodes w) -> settled (nodes w').
Proof.
  intros Hset i n' Hn' Hv.
  destruct (before_backprop i n' Hn') as (n1 & Hn1 & [[_ ->]|[Hout ->]]).
  { cbn in Hv. lia. }
  destruct (decide (i < length (nodes w))) as [Hi|Hi].
  - destruct (lookup_lt_is_Some_2 _ _ Hi) as [n Hn].
    destruct (old_after_expansion i n Hn)
      as (n1' & Hn1' & _ & _ & Hv' & _ & Hsame).
    assert (n1' = n1) as -> by congruence.
    assert (i <> leaf) by (intros ->; apply Hout, leaf_on_path).
    rewrite Hsame by done. eapply Hset; [done|]. by rewrite <- Hv'.
  - apply (new_after_expansion i n1 Hn1). lia.
Qed.

(** The root is visited once more. *)
Lemma round_root r :
  nodes w !! root = Some r ->
  exists r', nodes w' !! root = Some r' /\ visits r' = S (visits r).
Proof.
  intros Hr.
  destruct (old_after_expansion root r Hr) as (r1 & Hr1 & _ & _ & Hv & _).
  destruct (after_backprop root r1 Hr1) as (r' & Hr' & [[_ ->]|[Hout _]]).
  - exists (bump delta r1). split; [done|]. cbn. lia.
  - destruct Hout. apply root_on_path.
Qed.

(** Every old node survives with its parent and move; its visits do
    not decrease, and its children stay as they are once it has
    some. *)
Lemma round_old i n :
  nodes w !! i = Some n ->
  exists n',
    nodes w' !! i = Some n' /\ parent n' = parent n /\
    move n' = move n /\ visits n <= visits n' /\
    (children n <> [] -> children n' = children n).
Proof.
  intros Hn.
  destruct (old_after_expansion i n Hn)
    as (n1 & Hn1 & Hp & Hm & Hv & _ & Hsame).
  assert (Hch : children n <> [] -> children n1 = children n).
  { intros Hne. rewrite Hsame; [done|]. intros ->.
    destruct (rd_leaf _ _ _ _ _ _ _ _ _ _ _ _ _ Hround) as (nl & Hnl & Hnil).
    congruence. }
  destruct (after_backprop i n1 Hn1) as (n' & Hn' & [[_ ->]|[_ ->]]);
    eexists; (split; [done|]); cbn; split_and!; try done; lia.
Qed.

(** The boards that existed before the round are untouched. *)
Lemma round_boards :
  length (boards w') = S (length (boards w)) /\
  forall j, j < length (boards w) -> boards w' !! j = boards w !! j.
Proof.
  destruct (rd_boards1 _ _ _ _ _ _ _ _ _ _ _ _ _ Hround) as [Hlen Hold].
  rewrite (rd_boards _ _ _ _ _ _ _ _ _ _ _ _ _ Hround).
  rewrite length_insert. split; [done|]. intros j Hj.
  rewrite list_lookup_insert_ne by lia. by apply Hold.
Qed.

(** Every node on the path receives the same amount [delta], and the
    nodes off the path receive nothing. *)
Lemma round_uniform i n' :
  nodes w' !! i = Some n' ->
  exists n1,
    nodes w1 !! i = Some n1 /\
    ((i ∈ the_path /\ wins n' = (wins n1 + delta)%Q /\
      visits n' = visits n1 + 1) \/
     ((i ∉ the_path) /\ wins n' = wins n1 /\ visits n' = visits n1)).
Proof.
  intros Hn'.
  destruct (before_backprop i n' Hn') as (n1 & Hn1 & [[Hin ->]|[Hout ->]]);
    exists n1; (split; [done|]); [left|right]; by split_and!.
Qed.

(** The first round on a fresh root whose position is not over gives
    the root one child per legal move and visits one of them. *)
Lemma round_first :
  children <$> nodes w !! root = Some [] -> is_game_over b0 = false ->
  exists r' c cn,
    nodes w' !! root = Some r' /\
    children r' = seq (length (nodes w)) (length (legal_moves b0)) /\
    c ∈ children r' /\ nodes w' !! c = Some cn /\ visits cn = 1.
Proof.
  intros Hroot Hover.
  destruct (rd_root_leaf _ _ _ _ _ _ _ _ _ _ _ _ _ Hround Hroot)
    as [Hleaf Hb1].
  destruct (rd_expansion _ _ _ _ _ _ _ _ _ _ _ _ _ Hround)
    as [(Hover1 & _)|(_ & (nl & Hnl & Heq) & Hrange & _)];
    [congruence|].
  rewrite Hleaf in Hnl, Heq. rewrite Hb1 in Heq, Hrange.
  assert (Hnil : children nl = []).
  { rewrite Hnl in Hroot. cbn in Hroot. congruence. }
  assert (Hr1 : nodes w1 !! root =
            Some (set_children
                    (seq (length (nodes w)) (length (legal_moves b0))) nl)).
  { rewrite Heq, expanded_node by done. by rewrite Hnil. }
  destruct (after_backprop root _ Hr1) as (r' & Hr' & [[_ ->]|[Hout _]]);
    [|destruct Hout; apply root_on_path].
  pose proof node1_live as Hlive.
  destruct (lookup_lt_is_Some_2 _ _ Hlive) as [c1 Hc1].
  destruct (new_after_expansion node1 c1 Hc1) as (_ & Hv & _); [lia|].
  destruct (after_backprop node1 c1 Hc1) as (cn & Hcn & [[_ ->]|[Hout _]]);
    [|destruct Hout; apply node1_on_path].
  eexists _, node1, _. split_and!; [done|done| |done|cbn; lia].
  cbn. apply elem_of_seq. lia.
Qed.

(** A later round visits a root child that was unvisited, if there
    is one. *)
Lemma round_unvisited r u un :
  settled (nodes w) ->
  nodes w !! root = Some r -> u ∈ children r ->
  nodes w !! u = Some un -> visits un = 0 ->
  exists c cn cn',
    c ∈ children r /\ nodes w !! c = Some cn /\ visits cn = 0 /\
    nodes w' !! c = Some cn' /\ visits cn' = 1.
Proof.
  intros Hset Hr Hu Hun Hv.
  destruct (best_child_unvisited (nodes w) root r u un)
    as (c & cn & Hbest & Hc & Hcn & Hvc); [done|by apply tree_family|done..|].
  assert (Hleaf : leaf = c).
  { eapply (rd_best _ _ _ _ _ _ _ _ _ _ _ _ _ Hround); [done| |done|].
    - intros Hnil. rewrite Hnil in Hu. by apply elem_of_nil in Hu.
    - rewrite Hcn. cbn. f_equal. by eapply Hset. }
  destruct (old_after_expansion c cn Hcn) as (c1 & Hc1 & _ & _ & Hv1 & _).
  destruct (after_backprop c c1 Hc1) as (cn' & Hcn' & [[_ ->]|[Hout _]]).
  - exists c, cn, (bump delta c1). split_and!; try done. cbn. lia.
  - destruct Hout. rewrite <- Hleaf. apply leaf_on_path.
Qed.
End OneRound.
End RoundFacts.

(** ** The whole search *)

Section Engine.
Context `{Rules Board Move} (rand : nat -> nat).
Implicit Types (h : list (Node Move)) (n : Node Move).
Implicit Types (w : World Board Move) (bs : list Board).

Lemma advance_refl w : advance 0 w w.
Proof.
  split; try done.
  - intros r Hr. exists r. split; [done|lia].
  - intros i n Hn. by exists n.
Qed.

Lemma advance_trans a b w w1 w2 :
  advance a w w1 -> advance b w1 w2 -> advance (a + b) w w2.
Proof.
  intros H1 H2. split.
  - intros r Hr. destruct (adv_root _ _ _ H1 r Hr) as (r1 & Hr1 & Hv1).
    destruct (adv_root _ _ _ H2 r1 Hr1) as (r2 & Hr2 & Hv2).
    exists r2. split; [done|lia].
  - intros i n Hn. destruct (adv_old _ _ _ H1 i n Hn) as (n1 & Hn1 & Hv1 & Hc1).
    destruct (adv_old _ _ _ H2 i n1 Hn1) as (n2 & Hn2 & Hv2 & Hc2).
    exists n2. split_and!; [done|lia|].
    intros Hne. rewrite <- (Hc1 Hne). apply Hc2. by rewrite (Hc1 Hne).
  - intros j Hj. rewrite (adv_boards _ _ _ H2).
    + by apply (adv_boards _ _ _ H1).
    + pose proof (adv_boards_length _ _ _ H1). lia.
  - pose proof (adv_boards_length _ _ _ H1).
    pose proof (adv_boards_length _ _ _ H2). lia.
Qed.

Lemma round_advance board sd w b0 leaf b1 w1 node1 ms fb delta w' :
  round rand board sd w b0 leaf b1 w1 node1 ms fb delta w' ->
  tree (nodes w) -> advance 1 w w'.
Proof.
  intros Hround Ht. split.
  - intros r Hr. destruct (round_root rand _ _ _ _ _ _ _ _ _ _ _ _ Hround r Hr)
      as (r' & Hr' & Hv).
    exists r'. split; [done|lia].
  - intros i n Hn.
    destruct (round_old rand _ _ _ _ _ _ _ _ _ _ _ _ Hround i n Hn)
      as (n' & Hn' & _ & _ & Hv & Hc).
    by exists n'.
  - apply (round_boards rand _ _ _ _ _ _ _ _ _ _ _ _ Hround).
  - destruct (round_boards rand _ _ _ _ _ _ _ _ _ _ _ _ Hround) as [Hlen _].
    lia.
Qed.

Lemma round_coherent board sd w b0 leaf b1 w1 node1 ms fb delta w' :
  round rand board sd w b0 leaf b1 w1 node1 ms fb delta w' ->
  coherent board w -> coherent board w'.
Proof.
  intros Hround (Ht & Hset & Hboard). split_and!.
  - by eapply round_tree.
  - by eapply round_settled.
  - destruct (round_boards rand _ _ _ _ _ _ _ _ _ _ _ _ Hround) as [Hlen _].
    lia.
Qed.

Lemma iteration_ok board sd w :
  playable -> coherent board w ->
  exists w',
    iteration rand board sd w = Ok w' /\ coherent board w' /\
    advance 1 w w'.
Proof.
  intros Hplay Hco. pose proof Hco as (Ht & Hset & Hboard).
  destruct (iteration_round rand board sd w Hplay Ht Hboard)
    as (b0 & leaf & b1 & w1 & node1 & ms & fb & delta & w' & Hround).
  exists w'. split_and!.
  - apply (rd_run _ _ _ _ _ _ _ _ _ _ _ _ _ Hround).
  - by eapply round_coherent.
  - by eapply round_advance.
Qed.

Lemma mcts_loop_ok board sd (k : nat) :
  playable ->
  forall w, coherent board w ->
    exists w',
      mcts_loop rand k board sd w = Ok w' /\ coherent board w' /\
      advance k w w'.
Proof.
  intros Hplay. induction k as [|k IH]; intros w Hco.
  - exists w. split_and!; [done|done|apply advance_refl].
  - destruct (iteration_ok board sd w Hplay Hco) as (w1 & Hit & Hco1 & Hadv1).
    destruct (IH w1 Hco1) as (w' & Hloop & Hco' & Hadv).
    exists w'. cbn [mcts_loop]. rewrite Hit. cbn [bind].
    split_and!; [done|done|]. by apply (advance_trans 1 k w w1 w').
Qed.

Lemma mcts_loop_add board sd (a b : nat) w :
  mcts_loop rand (a + b) board sd w =
  let* w1 := mcts_loop rand a board sd w in mcts_loop rand b board sd w1.
Proof.
  revert w. induction a as [|a IH]; intros w; [done|].
  cbn [Nat.add mcts_loop].
  destruct (iteration rand board sd w) as [w1| |]; cbn [bind]; [|done..].
  apply IH.
Qed.

Lemma initial_coherent bs d board :
  board < length bs -> coherent board (initial (Move := Move) bs d).
Proof.
  intros Hboard. split_and!; [|by intros [|i] n [= <-]|done].
  split.
  - by eexists.
  - intros [|i] n p [= <-]. done.
  - intros [|i] n; [done|]. by destruct i.
  - intros [|i] n c [= <-]. by intros ?%elem_of_nil.
Qed.

Lemma mcts_ok bs d board (iterations sd : Z) :
  playable -> board < length bs ->
  exists w,
    mcts rand bs d board iterations sd = Ok w /\ coherent board w /\
    advance (Z.to_nat iterations) (initial (Move := Move) bs d) w.
Proof.
  intros Hplay Hboard. unfold mcts.
  by apply mcts_loop_ok, initial_coherent.
Qed.
End Engine.

(** ** Counting the unvisited children of the root *)

Section Unvisited.
Context {Move : Type}.
Implicit Types (h : list (Node Move)) (cs : list ref).

Lemma unvisited_cons h c cs :
  unvisited h (c :: cs) =
  (if decide (visits_of h c = 0) then 1 else 0) + unvisited h cs.
Proof. unfold unvisited. rewrite filter_cons. by case_decide. Qed.

Lemma unvisited_mono h h' cs :
  (forall c, c ∈ cs -> visits_of h c <= visits_of h' c) ->
  unvisited h' cs <= unvisited h cs.
Proof.
  induction cs as [|c cs IH]; intros Hle; [done|].
  rewrite !unvisited_cons.
  specialize (Hle c (list_elem_of_here _ _)) as Hc.
  assert (unvisited h' cs <= unvisited h cs).
  { apply IH. intros x Hx. apply Hle. by apply list_elem_of_further. }
  repeat case_decide; lia.
Qed.

Lemma unvisited_drop h h' cs c :
  (forall x, x ∈ cs -> visits_of h x <= visits_of h' x) ->
  c ∈ cs -> visits_of h c = 0 -> visits_of h' c <> 0 ->
  unvisited h' cs < unvisited h cs.
Proof.
  induction cs as [|x cs IH]; intros Hle Hc Hz Hnz;
    [by apply elem_of_nil in Hc|].
  rewrite !unvisited_cons.
  specialize (Hle x (list_elem_of_here _ _)) as Hx.
  assert (Hrest : forall y, y ∈ cs -> visits_of h y <= visits_of h' y).
  { intros y Hy. apply Hle. by apply list_elem_of_further. }
  pose proof (unvisited_mono h h' cs Hrest).
  apply elem_of_cons in Hc as [->|Hc].
  - rewrite (decide_True (P := visits_of h x = 0)) by done.
    rewrite (decide_False (P := visits_of h' x = 0)) by done. lia.
  - specialize (IH Hrest Hc Hz Hnz). repeat case_decide; lia.
Qed.

Lemma unvisited_zero h cs c :
  unvisited h cs = 0 -> c ∈ cs -> visits_of h c <> 0.
Proof.
  induction cs as [|x cs IH]; intros Hz Hc; [by apply elem_of_nil in Hc|].
  rewrite unvisited_cons in Hz. apply elem_of_cons in Hc as [->|Hc].
  - case_decide; [lia|done].
  - apply IH; [lia|done].
Qed.

Lemma unvisited_pos h cs :
  unvisited h cs <> 0 -> exists u, u ∈ cs /\ visits_of h u = 0.
Proof.
  induction cs as [|x cs IH]; intros Hnz; [done|].
  rewrite unvisited_cons in Hnz.
  destruct (decide (visits_of h x = 0)) as [Hx|Hx].
  - exists x. split; [apply list_elem_of_here|done].
  - destruct IH as (u & Hu & Hv); [lia|].
    exists u. split; [by apply list_elem_of_further|done].
Qed.

Lemma unvisited_lt_length h cs c :
  c ∈ cs -> visits_of h c <> 0 -> unvisited h cs < length cs.
Proof.
  induction cs as [|x cs IH]; intros Hc Hnz; [by apply elem_of_nil in Hc|].
  rewrite unvisited_cons. cbn [length].
  assert (unvisited h cs <= length cs) by apply length_filter.
  apply elem_of_cons in Hc as [->|Hc].
  - rewrite decide_False by done. lia.
  - specialize (IH Hc Hnz). case_decide; lia.
Qed.
End Unvisited.

(** ** Properties of a complete search *)

Section SearchProperties.
Context `{Rules Board Move} (rand : nat -> nat).
Implicit Types (h : list (Node Move)) (n : Node Move).
Implicit Types (w : World Board Move) (bs : list Board).

(** C2.  A search asked for [N] rounds runs its loop body [N] times
    (1000 by default), every round visits the root once more, and the
    root returned has [visits = N]. *)
Theorem C2_root_visits :
  playable ->
  forall bs (d : nat) (board : ref) (N sd : Z),
    board < length bs -> (0 <= N)%Z ->
    default_iterations = 1000%Z /\
    (forall w r, coherent board w -> nodes w !! root = Some r ->
       exists w' r',
         iteration rand board sd w = Ok w' /\ coherent board w' /\
         nodes w' !! root = Some r' /\ visits r' = visits r + 1) /\
    exists w r,
      mcts rand bs d board N sd = Ok w /\
      nodes w !! root = Some r /\ Z.of_nat (visits r) = N.
Proof.
  intros Hplay bs d board N sd Hboard HN. split_and!; [done| |].
  - intros w r Hco Hr.
    destruct (iteration_ok rand board sd w Hplay Hco)
      as (w' & Hit & Hco' & Hadv).
    destruct (adv_root _ _ _ Hadv r Hr) as (r' & Hr' & Hv).
    by exists w', r'.
  - destruct (mcts_ok rand bs d board N sd Hplay Hboard)
      as (w & Hrun & _ & Hadv).
    destruct (adv_root _ _ _ Hadv (new_node None None) eq_refl)
      as (r & Hr & Hv).
    exists w, r. split_and!; [done..|]. rewrite Hv. cbn. lia.
Qed.

(** C9.  The boards that exist when the search is called, the input
    board among them, hold the same positions when it returns: every
    push goes to a copy made for the round. *)
Theorem C9_input_board_unchanged :
  playable ->
  forall bs (d : nat) (board : ref) (N sd : Z),
    board < length bs ->
    exists w,
      mcts rand bs d board N sd = Ok w /\
      boards w !! board = bs !! board /\
      forall j, j < length bs -> boards w !! j = bs !! j.
Proof.
  intros Hplay bs d board N sd Hboard.
  destruct (mcts_ok rand bs d board N sd Hplay Hboard) as (w & Hrun & _ & Hadv).
  exists w. split_and!; [done| |]; [|intros j Hj];
    by apply (adv_boards _ _ _ Hadv).
Qed.

(** C6.  Once a node has children they are never changed: the children
    a node has after [k] rounds are the children it has after any
    larger number of rounds. *)
Theorem C6_expanded_once :
  playable ->
  forall bs (d : nat) (board : ref) (sd : Z) (k k' : nat),
    board < length bs -> k <= k' ->
    exists w w',
      mcts rand bs d board (Z.of_nat k) sd = Ok w /\
      mcts rand bs d board (Z.of_nat k') sd = Ok w' /\
      forall i n, nodes w !! i = Some n -> children n <> [] ->
        exists n', nodes w' !! i = Some n' /\ children n' = children n.
Proof.
  intros Hplay bs d board sd k k' Hboard Hk.
  destruct (mcts_ok rand bs d board (Z.of_nat k) sd Hplay Hboard)
    as (w & Hrun & Hco & _).
  destruct (mcts_loop_ok rand board sd (k' - k) Hplay w Hco)
    as (w' & Hrun' & _ & Hadv).
  exists w, w'. split_and!; [done| |].
  - unfold mcts in *. rewrite Nat2Z.id in *.
    replace k' with (k + (k' - k)) by lia.
    rewrite mcts_loop_add, Hrun. done.
  - intros i n Hn Hne.
    destruct (adv_old _ _ _ Hadv i n Hn) as (n' & Hn' & _ & Hc).
    exists n'. split; [done|by apply Hc].
Qed.
End SearchProperties.

(** ** Every root child is visited *)

Section RootChildren.
Context `{Rules Board Move} (rand : nat -> nat).
Implicit Types (h : list (Node Move)) (n : Node Move).
Implicit Types (w : World Board Move) (bs : list Board).

Lemma advance_visits_of k w w' i :
  advance k w w' -> i < length (nodes w) ->
  visits_of (nodes w) i <= visits_of (nodes w') i.
Proof.
  intros Hadv Hi. destruct (lookup_lt_is_Some_2 _ _ Hi) as [n Hn].
  destruct (adv_old _ _ _ Hadv i n Hn) as (n' & Hn' & Hv & _).
  unfold visits_of. by rewrite Hn, Hn'.
Qed.

Lemma later_round board sd w r :
  playable -> coherent board w ->
  nodes w !! root = Some r -> children r <> [] ->
  exists w' r',
    iteration rand board sd w = Ok w' /\ coherent board w' /\
    nodes w' !! root = Some r' /\ children r' = children r /\
    unvisited (nodes w') (children r)
      <= unvisited (nodes w) (children r) - 1.
Proof.
  intros Hplay Hco Hr Hne. pose proof Hco as (Ht & Hset & Hboard).
  destruct (iteration_round rand board sd w Hplay Ht Hboard)
    as (b0 & leaf & b1 & w1 & node1 & ms & fb & delta & w' & Hround).
  pose proof (round_advance rand _ _ _ _ _ _ _ _ _ _ _ _ Hround Ht) as Hadv.
  destruct (adv_old _ _ _ Hadv root r Hr) as (r' & Hr' & _ & Hch).
  exists w', r'. split_and!.
  - apply (rd_run _ _ _ _ _ _ _ _ _ _ _ _ _ Hround).
  - by eapply round_coherent.
  - done.
  - by apply Hch.
  - assert (Hmono : forall c, c ∈ children r ->
              visits_of (nodes w) c <= visits_of (nodes w') c).
    { intros c Hc. eapply advance_visits_of; [done|].
      by eapply tree_child_gt. }
    destruct (decide (unvisited (nodes w) (children r) = 0)) as [Hz|Hnz].
    { pose proof (unvisited_mono _ _ _ Hmono). lia. }
    destruct (unvisited_pos _ _ Hnz) as (u & Hu & Hvu).
    destruct (tree_children _ Ht root r u Hr Hu) as (un & Hun & _).
    unfold visits_of in Hvu. rewrite Hun in Hvu.
    destruct (round_unvisited rand _ _ _ _ _ _ _ _ _ _ _ _ Hround Ht
                r u un Hset Hr Hu Hun Hvu)
      as (c & cn & cn' & Hc & Hcn & Hvc & Hcn' & Hvc').
    assert (unvisited (nodes w') (children r)
            < unvisited (nodes w) (children r)); [|lia].
    apply (unvisited_drop _ _ _ c); try done; unfold visits_of.
    + by rewrite Hcn.
    + rewrite Hcn'. lia.
Qed.

Lemma later_rounds board sd (k : nat) :
  playable ->
  forall w r, coherent board w ->
    nodes w !! root = Some r -> children r <> [] ->
    exists w' r',
      mcts_loop rand k board sd w = Ok w' /\ coherent board w' /\
      nodes w' !! root = Some r' /\ children r' = children r /\
      unvisited (nodes w') (children r)
        <= unvisited (nodes w) (children r) - k.
Proof.
  intros Hplay. induction k as [|k IH]; intros w r Hco Hr Hne.
  - exists w, r. split_and!; try done. lia.
  - destruct (later_round board sd w r Hplay Hco Hr Hne)
      as (w1 & r1 & Hit & Hco1 & Hr1 & Hch1 & Hcount1).
    destruct (IH w1 r1 Hco1 Hr1)
      as (w' & r' & Hloop & Hco' & Hr' & Hch' & Hcount);
      [congruence|].
    exists w', r'. cbn [mcts_loop]. rewrite Hit. cbn [bind].
    split_and!; try done; [congruence|]. rewrite Hch1 in Hcount. lia.
Qed.

Lemma first_round bs d board sd (b : Board) :
  playable -> bs !! board = Some b -> is_game_over b = false ->
  exists w' r',
    iteration rand board sd (initial (Move := Move) bs d) = Ok w' /\
    coherent board w' /\
    nodes w' !! root = Some r' /\
    length (children r') = length (legal_moves b) /\
    unvisited (nodes w') (children r') < length (children r').
Proof.
  intros Hplay Hb Hover.
  assert (Hboard : board < length bs) by (by eapply lookup_lt_Some).
  pose proof (initial_coherent (Move := Move) bs d board Hboard) as Hco.
  pose proof Hco as (Ht & Hset & _).
  destruct (iteration_round rand board sd (initial (Move := Move) bs d)
              Hplay Ht Hboard)
    as (b0 & leaf & b1 & w1 & node1 & ms & fb & delta & w' & Hround).
  assert (b0 = b) as ->.
  { pose proof (rd_input _ _ _ _ _ _ _ _ _ _ _ _ _ Hround) as Hin.
    cbn in Hin. congruence. }
  destruct (round_first rand _ _ _ _ _ _ _ _ _ _ _ _ Hround eq_refl Hover)
    as (r' & c & cn & Hr' & Hch & Hc & Hcn & Hv).
  exists w', r'. split_and!.
  - apply (rd_run _ _ _ _ _ _ _ _ _ _ _ _ _ Hround).
  - by eapply round_coherent.
  - done.
  - by rewrite Hch, length_seq.
  - apply (unvisited_lt_length _ _ c); [done|].
    unfold visits_of. rewrite Hcn. lia.
Qed.

(** C10.  On a position that is not over and has [L] legal moves, a
    search of at least [L] rounds returns a root with [L] children,
    each visited at least once, so the quotient [wins / visits] of
    every ranked move is defined. *)
Theorem C10_root_children_visited :
  playable ->
  forall bs (d : nat) (board : ref) (b : Board) (N sd : Z),
    bs !! board = Some b -> is_game_over b = false ->
    (Z.of_nat (length (legal_moves b)) <= N)%Z ->
    exists w r,
      mcts rand bs d board N sd = Ok w /\
      nodes w !! root = Some r /\
      length (children r) = length (legal_moves b) /\
      forall c, c ∈ children r ->
        exists cn q,
          nodes w !! c = Some cn /\ 1 <= visits cn /\
          average (nodes w) c = Ok q.
Proof.
  intros Hplay bs d board b N sd Hb Hover HN.
  assert (HL : length (legal_moves b) <> 0).
  { specialize (Hplay b Hover). by destruct (legal_moves b). }
  destruct (first_round bs d board sd b Hplay Hb Hover)
    as (w1 & r1 & Hit & Hco1 & Hr1 & Hlen & Hcount1).
  assert (Hne : children r1 <> []).
  { intros Hnil. rewrite Hnil in Hlen. cbn in Hlen. lia. }
  destruct (later_rounds board sd (Z.to_nat N - 1) Hplay w1 r1 Hco1 Hr1 Hne)
    as (w & r & Hloop & Hco & Hr & Hch & Hcount).
  exists w, r. split_and!.
  - unfold mcts. replace (Z.to_nat N) with (S (Z.to_nat N - 1)) by lia.
    cbn [mcts_loop]. fold (initial (Move := Move) bs d). rewrite Hit. done.
  - done.
  - congruence.
  - intros c Hc. destruct Hco as (Ht & _).
    destruct (tree_children _ Ht root r c Hr Hc) as (cn & Hcn & _).
    assert (Hz : unvisited (nodes w) (children r) = 0)
      by (rewrite Hch; lia).
    pose proof (unvisited_zero _ _ c Hz Hc) as Hv.
    unfold visits_of in Hv. rewrite Hcn in Hv.
    exists cn, (Q2R (wins cn) / INR (visits cn))%R.
    split_and!; [done|lia|].
    unfold average, deref. rewrite Hcn. cbn [bind]. unfold truediv.
    destruct (Nat.eqb_spec (visits cn) 0); [done|done].
Qed.
End RootChildren.

(** ** A search on a position that is already over *)

Section TerminalInput.
Context `{Rules Board Move} (rand : nat -> nat).
Implicit Types (n r : Node Move) (w : World Board Move) (bs : list Board).

Lemma simulate_over fuel bs tb (b : Board) (d : nat) (depth sd : Z) :
  bs !! tb = Some b -> is_game_over b = true ->
  simulate rand fuel bs tb d depth sd = Ok (bs, d).
Proof.
  intros Hb Hover.
  destruct fuel; cbn [simulate]; unfold deref; rewrite Hb; cbn [bind];
    by rewrite Hover.
Qed.

Lemma terminal_round board sd bs d r (b : Board) :
  children r = [] -> parent r = None ->
  bs !! board = Some b -> is_game_over b = true ->
  iteration rand board sd (mkWorld [r] bs d) =
    Ok (mkWorld [bump (signed b (final_score b)) r] (bs ++ [b]) d).
Proof.
  intros Hch Hp Hb Hover.
  assert (Htb : (bs ++ [b]) !! length bs = Some b)
    by (by apply list_lookup_middle).
  unfold iteration, deref. cbn [nodes boards draws]. rewrite Hb.
  cbn [bind length select]. unfold deref at 1. cbn [lookup list_lookup bind].
  unfold root. cbn. rewrite Hch. cbn [bind].
  unfold expansion, deref. cbn [nodes boards draws]. rewrite Htb.
  cbn [bind]. rewrite Hover. cbn [negb bind nodes boards draws].
  rewrite (simulate_over _ _ _ b) by done. cbn [bind].
  unfold deref. rewrite Htb. cbn [bind length backprop].
  unfold deref. cbn. rewrite Htb. cbn [bind]. rewrite Hp. done.
Qed.

Lemma terminal_rounds board sd (b : Board) (k : nat) :
  is_game_over b = true ->
  forall bs d r,
    children r = [] -> parent r = None -> bs !! board = Some b ->
    exists r',
      mcts_loop rand k board sd (mkWorld [r] bs d) =
        Ok (mkWorld [r'] (bs ++ replicate k b) d) /\
      children r' = [] /\ visits r' = visits r + k.
Proof.
  intros Hover. induction k as [|k IH]; intros bs d r Hch Hp Hb.
  - exists r. cbn. rewrite app_nil_r. split_and!; [done|done|lia].
  - cbn [mcts_loop]. rewrite (terminal_round board sd bs d r b) by done.
    cbn [bind].
    destruct (IH (bs ++ [b]) d (bump (signed b (final_score b)) r))
      as (r' & Hrun & Hch' & Hv); [done|done|by apply lookup_app_l_Some|].
    exists r'. rewrite Hrun. cbn [replicate].
    rewrite <- app_assoc. cbn [app]. split_and!; [done|done|].
    rewrite Hv. cbn. lia.
Qed.

(** C4.  On an input position that is already over the search returns a
    tree that consists of the root alone, with no children; no call to
    [random.choice] was made and every board copied for a round still
    holds the input position, so no move was chosen or pushed. *)
Theorem C4_terminal_input :
  forall bs (d : nat) (board : ref) (b : Board) (N sd : Z),
    bs !! board = Some b -> is_game_over b = true ->
    exists r,
      mcts rand bs d board N sd =
        Ok (mkWorld [r] (bs ++ replicate (Z.to_nat N) b) d) /\
      children r = [].
Proof.
  intros bs d board b N sd Hb Hover. unfold mcts.
  destruct (terminal_rounds board sd b (Z.to_nat N) Hover bs d
              (new_node None None)) as (r & Hrun & Hch & _); try done.
  by exists r.
Qed.
End TerminalInput.

(** ** The sign of the backpropagated reward *)

Section BackpropSign.
Context `{Rules Board Move} (rand : nat -> nat).

(** In every round the nodes from the rollout's start up to the root
    all receive one and the same amount: the rollout's score if White
    is to move in the final position, its negation otherwise. *)
Lemma round_same_amount board sd w b0 leaf b1 w1 node1 ms fb delta w' :
  round rand board sd w b0 leaf b1 w1 node1 ms fb delta w' ->
  delta = (if turn fb then final_score fb else - final_score fb)%Q /\
  node1 ∈ round_path w1 node1 /\ root ∈ round_path w1 node1 /\
  forall i, i ∈ round_path w1 node1 ->
    exists n1 n',
      nodes w1 !! i = Some n1 /\ nodes w' !! i = Some n' /\
      wins n' = (wins n1 + delta)%Q.
Proof.
  intros Hround. split_and!.
  - apply (rd_delta _ _ _ _ _ _ _ _ _ _ _ _ _ Hround).
  - by eapply node1_on_path.
  - by eapply root_on_path.
  - intros i Hi.
    assert (Hlive : i < length (nodes w')).
    { rewrite (rd_length _ _ _ _ _ _ _ _ _ _ _ _ _ Hround).
      apply path_up_le in Hi.
      - pose proof (node1_live rand _ _ _ _ _ _ _ _ _ _ _ _ Hround). lia.
      - apply tree_parents_below.
        apply (rd_tree1 _ _ _ _ _ _ _ _ _ _ _ _ _ Hround). }
    destruct (lookup_lt_is_Some_2 _ _ Hlive) as [n' Hn'].
    destruct (round_uniform rand _ _ _ _ _ _ _ _ _ _ _ _ Hround i n' Hn')
      as (n1 & Hn1 & [(_ & Hw & _)|(Hout & _)]); [|done].
    by exists n1, n'.
Qed.
End BackpropSign.

(** C1 (the code departs from the claim).  On the position with a white
    rook against a black pawn, one round without rollout scores 4 with
    Black to move; the rollout's start node (node 1) and its parent, the
    root, both receive -4: the same sign at both levels. *)
Theorem C1_same_sign_at_both_levels :
  exists w r c,
    mcts Toy.rand [Toy.rook_vs_pawn 3] 0 0 1 0 = Ok w /\
    nodes w !! root = Some r /\ nodes w !! 1 = Some c /\
    parent c = Some root /\ visits r = 1 /\ visits c = 1 /\
    wins r = (-4 # 1)%Q /\ wins c = (-4 # 1)%Q.
Proof.
  eexists _, _, _. split; [vm_compute; reflexivity|].
  cbn. split_and!; reflexivity.
Qed.

(** ** The statements on concrete inputs *)

Lemma toy_playable : playable (Board := Toy.board).
Proof.
  intros b Hover. cbn in *. destruct (Toy.plies b =? 0); [discriminate|done].
Qed.

Lemma toy_rook_and_pawn : rook_and_pawn_only (Toy.rook_vs_pawn 3) 0 55.
Proof.
  split_and!; [lia..|]. intros sq Hsq.
  change (piece_at (Toy.rook_vs_pawn 3) sq)
    with (if 0 =? sq then Some (mkPiece ROOK WHITE)
          else if 55 =? sq then Some (mkPiece PAWN BLACK) else None).
  destruct (Nat.eqb_spec 0 sq), (Nat.eqb_spec 55 sq);
    repeat case_decide; try lia; reflexivity.
Qed.

Lemma two_children_family :
  family Toy.two_children 0 (mkNode None None [1; 2] 2 5).
Proof.
  intros c Hc. cbn in Hc.
  apply elem_of_cons in Hc as [->|Hc].
  { eexists. split; [reflexivity|]. cbn. split; [reflexivity|lia]. }
  apply elem_of_cons in Hc as [->|Hc].
  { eexists. split; [reflexivity|]. cbn. split; [reflexivity|lia]. }
  by apply elem_of_nil in Hc.
Qed.

Lemma C2_witness :
  exists w r,
    mcts Toy.rand [Toy.rook_vs_pawn 2] 0 0 5 3 = Ok w /\
    nodes w !! root = Some r /\ Z.of_nat (visits r) = 5%Z.
Proof.
  apply (C2_root_visits Toy.rand toy_playable [Toy.rook_vs_pawn 2] 0 0 5 3);
    cbn; lia.
Defined.


Lemma C4_witness :
  exists r,
    mcts Toy.rand [Toy.rook_vs_pawn 0] 0 0 3 20 =
      Ok (mkWorld [r]
            ([Toy.rook_vs_pawn 0] ++ replicate 3 (Toy.rook_vs_pawn 0)) 0) /\
    children r = [].
Proof.
  apply (C4_terminal_input Toy.rand [Toy.rook_vs_pawn 0] 0 0
           (Toy.rook_vs_pawn 0) 3 20); reflexivity.
Defined.

Lemma C5_witness : get_top_moves Toy.three_children 0 2 = Ok [3; 1].
Proof.
  destruct (C5_get_top_moves (Move := nat)) as (_ & Hcase).
  by eapply (Hcase Toy.three_children 0 _ 1 2 3).
Defined.

Lemma C6_witness :
  exists w w',
    mcts Toy.rand [Toy.rook_vs_pawn 3] 0 0 (Z.of_nat 1) 20 = Ok w /\
    mcts Toy.rand [Toy.rook_vs_pawn 3] 0 0 (Z.of_nat 3) 20 = Ok w' /\
    forall i n, nodes w !! i = Some n -> children n <> [] ->
      exists n', nodes w' !! i = Some n' /\ children n' = children n.
Proof.
  apply (C6_expanded_once Toy.rand toy_playable [Toy.rook_vs_pawn 3] 0 0 20
           1 3); cbn; lia.
Defined.


Lemma C9_witness :
  exists w,
    mcts Toy.rand [Toy.rook_vs_pawn 3] 0 0 4 20 = Ok w /\
    boards w !! 0 = [Toy.rook_vs_pawn 3] !! 0 /\
    forall j, j < length [Toy.rook_vs_pawn 3] ->
      boards w !! j = [Toy.rook_vs_pawn 3] !! j.
Proof.
  apply (C9_input_board_unchanged Toy.rand toy_playable
           [Toy.rook_vs_pawn 3] 0 0 4 20).
  cbn. lia.
Defined.

Lemma C10_witness :
  exists w r,
    mcts Toy.rand [Toy.rook_vs_pawn 3] 0 0 2 20 = Ok w /\
    nodes w !! root = Some r /\
    length (children r) = length (legal_moves (Toy.rook_vs_pawn 3)) /\
    forall c, c ∈ children r ->
      exists cn q,
        nodes w !! c = Some cn /\ 1 <= visits cn /\
        average (nodes w) c = Ok q.
Proof.
  apply (C10_root_children_visited Toy.rand toy_playable
           [Toy.rook_vs_pawn 3] 0 0 (Toy.rook_vs_pawn 3) 2 20);
    [reflexivity|reflexivity|cbn; lia].
Defined.

(** * Further properties of the program *)

(** ** Which child [best_child] picks among equals *)

Section FirstMaximal.
Context {Move : Type}.
Implicit Types (h : list (Node Move)) (k : priority).

Lemma prio_lt_trans k1 k2 k3 :
  prio_gt k2 k1 = true -> prio_gt k3 k2 = true -> prio_gt k3 k1 = true.
Proof.
  destruct k1, k2, k3; cbn; try done;
    repeat destruct (Rlt_dec _ _); try done; lra.
Qed.

Lemma prio_le_lt_trans k1 k2 k3 :
  prio_gt k1 k2 = false -> prio_gt k3 k2 = true -> prio_gt k3 k1 = true.
Proof.
  destruct k1, k2, k3; cbn; try done;
    repeat destruct (Rlt_dec _ _); try done; lra.
Qed.

Section MaxFirst.
Context {A : Type} (key : A -> outcome priority).

(** [below kc l]: every key in [l] is strictly less than [kc];
    [not_above kc l]: no key in [l] exceeds [kc]. *)
Let below (kc : priority) (l : list A) : Prop :=
  forall x, x ∈ l -> exists kx, key x = Ok kx /\ prio_gt kc kx = true.
Let not_above (kc : priority) (l : list A) : Prop :=
  forall x, x ∈ l -> exists kx, key x = Ok kx /\ prio_gt kx kc = false.

Lemma max_loop_first (rest : list A) : forall best kbest pre mid,
  key best = Ok kbest -> below kbest pre -> not_above kbest mid ->
  (forall x, x ∈ rest -> exists kx, key x = Ok kx) ->
  exists c kc l1 l2,
    max_loop key best kbest rest = Ok c /\
    pre ++ best :: mid ++ rest = l1 ++ c :: l2 /\
    key c = Ok kc /\ below kc l1 /\ not_above kc l2.
Proof.
  induction rest as [|x rest IH]; intros best kbest pre mid Hbest Hpre Hmid Hk.
  - exists best, kbest, pre, mid. rewrite app_nil_r. by split_and!.
  - destruct (Hk x) as [kx Hkx]; [apply list_elem_of_here|].
    assert (Hrest : forall y, y ∈ rest -> exists ky, key y = Ok ky).
    { intros y Hy. apply Hk. by apply list_elem_of_further. }
    cbn [max_loop]. rewrite Hkx. cbn [bind].
    destruct (prio_gt kx kbest) eqn:Hgt.
    + destruct (IH x kx (pre ++ best :: mid) [] Hkx) as
        (c & kc & l1 & l2 & Hrun & Heq & Hkc & Hl1 & Hl2); [| |done|].
      * intros y Hy. apply elem_of_app in Hy as [Hy|Hy].
        { destruct (Hpre y Hy) as (ky & Hky & Hlt). exists ky.
          split; [done|]. by eapply prio_lt_trans. }
        apply elem_of_cons in Hy as [->|Hy]; [by exists kbest|].
        destruct (Hmid y Hy) as (ky & Hky & Hle). exists ky.
        split; [done|]. by eapply prio_le_lt_trans.
      * intros y Hy. by apply elem_of_nil in Hy.
      * exists c, kc, l1, l2. split_and!; try done.
        rewrite <- Heq. rewrite <- !app_assoc. done.
    + destruct (IH best kbest pre (mid ++ [x]) Hbest Hpre) as
        (c & kc & l1 & l2 & Hrun & Heq & Hkc & Hl1 & Hl2); [|done|].
      * intros y Hy. apply elem_of_app in Hy as [Hy|Hy]; [by apply Hmid|].
        apply list_elem_of_singleton in Hy as ->. by exists kx.
      * exists c, kc, l1, l2. split_and!; try done.
        rewrite <- Heq. rewrite <- !app_assoc. done.
Qed.

Lemma py_max_first (l : list A) :
  l <> [] ->
  (forall x, x ∈ l -> exists kx, key x = Ok kx) ->
  exists c kc l1 l2,
    py_max key l = Ok c /\ l = l1 ++ c :: l2 /\ key c = Ok kc /\
    (forall x, x ∈ l1 -> exists kx, key x = Ok kx /\ prio_gt kc kx = true) /\
    (forall x, x ∈ l2 -> exists kx, key x = Ok kx /\ prio_gt kx kc = false).
Proof.
  destruct l as [|x rest]; [done|]. intros _ Hk.
  destruct (Hk x) as [kx Hkx]; [apply list_elem_of_here|].
  cbn [py_max]. rewrite Hkx. cbn [bind].
  destruct (max_loop_first rest x kx [] [] Hkx) as
    (c & kc & l1 & l2 & Hrun & Heq & Hkc & Hl1 & Hl2).
  - intros y Hy. by apply elem_of_nil in Hy.
  - intros y Hy. by apply elem_of_nil in Hy.
  - intros y Hy. apply Hk. by apply list_elem_of_further.
  - exists c, kc, l1, l2. by split_and!.
Qed.
End MaxFirst.


(** X2.  Selection on a node outside its domain: [best_child] of a node
    without children raises [ValueError]; [ucb1] of a visited node
    without parent raises [AttributeError], and of a visited node whose
    parent was never visited raises [ValueError]. *)
Theorem selection_errors h (c : ref) (n : Node Move) (C : R) :
  h !! c = Some n ->
  (children n = [] -> best_child h c = Raise ValueError) /\
  (0 < visits n -> parent n = None -> ucb1 h c C = Raise AttributeError) /\
  (forall p pn, 0 < visits n -> parent n = Some p -> h !! p = Some pn ->
     visits pn = 0 -> ucb1 h c C = Raise ValueError).
Proof.
  intros Hn. split_and!.
  - intros Hch. unfold best_child, deref. rewrite Hn. cbn [bind].
    by rewrite Hch.
  - intros Hv Hp. unfold ucb1, deref. rewrite Hn. cbn [bind].
    destruct (Nat.eqb_spec (visits n) 0) as [|_]; [lia|].
    unfold truediv. destruct (Nat.eqb_spec (visits n) 0) as [|_]; [lia|].
    cbn [bind]. by rewrite Hp.
  - intros p pn Hv Hp Hpn Hpv. unfold ucb1, deref. rewrite Hn. cbn [bind].
    destruct (Nat.eqb_spec (visits n) 0) as [|_]; [lia|].
    unfold truediv. destruct (Nat.eqb_spec (visits n) 0) as [|_]; [lia|].
    cbn [bind]. rewrite Hp, Hpn. cbn [bind]. unfold math_log.
    by rewrite Hpv.
Qed.
End FirstMaximal.

(** ** The evaluator: symmetry and range *)

Section EvaluatorMore.
Context `{Rules Board Move}.

Lemma sum_over_ext (f g : Square -> Z) l :
  (forall sq, sq ∈ l -> f sq = g sq) -> sum_over f l = sum_over g l.
Proof.
  induction l as [|a l IH]; intros Hfg; [done|].
  cbn [sum_over foldr]. fold (sum_over f l) (sum_over g l).
  rewrite Hfg by apply list_elem_of_here. rewrite IH; [done|].
  intros sq Hsq. apply Hfg. by apply list_elem_of_further.
Qed.

Lemma center_in_board sq : sq ∈ center_squares -> sq < 64.
Proof.
  unfold center_squares, D4, D5, E4, E5. intros Hsq.
  repeat (apply elem_of_cons in Hsq as [->|Hsq]; [lia|]).
  by apply elem_of_nil in Hsq.
Qed.

Lemma swapped_material b b' c :
  colors_swapped b b' -> side_material b' c = side_material b (negb c).
Proof.
  intros Hsw. apply sum_over_ext. intros sq Hsq%in_SQUARES.
  unfold worth. rewrite (Hsw sq Hsq).
  destruct (piece_at b sq) as [[pt col]|]; [|done]. cbn.
  destruct col, c; done.
Qed.

Lemma swapped_center b b' c :
  colors_swapped b b' -> center_count b' c = center_count b (negb c).
Proof.
  intros Hsw. apply sum_over_ext. intros sq Hsq%center_in_board.
  unfold occupied_by. rewrite (Hsw sq Hsq).
  destruct (piece_at b sq) as [[pt col]|]; [|done]. cbn.
  destruct col, c; done.
Qed.

(** X3.  The evaluator is antisymmetric in the colours: exchanging the
    colour of every piece negates the score. *)
Theorem evaluate_board_swap b b' :
  colors_swapped b b' -> (evaluate_board b' == - evaluate_board b)%Q.
Proof.
  intros Hsw. rewrite !evaluate_board_formula.
  rewrite !(swapped_material b b'), !(swapped_center b b') by done.
  cbn [negb WHITE BLACK]. unfold WHITE, BLACK. cbn [negb].
  unfold Z.sub. rewrite !inject_Z_plus, !inject_Z_opp. ring.
Qed.

Lemma worth_range b sq :
  (0 <= worth b WHITE sq /\ 0 <= worth b BLACK sq /\
   worth b WHITE sq + worth b BLACK sq <= 9)%Z.
Proof.
  unfold worth. destruct (piece_at b sq) as [[pt col]|]; [|lia].
  destruct pt, col; vm_compute; split_and!; discriminate.
Qed.

Lemma occupied_range b sq :
  (0 <= occupied_by b WHITE sq /\ 0 <= occupied_by b BLACK sq /\
   occupied_by b WHITE sq + occupied_by b BLACK sq <= 1)%Z.
Proof.
  unfold occupied_by. destruct (piece_at b sq) as [[pt col]|]; [|lia].
  destruct col; vm_compute; split_and!; discriminate.
Qed.

Lemma sum_over_pair_range (f g : Square -> Z) (m : Z) l :
  (forall sq, 0 <= f sq /\ 0 <= g sq /\ f sq + g sq <= m)%Z ->
  (0 <= sum_over f l /\ 0 <= sum_over g l /\
   sum_over f l + sum_over g l <= m * Z.of_nat (length l))%Z.
Proof.
  intros Hfg. induction l as [|a l IH]; [cbn; lia|].
  cbn [sum_over foldr length]. fold (sum_over f l) (sum_over g l).
  specialize (Hfg a). lia.
Qed.

Lemma evaluate_board_bounds b :
  (- (5764 # 10) <= evaluate_board b /\ evaluate_board b <= 5764 # 10)%Q.
Proof.
  rewrite evaluate_board_formula.
  pose proof (sum_over_pair_range (worth b WHITE) (worth b BLACK) 9 SQUARES
                (worth_range b)) as Hm.
  pose proof (sum_over_pair_range (occupied_by b WHITE)
                (occupied_by b BLACK) 1 center_squares (occupied_range b))
    as Hc.
  fold (side_material b WHITE) (side_material b BLACK) in Hm.
  fold (center_count b WHITE) (center_count b BLACK) in Hc.
  change (Z.of_nat (length SQUARES)) with 64%Z in Hm.
  change (Z.of_nat (length center_squares)) with 4%Z in Hc.
  set (W := side_material b WHITE) in *. set (B := side_material b BLACK) in *.
  set (cW := center_count b WHITE) in *.
  set (cB := center_count b BLACK) in *.
  unfold Qle, Qminus, Qplus, Qmult, Qopp, inject_Z. cbn [Qnum Qden].
  split; lia.
Qed.
End EvaluatorMore.

(** ** The evaluator in floating point *)

Section FloatChecks.

Lemma near_all_materials :
  forallb (fun m => near_all 4 (Binary64.float_of_int m) (10 * m)) materials
  = true.
Proof. vm_compute. reflexivity. Qed.

Lemma near_all_weaken (n : nat) : forall x t10,
  near_all (S n) x t10 = true -> near_all n x t10 = true.
Proof.
  induction n as [|n IH]; intros x t10; cbn [near_all].
  - intros [Hx _]%andb_true_iff. by rewrite Hx.
  - intros [Hx [Hadd Hsub]%andb_true_iff]%andb_true_iff.
    rewrite Hx. cbn [andb]. apply andb_true_iff. split; by apply IH.
Qed.

Lemma near_all_here (n : nat) x t10 :
  near_all n x t10 = true -> near x t10 = true.
Proof. destruct n; cbn [near_all]; by intros [? _]%andb_true_iff. Qed.

Lemma near_all_steps helds : forall (n : nat) x t10,
  length helds <= n -> near_all n x t10 = true ->
  near (fold_left sf_step helds x) (t10 + tenths helds) = true.
Proof.
  induction helds as [|held helds IH]; intros n x t10 Hlen Hall.
  - cbn. rewrite Z.add_0_r. by eapply near_all_here.
  - cbn [length] in Hlen. destruct n as [|n]; [lia|].
    cbn [fold_left tenths foldr]. fold (tenths helds).
    destruct held as [[|]|]; cbn [sf_step].
    + replace (t10 + (1 + tenths helds))%Z
        with ((t10 + 1) + tenths helds)%Z by lia.
      apply (IH n); [lia|]. cbn [near_all] in Hall.
      by apply andb_true_iff in Hall as [_ [? _]%andb_true_iff].
    + replace (t10 + (-1 + tenths helds))%Z
        with ((t10 - 1) + tenths helds)%Z by lia.
      apply (IH n); [lia|]. cbn [near_all] in Hall.
      by apply andb_true_iff in Hall as [_ [_ ?]%andb_true_iff].
    + apply (IH n); [lia|]. by apply near_all_weaken.
Qed.

Lemma near_sound x t10 :
  near x t10 = true ->
  exists v, float_value x = Some v /\ about (t10 # 10) v.
Proof.
  destruct x as [s| | |s m e]; cbn [near float_value]; try done.
  - intros ->%Z.eqb_eq. exists 0%Q. split; [done|]. by split.
  - intros [He Habs]%andb_true_iff.
    apply Z.leb_le in He. apply Z.leb_le in Habs.
    set (sm := if s then Z.neg m else Z.pos m) in *.
    eexists. split; [done|].
    unfold about, rounding, Qle, Qminus, Qplus, Qopp.
    destruct e as [|q|p]; cbn [Qnum Qden inject_Z].
    + change (2 ^ (0 + 56))%Z with 72057594037927936%Z in Habs.
      change (2 ^ 56)%Z with 72057594037927936%Z in Habs.
      change (2 ^ 0)%Z with 1%Z. lia.
    + rewrite Z.pow_add_r in Habs by lia.
      change (2 ^ 56)%Z with 72057594037927936%Z in Habs.
      set (X := (sm * 2 ^ Z.pos q)%Z).
      replace (sm * (2 ^ Z.pos q * 72057594037927936))%Z
        with (X * 72057594037927936)%Z in Habs by (unfold X; ring).
      lia.
    + set (K := (2 ^ (Z.neg p + 56))%Z) in *.
      set (P := Z.pos (2 ^ p)).
      assert (0 < K)%Z as HK by (apply Z.pow_pos_nonneg; lia).
      assert (P * K = 72057594037927936)%Z as HPK.
      { unfold P, K. rewrite Pos2Z.inj_pow, <- Z.pow_add_r by lia.
        replace (Z.pos p + (Z.neg p + 56))%Z with 56%Z by lia. done. }
      change (2 ^ 56)%Z with 72057594037927936%Z in Habs.
      set (X := (sm * K)%Z) in *.
      split.
      * apply (Z.mul_le_mono_pos_r _ _ K HK).
        replace ((t10 * 8796093022208 + - (1) * 10) * P * K)%Z
          with ((t10 * 8796093022208 + - (1) * 10) * (P * K))%Z by ring.
        replace (sm * (10 * 8796093022208) * K)%Z
          with (X * (10 * 8796093022208))%Z by (unfold X; ring).
        rewrite HPK. lia.
      * apply (Z.mul_le_mono_pos_r _ _ K HK).
        replace ((t10 * 8796093022208 + 1 * 10) * P * K)%Z
          with ((t10 * 8796093022208 + 1 * 10) * (P * K))%Z by ring.
        replace (sm * (10 * 8796093022208) * K)%Z
          with (X * (10 * 8796093022208))%Z by (unfold X; ring).
        rewrite HPK. lia.
Qed.

Lemma float_steps_float helds : forall x,
  fold_left float_step helds (Binary64.Float x) =
  Binary64.Float (fold_left sf_step helds x).
Proof.
  induction helds as [|held helds IH]; intros x; [done|].
  cbn [fold_left]. destruct held as [[|]|]; cbn [float_step sf_step];
    unfold Binary64.add_float, Binary64.sub_float;
    cbn [Binary64.as_float]; apply IH.
Qed.

Lemma float_steps_int helds (z : Z) :
  (tenths helds = 0%Z /\
   fold_left float_step helds (Binary64.Int z) = Binary64.Int z) \/
  fold_left float_step helds (Binary64.Int z) =
    Binary64.Float (fold_left sf_step helds (Binary64.float_of_int z)).
Proof.
  induction helds as [|held helds IH]; [by left|].
  cbn [fold_left tenths foldr]. fold (tenths helds).
  destruct held as [[|]|]; cbn [float_step sf_step].
  - right. unfold Binary64.add_float. cbn [Binary64.as_float].
    apply float_steps_float.
  - right. unfold Binary64.sub_float. cbn [Binary64.as_float].
    apply float_steps_float.
  - destruct IH as [[Ht Hrun]|Hrun]; [by left|by right].
Qed.

Lemma materials_range (m : Z) :
  (-576 <= m <= 576)%Z -> m ∈ materials.
Proof.
  intros Hm. unfold materials. apply list_elem_of_fmap.
  exists (Z.to_nat (m + 576)). split; [lia|].
  apply elem_of_seq. lia.
Qed.

(** Adding and subtracting [0.1] up to four times from an integer
    between -576 and 576 stays within [2^-43] of the exact sum. *)
Lemma float_steps_about helds (m : Z) :
  length helds <= 4 -> (-576 <= m <= 576)%Z ->
  exists v,
    value (fold_left float_step helds (Binary64.Int m)) = Some v /\
    about (inject_Z m + (1 # 10) * inject_Z (tenths helds)) v.
Proof.
  intros Hlen Hm.
  destruct (float_steps_int helds m) as [[Ht ->]| ->].
  - exists (inject_Z m). split; [done|]. rewrite Ht.
    unfold about, rounding, Qle, Qminus, Qplus, Qopp, Qmult.
    cbn [Qnum Qden inject_Z]. lia.
  - pose proof (proj1 (forallb_forall _ _) near_all_materials m) as Hall.
    rewrite <- list_elem_of_In in Hall.
    specialize (Hall (materials_range m Hm)). cbv beta in Hall.
    destruct (near_sound _ _ (near_all_steps helds 4 _ _ Hlen Hall))
      as (v & Hv & Hlo & Hhi).
    exists v. split; [done|].
    assert (inject_Z m + (1 # 10) * inject_Z (tenths helds)
            == (10 * m + tenths helds) # 10)%Q as Heq.
    { unfold Qeq, Qplus, Qmult. cbn [Qnum Qden inject_Z]. lia. }
    unfold about. by rewrite Heq.
Qed.

End FloatChecks.

Section EvaluatorFloat.
Context `{Rules Board Move}.

Lemma centre_squares : centre = center_squares.
Proof. reflexivity. Qed.

Lemma evaluate_board_steps (b : Board) :
  Binary64.evaluate_board b =
  fold_left float_step (map (holder b) centre) (Binary64.Int (material b)).
Proof.
  unfold Binary64.evaluate_board, material. rewrite material_loop.
  rewrite <- centre_squares.
  generalize (Binary64.Int (side_material b WHITE - side_material b BLACK)).
  induction centre as [|sq l IH]; intros score; [done|].
  cbn [fold_left map]. rewrite IH. f_equal.
  unfold Binary64.center_step, float_step, holder.
  by destruct (piece_at b sq) as [[pt [|]]|].
Qed.

Lemma tenths_held (b : Board) l :
  tenths (map (holder b) l) =
  (sum_over (occupied_by b WHITE) l - sum_over (occupied_by b BLACK) l)%Z.
Proof.
  induction l as [|sq l IH]; [done|].
  cbn [map tenths foldr sum_over]. fold (tenths (map (holder b) l)).
  fold (sum_over (occupied_by b WHITE) l) (sum_over (occupied_by b BLACK) l).
  rewrite IH.
  generalize (sum_over (occupied_by b WHITE) l).
  generalize (sum_over (occupied_by b BLACK) l). intros K W.
  unfold holder, occupied_by.
  destruct (piece_at b sq) as [[pt [|]]|];
    cbn [fmap option_fmap option_map color]; unfold WHITE, BLACK;
    repeat case_bool_decide; try congruence; ring.
Qed.

Lemma material_range (b : Board) : (-576 <= material b <= 576)%Z.
Proof.
  pose proof (sum_over_pair_range (worth b WHITE) (worth b BLACK) 9 SQUARES
                (worth_range b)) as Hm.
  fold (side_material b WHITE) (side_material b BLACK) in Hm.
  change (Z.of_nat (length SQUARES)) with 64%Z in Hm.
  unfold material. lia.
Qed.

Lemma evaluate_board_about (b : Board) :
  exists v,
    value (Binary64.evaluate_board b) = Some v /\ about (ideal_score b) v.
Proof.
  rewrite evaluate_board_steps.
  destruct (float_steps_about (map (holder b) centre) (material b))
    as (v & Hv & Hlo & Hhi); [done|apply material_range|].
  exists v. split; [done|].
  assert (ideal_score b ==
          inject_Z (material b)
          + (1 # 10) * inject_Z (tenths (map (holder b) centre)))%Q as Hid.
  { rewrite tenths_held. unfold ideal_score, centre_held.
    generalize (sum_over (occupied_by b WHITE) centre).
    generalize (sum_over (occupied_by b BLACK) centre).
    generalize (material b). intros m k w.
    unfold Zminus. rewrite inject_Z_plus, inject_Z_opp. ring. }
  unfold about. by rewrite Hid.
Qed.

Lemma float_steps_empty (b : Board) l : forall score,
  (forall sq, sq ∈ l -> piece_at b sq = None) ->
  fold_left float_step (map (holder b) l) score = score.
Proof.
  induction l as [|sq l IH]; intros score Hnone; [done|].
  cbn [fold_left map].
  change (holder b sq) with (color <$> piece_at b sq).
  rewrite (Hnone sq) by left. cbn [fmap option_fmap option_map float_step].
  apply IH. intros sq' Hsq'. apply Hnone. by right.
Qed.

Lemma evaluate_board_int (b : Board) :
  (forall sq, sq ∈ centre -> piece_at b sq = None) ->
  Binary64.evaluate_board b = Binary64.Int (material b).
Proof.
  intros Hnone. rewrite evaluate_board_steps. by apply float_steps_empty.
Qed.

Lemma evaluate_board_ideal (b : Board) :
  (evaluate_board b == ideal_score b)%Q.
Proof. apply evaluate_board_formula. Qed.

(** The exact rational [evaluate_board] is within [2^-43] of the float
    the program computes. *)
Lemma evaluate_board_rounding (b : Board) :
  exists v,
    value (Binary64.evaluate_board b) = Some v /\ about (evaluate_board b) v.
Proof.
  destruct (evaluate_board_about b) as (v & Hv & Hlo & Hhi).
  exists v. split; [done|]. unfold about.
  by rewrite evaluate_board_ideal.
Qed.

Lemma rook_and_pawn_material b r p :
  rook_and_pawn_only b r p -> material b = 4%Z.
Proof.
  intros (Hr & Hp & Hne & Hat). unfold material.
  assert (HW : side_material b WHITE = 5%Z).
  { apply (sum_over_single _ _ r); [apply NoDup_seq|by apply in_SQUARES|].
    intros sq Hsq%in_SQUARES. unfold worth. rewrite Hat by assumption.
    repeat (case_decide; subst); cbn in *; unfold WHITE, BLACK in *;
      congruence. }
  assert (HB : side_material b BLACK = 1%Z).
  { apply (sum_over_single _ _ p); [apply NoDup_seq|by apply in_SQUARES|].
    intros sq Hsq%in_SQUARES. unfold worth. rewrite Hat by assumption.
    repeat (case_decide; subst); cbn in *; unfold WHITE, BLACK in *;
      congruence. }
  by rewrite HW, HB.
Qed.

Lemma rook_and_pawn_centre b r p :
  rook_and_pawn_only b r p -> r ∉ centre -> p ∉ centre ->
  forall sq, sq ∈ centre -> piece_at b sq = None.
Proof.
  intros (Hr & Hp & Hne & Hat) Hrc Hpc sq Hsq.
  assert (sq < 64) as Hlt.
  { unfold centre, square_at in Hsq.
    repeat (apply elem_of_cons in Hsq as [->|Hsq]; [lia|]).
    by apply elem_of_nil in Hsq. }
  rewrite Hat by done.
  repeat case_decide; subst;
    [by destruct Hrc|by destruct Hpc|done].
Qed.

(** C8.  [evaluate_board] starts from White's material minus Black's
    (pawn 1, knight 3, bishop 3, rook 5, queen 9, king 0), an [int], and
    goes through d4, d5, e4 and e5 in this order, adding the float [0.1]
    for a square held by White and subtracting it for a square held by
    Black; the float [0.1] is the binary64 nearest to one tenth, less
    than [2^-57] away from it.  The float returned is within [2^-43] of
    material plus 0.1 per centre square held by White minus 0.1 per
    centre square held by Black.  When no centre square is held the
    result is the [int] material itself: a board holding only a white
    rook and a black pawn, neither on a centre square, evaluates to the
    [int] 4. *)
Theorem C8_evaluate_board :
  (exists v,
     float_value Binary64.tenth = Some v /\
     ((1 # 10) - (1 # 144115188075855872) <= v /\
      v <= (1 # 10) + (1 # 144115188075855872))%Q) /\
  (forall b : Board,
     Binary64.evaluate_board b =
     fold_left float_step (map (holder b) centre)
       (Binary64.Int (side_material b WHITE - side_material b BLACK))) /\
  (forall b : Board,
     exists v,
       value (Binary64.evaluate_board b) = Some v /\
       about (ideal_score b) v) /\
  (forall b : Board,
     (forall sq, sq ∈ centre -> piece_at b sq = None) ->
     Binary64.evaluate_board b =
     Binary64.Int (side_material b WHITE - side_material b BLACK)) /\
  (forall (b : Board) (r p : Square),
     rook_and_pawn_only b r p -> r ∉ centre -> p ∉ centre ->
     Binary64.evaluate_board b = Binary64.Int 4).
Proof.
  split_and!.
  - eexists. split; [reflexivity|]. split; by vm_compute.
  - apply evaluate_board_steps.
  - apply evaluate_board_about.
  - apply evaluate_board_int.
  - intros b r p Hrp Hr Hp.
    rewrite evaluate_board_int by (by eapply rook_and_pawn_centre).
    by rewrite (rook_and_pawn_material b r p).
Qed.

(** X4.  The float [evaluate_board] returns lies within [576.4 + 2^-43]
    of zero: 64 squares hold at most 9 points each, four centre squares
    0.1 each, and the additions of 0.1 are rounded. *)
Theorem evaluate_board_range (b : Board) :
  exists v,
    value (Binary64.evaluate_board b) = Some v /\
    (- (score_bound + rounding) <= v /\ v <= score_bound + rounding)%Q.
Proof.
  destruct (evaluate_board_rounding b) as (v & Hv & Hlo & Hhi).
  exists v. split; [done|].
  destruct (evaluate_board_bounds b) as [Hmin Hmax].
  fold score_bound in Hmin, Hmax. split.
  - apply Qle_trans with (evaluate_board b - rounding)%Q; [|done].
    unfold Qminus. rewrite Qopp_plus. by apply Qplus_le_compat.
  - apply Qle_trans with (evaluate_board b + rounding)%Q; [done|].
    by apply Qplus_le_compat.
Qed.

End EvaluatorFloat.

Section FloatExamples.

Lemma centre_off_corner (sq : Square) : sq = 0 \/ sq = 55 -> sq ∉ centre.
Proof.
  intros Hsq Hin. unfold centre, square_at in Hin.
  repeat (apply elem_of_cons in Hin as [Hin|Hin]; [lia|]).
  by apply elem_of_nil in Hin.
Qed.

Lemma C8_witness :
  Binary64.evaluate_board (Toy.rook_vs_pawn 3) = Binary64.Int 4.
Proof.
  destruct (C8_evaluate_board (Board := Toy.board))
    as (_ & _ & _ & _ & Hcase).
  apply (Hcase (Toy.rook_vs_pawn 3) 0 55).
  - apply toy_rook_and_pawn.
  - apply centre_off_corner. by left.
  - apply centre_off_corner. by right.
Defined.

(** With white pawns on d4, d5 and e4 the program returns
    3.3000000000000003, the float [7430939385161319 * 2^-51], and not
    3 + 0.1 + 0.1 + 0.1 = 3.3. *)
Lemma C8_counterexample :
  (ideal_score Examples.three_pawns == 33 # 10)%Q /\
  value (Binary64.evaluate_board Examples.three_pawns)
    = Some (7430939385161319 # 2251799813685248) /\
  ~ (exists v,
       value (Binary64.evaluate_board Examples.three_pawns) = Some v /\
       (v == ideal_score Examples.three_pawns)%Q).
Proof.
  split_and!.
  - by vm_compute.
  - by vm_compute.
  - intros (v & Hv & Heq). vm_compute in Hv. injection Hv as <-.
    vm_compute in Heq. discriminate.
Qed.

End FloatExamples.

(** ** The ranking in full *)

Section RankingMore.
Context {Move : Type}.
Implicit Types (h : list (Node Move)) (cs : list ref).

Lemma get_top_moves_ranking h node (n : Node Move) (top_n : Z) :
  h !! node = Some n ->
  Forall (fun c => is_Some (h !! c)) (children n) ->
  get_top_moves h node top_n = Ok (slice_to top_n (ranking h (children n))).
Proof.
  intros Hn Hcs. unfold get_top_moves, deref. rewrite Hn. cbn [bind].
  by rewrite with_visits_ok.
Qed.

Lemma ranking_perm h cs : ranking h cs ≡ₚ cs.
Proof.
  unfold ranking. rewrite sorted_desc_perm, map_map. cbn. by rewrite map_id.
Qed.

Lemma ranking_sorted h cs : StronglySorted (by_visits_desc h) (ranking h cs).
Proof.
  apply sorted_keys_sorted_refs; [|apply sorted_desc_sorted].
  rewrite sorted_desc_perm. apply Forall_fmap, Forall_forall. by intros c _.
Qed.

Lemma sorted_app_inv {A} (R : A -> A -> Prop) (l1 l2 : list A) :
  StronglySorted R (l1 ++ l2) ->
  forall x y, x ∈ l1 -> y ∈ l2 -> R x y.
Proof.
  induction l1 as [|a l1 IH]; intros Hs x y Hx Hy;
    [by apply elem_of_nil in Hx|].
  cbn in Hs. apply StronglySorted_inv in Hs as [Hs Ha].
  apply elem_of_cons in Hx as [->|Hx]; [|by apply IH].
  rewrite Forall_forall in Ha. apply Ha, elem_of_app. by right.
Qed.

(** X5.  For [top_n >= 0], [get_top_moves] splits the children in two:
    the returned ones, [min top_n (number of children)] many, and the
    rest, none of which has more visits than any returned child. *)
Theorem get_top_moves_top h node (n : Node Move) (top_n : Z) :
  h !! node = Some n ->
  Forall (fun c => is_Some (h !! c)) (children n) ->
  (0 <= top_n)%Z ->
  exists top rest,
    get_top_moves h node top_n = Ok top /\
    top ++ rest ≡ₚ children n /\
    length top = Z.to_nat top_n `min` length (children n) /\
    forall x y, x ∈ top -> y ∈ rest -> visits_of h y <= visits_of h x.
Proof.
  intros Hn Hcs Hpos.
  exists (take (Z.to_nat top_n) (ranking h (children n))),
    (drop (Z.to_nat top_n) (ranking h (children n))).
  split_and!.
  - rewrite (get_top_moves_ranking h node n) by done. unfold slice_to.
    destruct (Z.leb_spec 0 top_n); [done|lia].
  - rewrite take_drop. apply ranking_perm.
  - rewrite length_take. by rewrite (Permutation_length (ranking_perm h _)).
  - apply (sorted_app_inv (by_visits_desc h)). rewrite take_drop.
    apply ranking_sorted.
Qed.


Lemma insert_desc_filter (v : nat) x (l : list (nat * ref)) :
  StronglySorted key_desc l ->
  filter (fun p => p.1 = v) (insert_desc x l) =
  filter (fun p => p.1 = v) (x :: l).
Proof.
  induction 1 as [|y l Hs IH Hy]; [done|].
  cbn [insert_desc]. destruct (Nat.leb_spec (y.1) (x.1)) as [Hle|Hgt]; [done|].
  rewrite filter_cons, IH, !filter_cons.
  destruct (decide (y.1 = v)) as [Hyv|Hyv], (decide (x.1 = v)) as [Hxv|Hxv];
    try done.
  lia.
Qed.

Lemma sorted_desc_filter (v : nat) (l : list (nat * ref)) :
  filter (fun p => p.1 = v) (sorted_desc l) = filter (fun p => p.1 = v) l.
Proof.
  induction l as [|x l IH]; [done|].
  cbn [sorted_desc foldr]. fold (sorted_desc l).
  rewrite insert_desc_filter by apply sorted_desc_sorted.
  by rewrite !filter_cons, IH.
Qed.

Lemma ranking_stable h cs (v : nat) :
  filter (fun c => visits_of h c = v) (ranking h cs) =
  filter (fun c => visits_of h c = v) cs.
Proof.
  unfold ranking.
  set (keyed := map (fun c => (visits_of h c, c)) cs).
  assert (Hkeys : forall l : list (nat * ref),
            Forall (fun p => p.1 = visits_of h p.2) l ->
            filter (fun c => visits_of h c = v) (map snd l) =
            map snd (filter (fun p => p.1 = v) l)).
  { induction 1 as [|p l Hp _ IH]; [done|].
    cbn [map]. rewrite !filter_cons, IH, <- Hp.
    by destruct (decide (p.1 = v)). }
  rewrite Hkeys.
  2:{ rewrite sorted_desc_perm. subst keyed.
      apply Forall_fmap, Forall_forall. by intros c _. }
  rewrite sorted_desc_filter, <- Hkeys.
  2:{ subst keyed. apply Forall_fmap, Forall_forall. by intros c _. }
  subst keyed. rewrite map_map. cbn. by rewrite map_id.
Qed.

(** X7.  The ranking is stable, also when only a part of it is
    returned: for every [top_n], what [get_top_moves] returns is the
    beginning of a list of all the children that is sorted by
    descending visits and keeps children with the same number of visits
    in the order in which the node lists them.  For [top_n >= 0] the
    part returned has [min top_n (number of children)] elements; for a
    negative [top_n] the part left out has [min (-top_n) (number of
    children)]. *)
Theorem get_top_moves_stable h node (n : Node Move) (top_n : Z) :
  h !! node = Some n ->
  Forall (fun c => is_Some (h !! c)) (children n) ->
  exists top rest,
    get_top_moves h node top_n = Ok top /\
    StronglySorted (by_visits_desc h) (top ++ rest) /\
    (forall v : nat,
       filter (fun c => visits_of h c = v) (top ++ rest) =
       filter (fun c => visits_of h c = v) (children n)) /\
    ((0 <= top_n)%Z ->
       length top = Z.to_nat top_n `min` length (children n)) /\
    ((top_n < 0)%Z ->
       length rest = Z.to_nat (- top_n) `min` length (children n)).
Proof.
  intros Hn Hcs.
  pose proof (Permutation_length (ranking_perm h (children n))) as Hlen.
  rewrite (get_top_moves_ranking h node n) by done. unfold slice_to.
  destruct (Z.leb_spec 0 top_n) as [Hpos|Hneg].
  - exists (take (Z.to_nat top_n) (ranking h (children n))),
      (drop (Z.to_nat top_n) (ranking h (children n))).
    rewrite take_drop. split_and!.
    + done.
    + apply ranking_sorted.
    + intros v. apply ranking_stable.
    + intros _. rewrite length_take. lia.
    + lia.
  - set (k := Z.to_nat (Z.of_nat (length (ranking h (children n))) + top_n)).
    exists (take k (ranking h (children n))),
      (drop k (ranking h (children n))).
    rewrite take_drop. split_and!.
    + done.
    + apply ranking_sorted.
    + intros v. apply ranking_stable.
    + lia.
    + intros _. rewrite length_drop. subst k. lia.
Qed.
End RankingMore.

(** ** What a search uses and what it keeps *)

Section Growth.
Context `{Rules Board Move} (rand : nat -> nat).
Implicit Types (h : list (Node Move)) (n : Node Move).
Implicit Types (w : World Board Move) (bs : list Board).

Lemma growth_refl sd w : growth 0 sd w w.
Proof.
  split; try lia. intros i n Hn. by exists n.
Qed.

Lemma growth_trans a b sd w w1 w2 :
  growth a sd w w1 -> growth b sd w1 w2 -> growth (a + b) sd w w2.
Proof.
  intros H1 H2. split.
  - rewrite (gr_boards _ _ _ _ H2), (gr_boards _ _ _ _ H1). lia.
  - destruct (gr_draws _ _ _ _ H1), (gr_draws _ _ _ _ H2). split; nia.
  - pose proof (gr_nodes _ _ _ _ H1). pose proof (gr_nodes _ _ _ _ H2). lia.
  - intros i n Hn.
    destruct (gr_old _ _ _ _ H1 i n Hn) as (n1 & Hn1 & Hm1 & Hp1 & Hv1).
    destruct (gr_old _ _ _ _ H2 i n1 Hn1) as (n2 & Hn2 & Hm2 & Hp2 & Hv2).
    exists n2. split_and!; [done|congruence|congruence|lia].
Qed.

Lemma round_growth board sd w b0 leaf b1 w1 node1 ms fb delta w' :
  round rand board sd w b0 leaf b1 w1 node1 ms fb delta w' ->
  growth 1 sd w w'.
Proof.
  intros Hround. split.
  - destruct (round_boards rand _ _ _ _ _ _ _ _ _ _ _ _ Hround) as [Hlen _].
    lia.
  - rewrite (rd_draws _ _ _ _ _ _ _ _ _ _ _ _ _ Hround).
    destruct (rd_rollout _ _ _ _ _ _ _ _ _ _ _ _ _ Hround)
      as (b2 & _ & _ & Hlen & _).
    destruct (rd_expansion _ _ _ _ _ _ _ _ _ _ _ _ _ Hround)
      as [(_ & _ & _ & Hd & _)|(_ & _ & _ & Hd & _)]; lia.
  - rewrite (rd_length _ _ _ _ _ _ _ _ _ _ _ _ _ Hround).
    destruct (rd_expansion _ _ _ _ _ _ _ _ _ _ _ _ _ Hround)
      as [(_ & -> & _)|(_ & (nl & _ & ->) & _)]; [done|].
    rewrite length_expanded. lia.
  - intros i n Hn.
    destruct (round_old rand _ _ _ _ _ _ _ _ _ _ _ _ Hround i n Hn)
      as (n' & Hn' & Hp & Hm & Hv & _).
    by exists n'.
Qed.

Lemma iteration_growth board sd w :
  playable -> coherent board w ->
  exists w',
    iteration rand board sd w = Ok w' /\ coherent board w' /\
    growth 1 sd w w'.
Proof.
  intros Hplay Hco. pose proof Hco as (Ht & Hset & Hboard).
  destruct (iteration_round rand board sd w Hplay Ht Hboard)
    as (b0 & leaf & b1 & w1 & node1 & ms & fb & delta & w' & Hround).
  exists w'. split_and!.
  - apply (rd_run _ _ _ _ _ _ _ _ _ _ _ _ _ Hround).
  - by eapply round_coherent.
  - by eapply round_growth.
Qed.

Lemma mcts_loop_growth board sd (k : nat) :
  playable ->
  forall w, coherent board w ->
    exists w',
      mcts_loop rand k board sd w = Ok w' /\ coherent board w' /\
      growth k sd w w'.
Proof.
  intros Hplay. induction k as [|k IH]; intros w Hco.
  - exists w. split_and!; [done|done|apply growth_refl].
  - destruct (iteration_growth board sd w Hplay Hco)
      as (w1 & Hit & Hco1 & Hg1).
    destruct (IH w1 Hco1) as (w' & Hloop & Hco' & Hg).
    exists w'. cbn [mcts_loop]. rewrite Hit. cbn [bind].
    split_and!; [done|done|]. by apply (growth_trans 1 k sd w w1 w').
Qed.

(** X8.  A search of [N] rounds makes exactly [N] board copies, and calls
    [random.choice] at most once per round for the expansion and at most
    [simulation_depth] times per round for the rollout. *)
Theorem mcts_resources bs (d : nat) (board : ref) (N sd : Z) :
  playable -> board < length bs ->
  exists w,
    mcts rand bs d board N sd = Ok w /\
    length (boards w) = length bs + Z.to_nat N /\
    d <= draws w /\
    draws w <= d + Z.to_nat N * (1 + Z.to_nat sd).
Proof.
  intros Hplay Hboard. unfold mcts.
  destruct (mcts_loop_growth board sd (Z.to_nat N) Hplay
              (initial (Move := Move) bs d))
    as (w & Hrun & _ & Hg); [by apply initial_coherent|].
  exists w. split; [done|].
  pose proof (gr_boards _ _ _ _ Hg). destruct (gr_draws _ _ _ _ Hg).
  cbn in *. lia.
Qed.

(** X9.  The store a search returns holds a tree: the root has no
    parent, every other node has a parent that was allocated before it
    and visited at least as often, the children of a node point back to
    it and carry a move, and a node that was never visited has no
    children. *)
Theorem mcts_returns_tree bs (d : nat) (board : ref) (N sd : Z) :
  playable -> board < length bs ->
  exists w,
    mcts rand bs d board N sd = Ok w /\
    tree (nodes w) /\ settled (nodes w).
Proof.
  intros Hplay Hboard.
  destruct (mcts_ok rand bs d board N sd Hplay Hboard)
    as (w & Hrun & (Ht & Hset & _) & _).
  by exists w.
Qed.

(** X10.  The tree only grows: a node that exists after [k] rounds exists
    after any larger number of rounds with the same move and parent and
    with at least as many visits. *)
Theorem mcts_tree_grows bs (d : nat) (board : ref) (sd : Z) (k k' : nat) :
  playable -> board < length bs -> k <= k' ->
  exists w w',
    mcts rand bs d board (Z.of_nat k) sd = Ok w /\
    mcts rand bs d board (Z.of_nat k') sd = Ok w' /\
    length (nodes w) <= length (nodes w') /\
    forall i n, nodes w !! i = Some n ->
      exists n', nodes w' !! i = Some n' /\ move n' = move n /\
        parent n' = parent n /\ visits n <= visits n'.
Proof.
  intros Hplay Hboard Hk.
  destruct (mcts_ok rand bs d board (Z.of_nat k) sd Hplay Hboard)
    as (w & Hrun & Hco & _).
  destruct (mcts_loop_growth board sd (k' - k) Hplay w Hco)
    as (w' & Hrun' & _ & Hg).
  exists w, w'. split_and!; [done| | |].
  - unfold mcts in *. rewrite Nat2Z.id in *.
    replace k' with (k + (k' - k)) by lia.
    by rewrite mcts_loop_add, Hrun.
  - apply (gr_nodes _ _ _ _ Hg).
  - apply (gr_old _ _ _ _ Hg).
Qed.

(** X11.  On a position that is not over and has [L] legal moves, after
    [N >= 1] rounds at most [L - N] children of the root are unvisited:
    the first [L] rounds each visit a new root child. *)
Theorem mcts_unvisited_bound bs (d : nat) (board : ref) (b : Board)
    (N sd : Z) :
  playable -> bs !! board = Some b -> is_game_over b = false ->
  (1 <= N)%Z ->
  exists w r,
    mcts rand bs d board N sd = Ok w /\ nodes w !! root = Some r /\
    length (children r) = length (legal_moves b) /\
    unvisited (nodes w) (children r)
      <= length (legal_moves b) - Z.to_nat N.
Proof.
  intros Hplay Hb Hover HN.
  destruct (first_round rand bs d board sd b Hplay Hb Hover)
    as (w1 & r1 & Hit & Hco1 & Hr1 & Hlen & Hcount1).
  assert (Hne : children r1 <> []).
  { intros Hnil. rewrite Hnil in Hcount1. cbn in Hcount1. lia. }
  destruct (later_rounds rand board sd (Z.to_nat N - 1) Hplay w1 r1 Hco1
              Hr1 Hne)
    as (w & r & Hloop & Hco & Hr & Hch & Hcount).
  exists w, r. split_and!.
  - unfold mcts. replace (Z.to_nat N) with (S (Z.to_nat N - 1)) by lia.
    cbn [mcts_loop]. fold (initial (Move := Move) bs d). by rewrite Hit.
  - done.
  - congruence.
  - rewrite Hch. lia.
Qed.
End Growth.

(** ** The children of the root *)

Section RootMoves.
Context `{Rules Board Move} (rand : nat -> nat).
Implicit Types (h : list (Node Move)) (n : Node Move).
Implicit Types (w : World Board Move) (bs : list Board).

Lemma expanded_child h node n (ms : list Move) i m :
  ms !! i = Some m ->
  expanded h node n ms !! (length h + i) = Some (new_node (Some m) (Some node)).
Proof.
  intros Hm. unfold expanded.
  rewrite lookup_app_r by (rewrite length_insert; lia).
  rewrite length_insert. replace (length h + i - length h) with i by lia.
  by rewrite list_lookup_fmap, Hm.
Qed.

Lemma round_rooted board sd w b0 leaf b1 w1 node1 ms fb delta w' :
  round rand board sd w b0 leaf b1 w1 node1 ms fb delta w' ->
  nodes w = [new_node None None] -> is_game_over b0 = false ->
  rooted b0 (nodes w').
Proof.
  intros Hround Hw Hover.
  assert (Hroot : children <$> nodes w !! root = Some []) by (by rewrite Hw).
  destruct (rd_root_leaf _ _ _ _ _ _ _ _ _ _ _ _ _ Hround Hroot)
    as [Hleaf Hb1].
  destruct (round_first rand _ _ _ _ _ _ _ _ _ _ _ _ Hround Hroot Hover)
    as (r' & c & cn & Hr' & Hch & _).
  exists r'. split_and!; [done|by rewrite Hch, Hw|].
  intros i m Hm.
  destruct (rd_expansion _ _ _ _ _ _ _ _ _ _ _ _ _ Hround)
    as [(Hover1 & _)|(_ & (nl & Hnl & Heq) & _)]; [congruence|].
  rewrite Hleaf in Heq. rewrite Hb1 in Heq.
  pose proof (expanded_child (nodes w) root nl (legal_moves b0) i m Hm) as Hc.
  rewrite <- Heq, Hw in Hc. cbn [length Nat.add] in Hc.
  destruct (after_backprop rand _ _ _ _ _ _ _ _ _ _ _ _ Hround (S i) _ Hc)
    as (c' & Hc' & [[_ ->]|[_ ->]]); by eexists.
Qed.

Lemma rooted_growth (b : Board) k sd w w' :
  legal_moves b <> [] ->
  rooted b (nodes w) -> advance k w w' -> growth k sd w w' ->
  rooted b (nodes w').
Proof.
  intros Hne (r & Hr & Hch & Hmoves) Hadv Hg.
  destruct (adv_old _ _ _ Hadv root r Hr) as (r' & Hr' & _ & Hsame).
  exists r'. split_and!; [done| |].
  - rewrite Hsame; [done|]. rewrite Hch.
    destruct (legal_moves b); [done|discriminate].
  - intros i m Hm. destruct (Hmoves i m Hm) as (cn & Hcn & Hmv & Hp).
    destruct (gr_old _ _ _ _ Hg (S i) cn Hcn) as (cn' & Hcn' & Hmv' & Hp' & _).
    exists cn'. split_and!; [done|congruence|congruence].
Qed.

(** X12.  After at least one round on a position that is not over, the
    root has exactly one child per legal move, in the order of
    [legal_moves]: its [i]-th child carries the [i]-th legal move. *)
Theorem mcts_root_children_moves bs (d : nat) (board : ref) (b : Board)
    (N sd : Z) :
  playable -> bs !! board = Some b -> is_game_over b = false ->
  (1 <= N)%Z ->
  exists w r,
    mcts rand bs d board N sd = Ok w /\ nodes w !! root = Some r /\
    length (children r) = length (legal_moves b) /\
    forall i m, legal_moves b !! i = Some m ->
      exists c cn,
        children r !! i = Some c /\ nodes w !! c = Some cn /\
        move cn = Some m /\ parent cn = Some root.
Proof.
  intros Hplay Hb Hover HN.
  assert (Hboard : board < length bs) by (by eapply lookup_lt_Some).
  pose proof (initial_coherent (Move := Move) bs d board Hboard) as Hco.
  pose proof Hco as (Ht & _ & _).
  destruct (iteration_round rand board sd (initial (Move := Move) bs d)
              Hplay Ht Hboard)
    as (b0 & leaf & b1 & w1 & node1 & ms & fb & delta & w' & Hround).
  assert (b0 = b) as ->.
  { pose proof (rd_input _ _ _ _ _ _ _ _ _ _ _ _ _ Hround) as Hin.
    cbn in Hin. congruence. }
  pose proof (round_rooted _ _ _ _ _ _ _ _ _ _ _ _ Hround eq_refl Hover)
    as Hrooted.
  pose proof (round_coherent rand _ _ _ _ _ _ _ _ _ _ _ _ Hround Hco) as Hco'.
  destruct (mcts_loop_ok rand board sd (Z.to_nat N - 1) Hplay w' Hco')
    as (w & Hloop & _ & Hadv).
  destruct (mcts_loop_growth rand board sd (Z.to_nat N - 1) Hplay w' Hco')
    as (w2 & Hloop2 & _ & Hg).
  assert (w2 = w) as -> by congruence.
  destruct (rooted_growth b _ sd w' w (Hplay b Hover) Hrooted Hadv Hg)
    as (r & Hr & Hch & Hmoves).
  exists w, r. split_and!.
  - unfold mcts. replace (Z.to_nat N) with (S (Z.to_nat N - 1)) by lia.
    cbn [mcts_loop]. fold (initial (Move := Move) bs d).
    rewrite (rd_run _ _ _ _ _ _ _ _ _ _ _ _ _ Hround). done.
  - done.
  - by rewrite Hch, length_seq.
  - intros i m Hm. destruct (Hmoves i m Hm) as (cn & Hcn & Hmv & Hp).
    exists (S i), cn. split_and!; try done.
    rewrite Hch. apply lookup_seq. split; [done|].
    by eapply lookup_lt_Some.
Qed.
End RootMoves.

(** ** The visits of the root and of its children *)

Section RootSum.
Context `{Rules Board Move} (rand : nat -> nat).
Implicit Types (h : list (Node Move)) (n : Node Move) (cs : list ref).
Implicit Types (w : World Board Move) (bs : list Board).

(** On a path to the root, what comes after a node is at or above its
    parent. *)
Lemma path_up_after h fuel : parents_below h ->
  forall r x y,
    x ∈ path_up fuel h (Some r) -> y ∈ path_up fuel h (Some r) -> y < x ->
    exists n p, h !! x = Some n /\ parent n = Some p /\ y <= p.
Proof.
  intros Hdec. induction fuel as [|fuel IH]; intros r x y Hx Hy Hlt.
  - by apply elem_of_nil in Hx.
  - cbn [path_up] in Hx, Hy.
    destruct (h !! r) as [n|] eqn:Hn.
    2:{ apply list_elem_of_singleton in Hx, Hy. lia. }
    destruct (parent n) as [p|] eqn:Hp.
    2:{ assert (Hnil : path_up fuel h None = []) by (by destruct fuel).
        rewrite Hnil in Hx, Hy.
        apply list_elem_of_singleton in Hx, Hy. lia. }
    pose proof (Hdec r n p Hn Hp) as Hpr.
    apply elem_of_cons in Hx as [->|Hx].
    + apply elem_of_cons in Hy as [->|Hy]; [lia|].
      exists n, p. split_and!; [done..|]. by eapply path_up_le.
    + pose proof (path_up_le h fuel Hdec p x Hx).
      apply elem_of_cons in Hy as [->|Hy]; [lia|]. by eapply IH.
Qed.

Lemma path_child_unique h fuel r x y nx ny a :
  parents_below h ->
  x ∈ path_up fuel h (Some r) -> y ∈ path_up fuel h (Some r) ->
  h !! x = Some nx -> h !! y = Some ny ->
  parent nx = Some a -> parent ny = Some a -> x = y.
Proof.
  intros Hdec Hx Hy Hnx Hny Hpx Hpy.
  pose proof (Hdec x nx a Hnx Hpx). pose proof (Hdec y ny a Hny Hpy).
  destruct (Nat.lt_trichotomy x y) as [Hlt|[Heq|Hgt]]; [|done|].
  - destruct (path_up_after h fuel Hdec r y x Hy Hx Hlt)
      as (n & p & Hn & Hp & Hle).
    assert (p = a) by congruence. lia.
  - destruct (path_up_after h fuel Hdec r x y Hx Hy Hgt)
      as (n & p & Hn & Hp & Hle).
    assert (p = a) by congruence. lia.
Qed.

Lemma path_up_below_root h fuel : tree h ->
  forall r, r < length h -> r < fuel -> r <> root ->
    exists y ny,
      y ∈ path_up fuel h (Some r) /\ h !! y = Some ny /\
      parent ny = Some root.
Proof.
  intros Ht. induction fuel as [|fuel IH]; intros r Hlen Hr Hne; [lia|].
  destruct (lookup_lt_is_Some_2 h r Hlen) as [n Hn].
  destruct (tree_nonroot h Ht r n Hn Hne) as [p Hp].
  destruct (tree_parent h Ht r n p Hn Hp) as (Hlt & _).
  destruct (decide (p = root)) as [->|Hpne].
  - exists r, n. split_and!; [apply path_up_self|done..].
  - destruct (IH p) as (y & ny & Hy & Hny & Hpy); [lia..|done|].
    exists y, ny. split_and!; [|done..].
    cbn [path_up]. rewrite Hn, Hp. by apply list_elem_of_further.
Qed.

Lemma round_listed board sd w b0 leaf b1 w1 node1 ms fb delta w' :
  round rand board sd w b0 leaf b1 w1 node1 ms fb delta w' ->
  listed (nodes w) -> listed (nodes w').
Proof.
  intros Hround Hl i n' p Hn' Hp.
  destruct (before_backprop rand _ _ _ _ _ _ _ _ _ _ _ _ Hround i n' Hn')
    as (n1 & Hn1 & Hcase).
  assert (Hp1 : parent n1 = Some p).
  { destruct Hcase as [[_ ->]|[_ ->]]; done. }
  destruct (decide (i < length (nodes w))) as [Hi|Hi].
  - destruct (lookup_lt_is_Some_2 _ _ Hi) as [n Hn].
    destruct (old_after_expansion rand _ _ _ _ _ _ _ _ _ _ _ _ Hround i n Hn)
      as (n1' & Hn1' & Hpp & _).
    assert (n1' = n1) as -> by congruence.
    destruct (Hl i n p Hn) as (pn & Hpn & Hin); [congruence|].
    destruct (round_old rand _ _ _ _ _ _ _ _ _ _ _ _ Hround p pn Hpn)
      as (pn' & Hpn' & _ & _ & _ & Hch).
    exists pn'. split; [done|]. rewrite Hch; [done|].
    intros Hnil. rewrite Hnil in Hin. by apply elem_of_nil in Hin.
  - destruct (new_after_expansion rand _ _ _ _ _ _ _ _ _ _ _ _ Hround i n1
                Hn1) as (_ & _ & _ & Hpl); [lia|].
    assert (p = leaf) as -> by congruence.
    destruct (rd_expansion _ _ _ _ _ _ _ _ _ _ _ _ _ Hround)
      as [(_ & Heq & _)|(_ & (nl & Hnl & Heq) & _)].
    { rewrite Heq in Hn1. apply lookup_lt_Some in Hn1. lia. }
    pose proof (lookup_lt_Some _ _ _ Hn1) as Hilt.
    rewrite Heq, length_expanded in Hilt.
    pose proof (expanded_node (nodes w) leaf nl (legal_moves b1) Hnl) as Hl1.
    rewrite <- Heq in Hl1.
    destruct (after_backprop rand _ _ _ _ _ _ _ _ _ _ _ _ Hround leaf _ Hl1)
      as (l' & Hl' & Hcase').
    exists l'. split; [done|].
    assert (Hch : children l' =
              children nl ++ seq (length (nodes w)) (length (legal_moves b1))).
    { destruct Hcase' as [[_ ->]|[_ ->]]; done. }
    rewrite Hch. apply elem_of_app. right. apply elem_of_seq. lia.
Qed.

Lemma sum_visits_same h h' cs :
  (forall c, c ∈ cs -> visits_of h' c = visits_of h c) ->
  sum_visits h' cs = sum_visits h cs.
Proof.
  induction cs as [|c cs IH]; intros Heq; [done|].
  cbn [sum_visits foldr]. fold (sum_visits h cs) (sum_visits h' cs).
  rewrite Heq by apply list_elem_of_here. rewrite IH; [done|].
  intros x Hx. apply Heq. by apply list_elem_of_further.
Qed.

Lemma sum_visits_zero h cs :
  (forall c, c ∈ cs -> visits_of h c = 0) -> sum_visits h cs = 0.
Proof.
  induction cs as [|c cs IH]; intros Hz; [done|].
  cbn [sum_visits foldr]. fold (sum_visits h cs).
  rewrite Hz by apply list_elem_of_here. rewrite IH; [done|].
  intros x Hx. apply Hz. by apply list_elem_of_further.
Qed.

Lemma sum_visits_one_more h h' cs c0 :
  NoDup cs -> c0 ∈ cs ->
  (forall c, c ∈ cs ->
     visits_of h' c = visits_of h c + if decide (c = c0) then 1 else 0) ->
  sum_visits h' cs = S (sum_visits h cs).
Proof.
  induction cs as [|c cs IH]; intros Hnd Hin Heq;
    [by apply elem_of_nil in Hin|].
  apply NoDup_cons in Hnd as [Hc Hnd].
  cbn [sum_visits foldr]. fold (sum_visits h cs) (sum_visits h' cs).
  rewrite Heq by apply list_elem_of_here.
  destruct (decide (c = c0)) as [->|Hne].
  - rewrite (sum_visits_same h h' cs); [lia|].
    intros x Hx. rewrite Heq by (by apply list_elem_of_further).
    destruct (decide (x = c0)) as [->|]; [done|lia].
  - apply elem_of_cons in Hin as [->|Hin]; [done|].
    rewrite IH; [lia|done|done|].
    intros x Hx. apply Heq. by apply list_elem_of_further.
Qed.

(** A round in which the root ends up with children visits exactly one
    of them. *)
Lemma round_sum board sd w b0 leaf b1 w1 node1 ms fb delta w' r' :
  round rand board sd w b0 leaf b1 w1 node1 ms fb delta w' ->
  tree (nodes w) -> listed (nodes w) ->
  nodes w' !! root = Some r' -> children r' <> [] -> NoDup (children r') ->
  sum_visits (nodes w') (children r')
    = S (sum_visits (nodes w1) (children r')).
Proof.
  intros Hround Ht Hl Hr' Hne Hnd.
  pose proof (rd_tree1 _ _ _ _ _ _ _ _ _ _ _ _ _ Hround) as Ht1.
  pose proof (round_tree rand _ _ _ _ _ _ _ _ _ _ _ _ Hround) as Ht'.
  pose proof (round_listed _ _ _ _ _ _ _ _ _ _ _ _ Hround Hl) as Hl'.
  pose proof (node1_live rand _ _ _ _ _ _ _ _ _ _ _ _ Hround) as Hlive.
  assert (Hn1 : node1 <> root).
  { intros Heq.
    destruct (before_backprop rand _ _ _ _ _ _ _ _ _ _ _ _ Hround root r' Hr')
      as (r1 & Hr1 & Hcase).
    assert (Hch1 : children r1 = children r').
    { destruct Hcase as [[_ ->]|[_ ->]]; done. }
    destruct (rd_expansion _ _ _ _ _ _ _ _ _ _ _ _ _ Hround)
      as [(_ & Hsame & Hnode & _)|(_ & _ & Hrange & _)].
    - destruct (rd_leaf _ _ _ _ _ _ _ _ _ _ _ _ _ Hround) as (nl & Hnl & Hnil).
      rewrite <- Hnode, Heq, <- Hsame, Hr1 in Hnl. congruence.
    - destruct (tree_root _ Ht) as (r & Hr & _).
      apply lookup_lt_Some in Hr. unfold root in *. lia. }
  destruct (path_up_below_root (nodes w1) (length (nodes w1)) Ht1 node1)
    as (y & ny & Hy & Hny & Hpy); [done..|].
  fold (round_path w1 node1) in Hy.
  (* [y] is a child of the root *)
  destruct (after_backprop rand _ _ _ _ _ _ _ _ _ _ _ _ Hround y ny Hny)
    as (ny' & Hny' & Hcasey).
  assert (Hpy' : parent ny' = Some root).
  { destruct Hcasey as [[_ ->]|[_ ->]]; done. }
  destruct (Hl' y ny' root Hny' Hpy') as (r'' & Hr'' & Hyin).
  assert (r'' = r') as -> by congruence.
  apply (sum_visits_one_more _ _ _ y); [done..|].
  intros c Hc.
  destruct (tree_children _ Ht' root r' c Hr' Hc) as (cn' & Hcn' & Hpc' & _).
  destruct (before_backprop rand _ _ _ _ _ _ _ _ _ _ _ _ Hround c cn' Hcn')
    as (cn1 & Hcn1 & Hcase).
  unfold visits_of. rewrite Hcn', Hcn1.
  destruct Hcase as [[Hin ->]|[Hout ->]].
  - assert (c = y) as ->.
    { eapply (path_child_unique (nodes w1)); try done.
      by apply tree_parents_below. }
    rewrite decide_True by done. cbn. lia.
  - rewrite decide_False; [lia|]. intros ->. done.
Qed.

(** X13.  On a position that is not over, every round goes through
    exactly one child of the root: the visits of the root's children add
    up to the visits of the root. *)
Theorem mcts_root_visits_split bs (d : nat) (board : ref) (b : Board)
    (N sd : Z) :
  playable -> bs !! board = Some b -> is_game_over b = false ->
  exists w r,
    mcts rand bs d board N sd = Ok w /\ nodes w !! root = Some r /\
    sum_visits (nodes w) (children r) = visits r /\
    visits r = Z.to_nat N.
Proof.
  intros Hplay Hb Hover.
  assert (Hboard : board < length bs) by (by eapply lookup_lt_Some).
  assert (Hloop : forall k w r,
            coherent board w -> listed (nodes w) ->
            nodes w !! root = Some r -> children r <> [] ->
            NoDup (children r) ->
            sum_visits (nodes w) (children r) = visits r ->
            exists w' r',
              mcts_loop rand k board sd w = Ok w' /\
              nodes w' !! root = Some r' /\
              sum_visits (nodes w') (children r') = visits r' /\
              visits r' = visits r + k).
  { induction k as [|k IH]; intros w r Hco Hl Hr Hne Hnd Hsum.
    { exists w, r. split_and!; (done || lia). }
    pose proof Hco as (Ht & _ & Hbd).
    destruct (iteration_round rand board sd w Hplay Ht Hbd)
      as (b0 & leaf & b1 & w1 & node1 & ms & fb & delta & w' & Hround).
    destruct (round_old rand _ _ _ _ _ _ _ _ _ _ _ _ Hround root r Hr)
      as (r' & Hr' & _ & _ & _ & Hch).
    destruct (round_root rand _ _ _ _ _ _ _ _ _ _ _ _ Hround r Hr)
      as (r'' & Hr'' & Hv).
    assert (r'' = r') as -> by congruence.
    specialize (Hch Hne).
    destruct (IH w' r') as (w2 & r2 & Hrun & Hr2 & Hsum2 & Hv2).
    - by eapply round_coherent.
    - by eapply round_listed.
    - done.
    - congruence.
    - congruence.
    - rewrite (round_sum _ _ _ _ _ _ _ _ _ _ _ _ r' Hround Ht Hl Hr')
        by congruence.
      rewrite Hch, Hv, <- Hsum. f_equal. apply sum_visits_same.
      intros c Hc.
      destruct (tree_children _ Ht root r c Hr Hc) as (cn & Hcn & _).
      destruct (old_after_expansion rand _ _ _ _ _ _ _ _ _ _ _ _ Hround c cn
                  Hcn) as (c1 & Hc1 & _ & _ & Hvc & _).
      unfold visits_of. by rewrite Hcn, Hc1.
    - exists w2, r2. cbn [mcts_loop].
      rewrite (rd_run _ _ _ _ _ _ _ _ _ _ _ _ _ Hround). cbn [bind].
      split_and!; (done || lia). }
  unfold mcts. fold (initial (Move := Move) bs d).
  destruct (Z.to_nat N) as [|k] eqn:HN.
  { eexists _, _. split_and!; [done|done|done|done]. }
  pose proof (initial_coherent (Move := Move) bs d board Hboard) as Hco.
  pose proof Hco as (Ht & _ & _).
  destruct (iteration_round rand board sd (initial (Move := Move) bs d)
              Hplay Ht Hboard)
    as (b0 & leaf & b1 & w1 & node1 & ms & fb & delta & w' & Hround).
  assert (b0 = b) as ->.
  { pose proof (rd_input _ _ _ _ _ _ _ _ _ _ _ _ _ Hround) as Hin.
    cbn in Hin. congruence. }
  assert (Hl0 : listed (nodes (initial (Move := Move) bs d))).
  { intros [|i] n p [= <-]. done. }
  destruct (round_rooted rand _ _ _ _ _ _ _ _ _ _ _ _ Hround eq_refl Hover)
    as (r' & Hr' & Hch & _).
  destruct (round_root rand _ _ _ _ _ _ _ _ _ _ _ _ Hround _ eq_refl)
    as (r'' & Hr'' & Hv).
  assert (r'' = r') as -> by congruence. cbn in Hv.
  assert (Hne : children r' <> []).
  { rewrite Hch. specialize (Hplay b Hover).
    destruct (legal_moves b); [done|discriminate]. }
  assert (Hnd : NoDup (children r')) by (rewrite Hch; apply NoDup_seq).
  destruct (Hloop k w' r') as (w2 & r2 & Hrun & Hr2 & Hsum2 & Hv2).
  - by eapply round_coherent.
  - by eapply round_listed.
  - done.
  - done.
  - done.
  - rewrite (round_sum _ _ _ _ _ _ _ _ _ _ _ _ r' Hround Ht Hl0 Hr') by done.
    rewrite Hv. f_equal.
    apply sum_visits_zero. intros c Hc. rewrite Hch in Hc.
    apply elem_of_seq in Hc. unfold visits_of.
    destruct (nodes w1 !! c) as [c1|] eqn:Hc1; [|done].
    by destruct (new_after_expansion rand _ _ _ _ _ _ _ _ _ _ _ _ Hround c c1
                   Hc1) as (_ & Hvc & _); [cbn; lia|].
  - exists w2, r2. cbn [mcts_loop].
    rewrite (rd_run _ _ _ _ _ _ _ _ _ _ _ _ _ Hround). cbn [bind].
    split_and!; (done || lia).
Qed.
End RootSum.

(** ** The score of a node changes only when the node is visited *)

Section WinsSteady.
Context `{Rules Board Move} (rand : nat -> nat).
Implicit Types (h : list (Node Move)) (n : Node Move).
Implicit Types (w : World Board Move) (bs : list Board).

Lemma kept_refl w : kept w w.
Proof. intros i n Hn. exists n. split_and!; [done|lia|done]. Qed.

Lemma kept_trans w1 w2 w3 : kept w1 w2 -> kept w2 w3 -> kept w1 w3.
Proof.
  intros H12 H23 i n Hn.
  destruct (H12 i n Hn) as (n2 & Hn2 & Hv2 & Hw2).
  destruct (H23 i n2 Hn2) as (n3 & Hn3 & Hv3 & Hw3).
  exists n3. split_and!; [done|lia|].
  intros Hv. rewrite Hw3 by lia. apply Hw2. lia.
Qed.

Lemma round_kept board sd w b0 leaf b1 w1 node1 ms fb delta w' :
  round rand board sd w b0 leaf b1 w1 node1 ms fb delta w' -> kept w w'.
Proof.
  intros Hround i n Hn.
  destruct (round_old rand _ _ _ _ _ _ _ _ _ _ _ _ Hround i n Hn)
    as (n' & Hn' & _ & _ & Hle & _).
  exists n'. split_and!; [done|done|]. intros Hv.
  destruct (round_uniform rand _ _ _ _ _ _ _ _ _ _ _ _ Hround i n' Hn')
    as (n1 & Hn1 & Hcase).
  destruct (old_after_expansion rand _ _ _ _ _ _ _ _ _ _ _ _ Hround i n Hn)
    as (n1' & Hn1' & _ & _ & Hv1 & Hw1 & _).
  assert (n1' = n1) as -> by congruence.
  destruct Hcase as [(_ & _ & Hv')|(_ & Hw' & _)]; [lia|].
  by rewrite Hw', Hw1.
Qed.

Lemma round_untouched board sd w b0 leaf b1 w1 node1 ms fb delta w' :
  round rand board sd w b0 leaf b1 w1 node1 ms fb delta w' ->
  untouched (nodes w) -> untouched (nodes w').
Proof.
  intros Hround Hin i n' Hn' Hv.
  destruct (round_uniform rand _ _ _ _ _ _ _ _ _ _ _ _ Hround i n' Hn')
    as (n1 & Hn1 & Hcase).
  destruct Hcase as [(_ & _ & Hv')|(_ & Hw' & Hv')]; [lia|].
  rewrite Hw'.
  destruct (decide (i < length (nodes w))) as [Hi|Hi].
  - destruct (lookup_lt_is_Some_2 _ _ Hi) as [n Hn].
    destruct (old_after_expansion rand _ _ _ _ _ _ _ _ _ _ _ _ Hround i n
                Hn) as (n1' & Hn1' & _ & _ & Hv1 & Hw1 & _).
    assert (n1' = n1) as -> by congruence.
    rewrite Hw1. eapply Hin; [done|]. lia.
  - by destruct (new_after_expansion rand _ _ _ _ _ _ _ _ _ _ _ _ Hround i n1
                   Hn1) as (_ & _ & Hw & _); [lia|].
Qed.

Lemma mcts_loop_kept board sd (k : nat) :
  playable ->
  forall w, coherent board w -> untouched (nodes w) ->
    exists w',
      mcts_loop rand k board sd w = Ok w' /\ coherent board w' /\
      untouched (nodes w') /\ kept w w'.
Proof.
  intros Hplay. induction k as [|k IH]; intros w Hco Hun.
  - exists w. split_and!; [done|done|done|apply kept_refl].
  - pose proof Hco as (Ht & _ & Hbd).
    destruct (iteration_round rand board sd w Hplay Ht Hbd)
      as (b0 & leaf & b1 & w1 & node1 & ms & fb & delta & w' & Hround).
    destruct (IH w') as (w2 & Hrun & Hco2 & Hun2 & Hkept).
    + by eapply round_coherent.
    + by eapply round_untouched.
    + exists w2. cbn [mcts_loop].
      rewrite (rd_run _ _ _ _ _ _ _ _ _ _ _ _ _ Hround). cbn [bind].
      split_and!; [done|done|done|].
      eapply kept_trans; [|done]. by eapply round_kept.
Qed.

(** X14.  The score of a node changes only in a round that visits the
    node.  In the tree a search returns, a node that was never visited
    has the score 0 it was created with; and from the tree after the
    first [k] rounds to the tree returned every node stays, its visits
    do not go down, and a node whose visits are the same has the same
    score. *)
Theorem mcts_wins_steady bs (d : nat) (board : ref) (N sd : Z) (k : nat) :
  playable -> board < length bs -> k <= Z.to_nat N ->
  exists wk w,
    mcts_loop rand k board sd (initial bs d) = Ok wk /\
    mcts rand bs d board N sd = Ok w /\
    untouched (nodes w) /\ kept wk w.
Proof.
  intros Hplay Hboard Hk.
  destruct (mcts_loop_kept board sd k Hplay (initial (Move := Move) bs d))
    as (wk & Hrk & Hck & Huk & _).
  { by apply initial_coherent. }
  { intros [|i] n [= <-]; done. }
  destruct (mcts_loop_kept board sd (Z.to_nat N - k) Hplay wk Hck Huk)
    as (w & Hr & _ & Hu & Hkept).
  exists wk, w. split_and!; try done.
  unfold mcts. fold (initial (Move := Move) bs d).
  replace (Z.to_nat N) with (k + (Z.to_nat N - k)) by lia.
  rewrite mcts_loop_add, Hrk. done.
Qed.
End WinsSteady.

(** ** The game window *)

Section WindowProperties.
Context `{Rules Board Move} (rand : nat -> nat).
Implicit Types (h : list (Node Move)) (n : Node Move) (cs : list ref).
Implicit Types (w : World Board Move) (bs : list Board).
Implicit Types (p : Process Board Move).

(** What a search of at least one round on a position that is not over
    returns, in one statement. *)
Lemma mcts_summary bs (d : nat) (board : ref) (b : Board) (N sd : Z) :
  playable -> bs !! board = Some b -> is_game_over b = false ->
  (1 <= N)%Z ->
  exists w r,
    mcts rand bs d board N sd = Ok w /\ coherent board w /\
    rooted b (nodes w) /\ nodes w !! root = Some r /\
    unvisited (nodes w) (children r)
      <= length (legal_moves b) - Z.to_nat N /\
    (forall j, j < length bs -> boards w !! j = bs !! j) /\
    d <= draws w.
Proof.
  intros Hplay Hb Hover HN.
  assert (Hboard : board < length bs) by (by eapply lookup_lt_Some).
  pose proof (initial_coherent (Move := Move) bs d board Hboard) as Hco.
  pose proof Hco as (Ht & _ & _).
  destruct (iteration_round rand board sd (initial (Move := Move) bs d)
              Hplay Ht Hboard)
    as (b0 & leaf & b1 & w1 & node1 & ms & fb & delta & w' & Hround).
  assert (b0 = b) as ->.
  { pose proof (rd_input _ _ _ _ _ _ _ _ _ _ _ _ _ Hround) as Hin.
    cbn in Hin. congruence. }
  pose proof (round_rooted rand _ _ _ _ _ _ _ _ _ _ _ _ Hround eq_refl Hover)
    as Hrooted.
  pose proof (round_coherent rand _ _ _ _ _ _ _ _ _ _ _ _ Hround Hco) as Hco'.
  pose proof (round_advance rand _ _ _ _ _ _ _ _ _ _ _ _ Hround Ht) as Hadv1.
  destruct (round_first rand _ _ _ _ _ _ _ _ _ _ _ _ Hround eq_refl Hover)
    as (r' & c & cn & Hr' & Hch & Hc & Hcn & Hv).
  assert (Hcount1 : unvisited (nodes w') (children r') < length (children r')).
  { apply (unvisited_lt_length _ _ c); [done|].
    unfold visits_of. rewrite Hcn. lia. }
  assert (Hlen : length (children r') = length (legal_moves b))
    by (by rewrite Hch, length_seq).
  assert (Hne : children r' <> []).
  { intros Hnil. rewrite Hnil in Hcount1. cbn in Hcount1. lia. }
  destruct (later_rounds rand board sd (Z.to_nat N - 1) Hplay w' r' Hco' Hr'
              Hne)
    as (w & r & Hloop & Hco2 & Hr & Hchr & Hcount).
  destruct (mcts_loop_ok rand board sd (Z.to_nat N - 1) Hplay w' Hco')
    as (wa & Hloopa & _ & Hadv).
  destruct (mcts_loop_growth rand board sd (Z.to_nat N - 1) Hplay w' Hco')
    as (wg & Hloopg & _ & Hg).
  assert (wa = w) as -> by congruence. assert (wg = w) as -> by congruence.
  exists w, r. split_and!.
  - unfold mcts. replace (Z.to_nat N) with (S (Z.to_nat N - 1)) by lia.
    cbn [mcts_loop]. fold (initial (Move := Move) bs d).
    by rewrite (rd_run _ _ _ _ _ _ _ _ _ _ _ _ _ Hround).
  - done.
  - by eapply (rooted_growth b _ sd w' w (Hplay b Hover)).
  - done.
  - rewrite Hchr. lia.
  - intros j Hj. rewrite (adv_boards _ _ _ Hadv).
    + by apply (adv_boards _ _ _ Hadv1).
    + pose proof (adv_boards_length _ _ _ Hadv1). cbn in *. lia.
  - pose proof (round_growth rand _ _ _ _ _ _ _ _ _ _ _ _ Hround) as Hg1.
    destruct (gr_draws _ _ _ _ Hg1) as [Hd1 _].
    destruct (gr_draws _ _ _ _ Hg) as [Hd2 _]. cbn in Hd1. lia.
Qed.

(** In a list sorted by decreasing visits, the unvisited come last. *)
Lemma top_visited h (k : nat) (ranked : list ref) :
  StronglySorted (by_visits_desc h) ranked ->
  unvisited h ranked <= length ranked - k ->
  forall x, x ∈ take k ranked -> visits_of h x <> 0.
Proof.
  intros Hs. revert k.
  induction Hs as [|a l Hs IH Ha]; intros k Hcount x Hx.
  { rewrite take_nil in Hx. by apply elem_of_nil in Hx. }
  destruct k as [|k]; [by apply elem_of_nil in Hx|].
  rewrite unvisited_cons in Hcount. cbn [length] in Hcount.
  assert (Hle : unvisited h l <= length l) by apply length_filter.
  destruct (decide (visits_of h a = 0)) as [Hz|Hnz].
  - assert (Hall : unvisited h l = length l).
    { clear -Ha Hz. rewrite Forall_forall in Ha. unfold by_visits_desc in Ha.
      induction l as [|y l IHl]; [done|].
      rewrite unvisited_cons. cbn [length].
      rewrite decide_True.
      - rewrite IHl; [done|]. intros z Hz'. apply Ha.
        by apply list_elem_of_further.
      - specialize (Ha y (list_elem_of_here _ _)). lia. }
    lia.
  - cbn [take] in Hx. apply elem_of_cons in Hx as [->|Hx]; [done|].
    apply (IH k); [lia|done].
Qed.

Lemma unvisited_perm h cs cs' :
  cs ≡ₚ cs' -> unvisited h cs = unvisited h cs'.
Proof. intros Hp. unfold unvisited. by rewrite Hp. Qed.

Lemma report_ok h (top : list ref) : forall i,
  Forall (fun c => exists n, h !! c = Some n /\ visits n <> 0) top ->
  exists text, report h i top = Ok text /\ length text = 5 * length top.
Proof.
  induction top as [|c top IH]; intros i Hall; [by exists []|].
  apply Forall_cons in Hall as [(n & Hn & Hv) Hall].
  destruct (IH (S i) Hall) as (more & Hmore & Hlen).
  cbn [report]. unfold deref. rewrite Hn. cbn [bind]. unfold truediv.
  destruct (Nat.eqb_spec (visits n) 0); [done|]. cbn [bind].
  rewrite Hmore. cbn [bind]. eexists. split; [done|].
  cbn [length]. lia.
Qed.

Lemma make_buttons_ok h (top : list ref) : forall i,
  Forall (fun c => is_Some (h !! c)) top ->
  exists bt,
    make_buttons h i top = Ok bt /\
    Forall2 (fun x c => exists n, h !! c = Some n /\ button_move x = move n)
      bt top.
Proof.
  induction top as [|c top IH]; intros i Hall; [by exists []|].
  apply Forall_cons in Hall as [[n Hn] Hall].
  destruct (IH (S i) Hall) as (more & Hmore & Hf).
  cbn [make_buttons]. unfold deref. rewrite Hn. cbn [bind].
  rewrite Hmore. cbn [bind]. eexists. split; [done|].
  constructor; [|done]. by exists n.
Qed.

Lemma show_suggestions_spec p (b : Board) :
  playable ->
  positions p !! gui_board (window p) = Some b ->
  exists p',
    show_suggestions rand p = Ok p' /\
    gui_board (window p') = gui_board (window p) /\
    gui_canvas (window p') = gui_canvas (window p) /\
    gui_move_var (window p') = gui_move_var (window p) /\
    positions p' !! gui_board (window p) = Some b /\
    choices p <= choices p' /\
    length (gui_suggestion_frame (window p')) =
      (if is_game_over b then 0 else 3 `min` length (legal_moves b)) /\
    length (gui_text_area (window p')) =
      1 + 5 * length (gui_suggestion_frame (window p')) /\
    forall x, x ∈ gui_suggestion_frame (window p') ->
      exists m, button_move x = Some m /\ m ∈ legal_moves b.
Proof.
  intros Hplay Hb. unfold show_suggestions.
  destruct (is_game_over b) eqn:Hover.
  - unfold mcts.
    destruct (terminal_rounds rand (gui_board (window p))
                default_simulation_depth b (Z.to_nat default_iterations)
                Hover (positions p) (choices p) (new_node None None))
      as (r & Hrun & Hch & _); [done..|].
    rewrite Hrun. cbn [bind nodes boards draws].
    unfold get_top_moves, deref, root. cbn [lookup list_lookup bind].
    rewrite Hch. cbn [with_visits bind]. cbn.
    eexists. split; [done|]. cbn. split_and!; try done.
    + by apply lookup_app_l_Some.
    + intros x Hx. by apply elem_of_nil in Hx.
  - destruct (mcts_summary (positions p) (choices p) (gui_board (window p))
                b default_iterations default_simulation_depth Hplay Hb Hover)
      as (w & r & Hrun & (Ht & _ & _) & (r0 & Hr0 & Hch & Hmoves) & Hr
          & Hcount & Hboards & Hdraws); [done|].
    assert (r0 = r) as -> by congruence.
    rewrite Hrun. cbn [bind].
    assert (Hlive : Forall (fun c => is_Some (nodes w !! c)) (children r)).
    { apply Forall_forall. intros c Hc.
      destruct (tree_children _ Ht root r c Hr Hc) as (cn & Hcn & _).
      by eexists. }
    rewrite (get_top_moves_ranking (nodes w) root r) by done. cbn [bind].
    change (slice_to 3 ?l) with (take 3 l).
    set (ranked := ranking (nodes w) (children r)).
    pose proof (ranking_perm (nodes w) (children r)) as Hperm.
    fold ranked in Hperm.
    assert (Hlen : length ranked = length (legal_moves b)).
    { rewrite (Permutation_length Hperm), Hch. apply length_seq. }
    assert (Htop : forall x, x ∈ take 3 ranked ->
              exists i m cn, x = S i /\ legal_moves b !! i = Some m /\
                nodes w !! x = Some cn /\ move cn = Some m /\
                visits cn <> 0).
    { intros x Hx.
      assert (Hxr : x ∈ ranked)
        by (eapply elem_of_sublist; [done|apply sublist_take]).
      rewrite Hperm, Hch in Hxr. apply elem_of_seq in Hxr.
      destruct x as [|i]; [lia|].
      destruct (lookup_lt_is_Some_2 (legal_moves b) i) as [m Hm]; [lia|].
      destruct (Hmoves i m Hm) as (cn & Hcn & Hmv & _).
      exists i, m, cn. split_and!; try done.
      assert (Hv : visits_of (nodes w) (S i) <> 0).
      { apply (top_visited (nodes w) 3 ranked); [apply ranking_sorted| |done].
        rewrite (unvisited_perm _ _ _ Hperm), Hlen.
        change (Z.to_nat default_iterations) with 1000 in Hcount. lia. }
      unfold visits_of in Hv. by rewrite Hcn in Hv. }
    destruct (report_ok (nodes w) (take 3 ranked) 0) as (text & Htext & Htl).
    { apply Forall_forall. intros x Hx.
      destruct (Htop x Hx) as (i & m & cn & _ & _ & Hcn & _ & Hv).
      by exists cn. }
    destruct (make_buttons_ok (nodes w) (take 3 ranked) 0) as (bt & Hbt & Hf).
    { apply Forall_forall. intros x Hx.
      destruct (Htop x Hx) as (i & m & cn & _ & _ & Hcn & _). by eexists. }
    rewrite Htext. cbn [bind]. rewrite Hbt. cbn [bind].
    eexists. split; [done|]. cbn.
    pose proof (Forall2_length _ _ _ Hf) as Hbl.
    split_and!; try done.
    + rewrite Hboards; [done|]. by eapply lookup_lt_Some.
    + rewrite Hbl, length_take, Hlen. done.
    + rewrite Htl, Hbl. done.
    + intros x Hx. apply list_elem_of_lookup in Hx as [j Hj].
      destruct (Forall2_lookup_l _ _ _ _ _ Hf Hj) as (c & Hc & n & Hn & Hmv).
      destruct (Htop c) as (i & m & cn & _ & Hm & Hcn & Hmc & _).
      { apply list_elem_of_lookup. by exists j. }
      exists m. split; [congruence|].
      apply list_elem_of_lookup. by exists i.
Qed.
(** X15.  [show_suggestions] always succeeds on a position of a
    consistent rules engine: it never divides by a visit count of zero.
    It leaves the position on the board as it was, and offers one
    button per ranked move: none when the game is over, otherwise as
    many as there are legal moves but at most three, each bound to a
    legal move of the position, with five lines of text per button
    below the heading. *)
Theorem show_suggestions_ok p (b : Board) :
  playable ->
  positions p !! gui_board (window p) = Some b ->
  exists p',
    show_suggestions rand p = Ok p' /\
    gui_board (window p') = gui_board (window p) /\
    gui_canvas (window p') = gui_canvas (window p) /\
    gui_move_var (window p') = gui_move_var (window p) /\
    positions p' !! gui_board (window p) = Some b /\
    choices p <= choices p' /\
    length (gui_suggestion_frame (window p')) =
      (if is_game_over b then 0 else 3 `min` length (legal_moves b)) /\
    length (gui_text_area (window p')) =
      1 + 5 * length (gui_suggestion_frame (window p')) /\
    forall x, x ∈ gui_suggestion_frame (window p') ->
      exists m, button_move x = Some m /\ m ∈ legal_moves b.
Proof. apply show_suggestions_spec. Qed.

Ltac window_simpl :=
  unfold set_move_var, set_canvas, set_suggestions;
  cbn [window positions choices gui_board gui_canvas gui_move_var
         gui_text_area gui_suggestion_frame].

Lemma update_board_no_reply p (b : Board) (fuel : nat) :
  positions p !! gui_board (window p) = Some b ->
  turn b = BLACK -> legal_moves b = [] ->
  update_board rand (S fuel) p = Raise IndexError.
Proof.
  intros Hb Hturn Hnone. destruct p as [[board cv mv txt btn] bs d].
  cbn [window positions choices gui_board] in *.
  cbn [update_board]. unfold deref. window_simpl. rewrite Hb.
  cbn [bind]. rewrite Hturn. unfold BLACK.
  unfold make_opponent_move_with, deref. window_simpl. rewrite Hb.
  cbn [bind]. by rewrite Hnone.
Qed.

(** X16.  A move after which it is Black's turn and Black has no legal
    move (checkmate or stalemate) is not announced: [make_move] pushes
    it and then fails with [IndexError] in [make_opponent_move]. *)
Theorem make_move_no_reply p (b : Board) (m : Move) (fuel : nat) :
  positions p !! gui_board (window p) = Some b ->
  turn (push b m) = BLACK -> legal_moves (push b m) = [] ->
  make_move rand (S fuel) (Some m) p = Raise IndexError.
Proof.
  intros Hb Hturn Hnone. destruct p as [[board cv mv txt btn] bs d].
  cbn [window positions choices gui_board] in *.
  unfold make_move, make_move_with, push_at, deref. window_simpl.
  rewrite Hb. cbn [bind].
  apply (update_board_no_reply _ (push b m)); [|done..].
  window_simpl. apply list_lookup_insert_eq. by eapply lookup_lt_Some.
Qed.

(** X17.  A move after which it is Black's turn and Black has a legal
    move is answered: [make_move] pushes it, then a legal move for
    Black picked by [random.choice]; when that gives the turn back to
    White the window ends up showing that position, the caption names
    Black's move, and the suggestions are those for that position. *)
Theorem make_move_reply p (b : Board) (m : Move) (fuel : nat) :
  playable ->
  positions p !! gui_board (window p) = Some b ->
  turn (push b m) = BLACK -> legal_moves (push b m) <> [] ->
  (forall m', m' ∈ legal_moves (push b m) ->
     turn (push (push b m) m') = WHITE) ->
  exists p' m',
    make_move rand (S (S fuel)) (Some m) p = Ok p' /\
    m' ∈ legal_moves (push b m) /\
    gui_board (window p') = gui_board (window p) /\
    positions p' !! gui_board (window p) = Some (push (push b m) m') /\
    gui_canvas (window p') = Some (push (push b m) m') /\
    gui_move_var (window p') = OpponentMove m' /\
    choices p < choices p' /\
    length (gui_suggestion_frame (window p')) =
      (if is_game_over (push (push b m) m') then 0
       else 3 `min` length (legal_moves (push (push b m) m'))) /\
    forall x, x ∈ gui_suggestion_frame (window p') ->
      exists mx, button_move x = Some mx /\
                 mx ∈ legal_moves (push (push b m) m').
Proof.
  intros Hplay Hb Hturn Hsome Hback.
  destruct p as [[board cv mv txt btn] bs d].
  cbn [window positions choices gui_board] in *.
  pose proof (lookup_lt_Some _ _ _ Hb) as Hlt.
  destruct (choice_ok rand d (legal_moves (push b m)) Hsome)
    as (m' & Hm' & Hin).
  set (bs1 := <[board := push b m]> bs).
  set (bs2 := <[board := push (push b m) m']> bs1).
  assert (Hb1 : bs1 !! board = Some (push b m))
    by (by apply list_lookup_insert_eq).
  assert (Hb2 : bs2 !! board = Some (push (push b m) m')).
  { subst bs2. apply list_lookup_insert_eq. subst bs1.
    by rewrite length_insert. }
  destruct (show_suggestions_spec
              (mkProcess
                 (mkChessGUI board (Some (push (push b m) m'))
                    (OpponentMove m') txt btn) bs2 (S d))
              (push (push b m) m') Hplay Hb2)
    as (p' & Hshow & Hgb & Hcv & Hmv & Hpos & Hch & Hlen & _ & Hbt).
  cbn [window positions choices gui_board gui_canvas gui_move_var] in *.
  exists p', m'. split_and!; try done; try lia.
  unfold make_move, make_move_with, push_at, deref. window_simpl.
  rewrite Hb. cbn [bind]. fold bs1.
  cbn [update_board]. unfold deref. window_simpl.
  rewrite Hb1. cbn [bind]. rewrite Hturn. unfold BLACK.
  unfold make_opponent_move_with, deref. window_simpl.
  rewrite Hb1. cbn [bind]. rewrite Hm'. cbn [bind].
  unfold push_at, deref. rewrite Hb1. cbn [bind]. fold bs2.
  unfold deref. window_simpl.
  rewrite Hb2. cbn [bind]. rewrite (Hback m' Hin). unfold WHITE.
  exact Hshow.
Qed.
End WindowProperties.


(** ** Selection replays the path *)

Section Replay.
Context `{Rules Board Move}.
Implicit Types (h : list (Node Move)) (n : Node Move) (bs : list Board).

(** X18.  Selection walks down from the node it starts at, each time to
    the child [best_child] returns, until it is at a node without
    children, and pushes on the temporary board exactly the moves of
    the nodes it passes, in order; no other board changes. *)
Theorem select_replays h (tb : ref) (fuel : nat) :
  tree h ->
  forall bs node (b : Board),
    bs !! tb = Some b -> node < length h -> length h - node <= fuel ->
    exists node' ms n',
      select fuel h bs tb node
        = Ok (node', <[tb := foldl push b ms]> bs) /\
      descent h node ms node' /\
      h !! node' = Some n' /\ children n' = [].
Proof.
  intros Ht. induction fuel as [|fuel IH]; intros bs node b Hb Hnode Hfuel;
    [lia|].
  destruct (lookup_lt_is_Some_2 h node Hnode) as [n Hn].
  cbn [select]. unfold deref at 1. rewrite Hn. cbn [bind].
  destruct (children n) as [|c0 cs] eqn:Hcs.
  { exists node, [], n. cbn [foldl]. rewrite list_insert_id by done.
    split_and!; [done|constructor|done|done]. }
  destruct (best_child_ok h node n) as (c & k & Hbest & Hc & _);
    [done|congruence|by apply tree_family|].
  rewrite Hbest. cbn [bind].
  destruct (tree_children h Ht node n c Hn Hc) as (cn & Hcn & Hp & [m Hm]).
  unfold push_node_move, push_at, deref. rewrite Hcn. cbn [bind].
  rewrite Hm, Hb. cbn [bind].
  pose proof (tree_child_gt h node n c Ht Hn Hc) as Hgt.
  pose proof (lookup_lt_Some _ _ _ Hb) as Htb.
  destruct (IH (<[tb := push b m]> bs) c (push b m))
    as (node' & ms & n' & Hrun & Hdesc & Hn' & Hleaf);
    [by apply list_lookup_insert_eq|lia|lia|].
  exists node', (m :: ms), n'. rewrite Hrun, list_insert_insert_eq.
  split_and!; [done| |done|done].
  eapply descent_down; [done|congruence|done|done|done|done].
Qed.
End Replay.

(** ** Backpropagation touches the path only *)

Section BackpropFrame.
Context `{Rules Board Move}.
Implicit Types (h : list (Node Move)) (n : Node Move) (bs : list Board).

(** X19.  In a tree, the backpropagation loop started at a node ends; it
    adds one visit and one and the same amount to every node on the
    chain of parents from that node up, changes neither move, parent
    nor children of any node, and leaves every node off the chain as it
    was. *)
Theorem backprop_frame h bs (tb : ref) (b : Board) (score : Q)
    (fuel : nat) (node : ref) :
  tree h -> bs !! tb = Some b -> node < length h -> node < fuel ->
  exists h',
    backprop fuel h bs tb score (Some node) = Ok h' /\
    length h' = length h /\
    forall i n, h !! i = Some n ->
      exists n',
        h' !! i = Some n' /\ move n' = move n /\ parent n' = parent n /\
        children n' = children n /\
        (i ∈ path_up fuel h (Some node) ->
           visits n' = visits n + 1 /\
           wins n' = (wins n + signed b score)%Q) /\
        (i ∉ path_up fuel h (Some node) -> n' = n).
Proof.
  intros Ht Hb Hnode Hfuel.
  destruct (backprop_ok bs tb b score fuel Hb h (Some node)
              (tree_parents_below h Ht)) as (h' & Hrun & Hlen & Hget).
  { by intros r [= <-]. }
  exists h'. split_and!; [done|done|].
  intros i n Hn. rewrite Hget, Hn.
  destruct (decide (i ∈ path_up fuel h (Some node))) as [Hin|Hout].
  - exists (bump (signed b score) n). by split_and!.
  - exists n. by split_and!.
Qed.

End BackpropFrame.

(** ** The further properties on concrete inputs *)

Lemma examples_swapped :
  colors_swapped (Toy.rook_vs_pawn 3) (Examples.pawn_vs_rook 3).
Proof.
  intros sq Hsq.
  change (piece_at (Examples.pawn_vs_rook 3) sq)
    with (if 0 =? sq then Some (mkPiece ROOK BLACK)
          else if 55 =? sq then Some (mkPiece PAWN WHITE) else None).
  change (piece_at (Toy.rook_vs_pawn 3) sq)
    with (if 0 =? sq then Some (mkPiece ROOK WHITE)
          else if 55 =? sq then Some (mkPiece PAWN BLACK) else None).
  destruct (0 =? sq); [done|]. by destruct (55 =? sq).
Qed.

Lemma three_children_live :
  Forall (fun c => is_Some (Toy.three_children !! c)) [1; 2; 3].
Proof. repeat constructor; by eexists. Qed.


Lemma selection_errors_witness :
  best_child Toy.two_children 1 = Raise ValueError.
Proof.
  by apply (selection_errors Toy.two_children 1
              (mkNode (Some 0) (Some 0) [] 2 5) 1%R eq_refl).
Defined.

Lemma evaluate_board_swap_witness :
  (evaluate_board (Examples.pawn_vs_rook 3)
   == - evaluate_board (Toy.rook_vs_pawn 3))%Q.
Proof.
  apply (evaluate_board_swap (Toy.rook_vs_pawn 3) (Examples.pawn_vs_rook 3)).
  apply examples_swapped.
Defined.

Lemma get_top_moves_top_witness :
  exists top rest,
    get_top_moves Toy.three_children 0 2 = Ok top /\
    top ++ rest ≡ₚ [1; 2; 3] /\ length top = 2 /\
    forall x y, x ∈ top -> y ∈ rest ->
      visits_of Toy.three_children y <= visits_of Toy.three_children x.
Proof.
  apply (get_top_moves_top Toy.three_children 0
           (mkNode None None [1; 2; 3] 9 33) 2 eq_refl);
    [apply three_children_live|lia].
Defined.


Lemma tied_children_live :
  Forall (fun c => is_Some (Examples.tied_children !! c)) [1; 2; 3; 4].
Proof. repeat constructor; by eexists. Qed.

Lemma get_top_moves_stable_witness :
  get_top_moves Examples.tied_children 0 3 = Ok [2; 4; 1] /\
  exists top rest,
    get_top_moves Examples.tied_children 0 3 = Ok top /\
    StronglySorted (by_visits_desc Examples.tied_children) (top ++ rest) /\
    (forall v : nat,
       filter (fun c => visits_of Examples.tied_children c = v)
         (top ++ rest) =
       filter (fun c => visits_of Examples.tied_children c = v)
         [1; 2; 3; 4]) /\
    ((0 <= 3)%Z -> length top = Z.to_nat 3 `min` length [1; 2; 3; 4]) /\
    ((3 < 0)%Z -> length rest = Z.to_nat (- 3) `min` length [1; 2; 3; 4]).
Proof.
  split; [reflexivity|].
  apply (get_top_moves_stable Examples.tied_children 0
           (mkNode None None [1; 2; 3; 4] 0 24) 3 eq_refl).
  apply tied_children_live.
Defined.

Lemma mcts_resources_witness :
  exists w,
    mcts Toy.rand [Toy.rook_vs_pawn 3] 0 0 5 2 = Ok w /\
    length (boards w) = 1 + 5 /\ 0 <= draws w /\ draws w <= 0 + 5 * (1 + 2).
Proof.
  apply (mcts_resources Toy.rand [Toy.rook_vs_pawn 3] 0 0 5 2 toy_playable).
  cbn. lia.
Defined.

Lemma mcts_returns_tree_witness :
  exists w,
    mcts Toy.rand [Toy.rook_vs_pawn 3] 0 0 5 2 = Ok w /\
    tree (nodes w) /\ settled (nodes w).
Proof.
  apply (mcts_returns_tree Toy.rand [Toy.rook_vs_pawn 3] 0 0 5 2
           toy_playable).
  cbn. lia.
Defined.

Lemma mcts_tree_grows_witness :
  exists w w',
    mcts Toy.rand [Toy.rook_vs_pawn 3] 0 0 (Z.of_nat 2) 2 = Ok w /\
    mcts Toy.rand [Toy.rook_vs_pawn 3] 0 0 (Z.of_nat 5) 2 = Ok w' /\
    length (nodes w) <= length (nodes w') /\
    forall i n, nodes w !! i = Some n ->
      exists n', nodes w' !! i = Some n' /\ move n' = move n /\
        parent n' = parent n /\ visits n <= visits n'.
Proof.
  apply (mcts_tree_grows Toy.rand [Toy.rook_vs_pawn 3] 0 0 2 2 5
           toy_playable); cbn; lia.
Defined.

Lemma mcts_unvisited_bound_witness :
  exists w r,
    mcts Toy.rand [Toy.rook_vs_pawn 3] 0 0 1 2 = Ok w /\
    nodes w !! root = Some r /\
    length (children r) = 2 /\
    unvisited (nodes w) (children r) <= 2 - 1.
Proof.
  apply (mcts_unvisited_bound Toy.rand [Toy.rook_vs_pawn 3] 0 0
           (Toy.rook_vs_pawn 3) 1 2 toy_playable); [done|done|lia].
Defined.

Lemma mcts_root_children_moves_witness :
  exists w r,
    mcts Toy.rand [Toy.rook_vs_pawn 3] 0 0 4 2 = Ok w /\
    nodes w !! root = Some r /\
    length (children r) = 2 /\
    forall i m, [0; 1] !! i = Some m ->
      exists c cn,
        children r !! i = Some c /\ nodes w !! c = Some cn /\
        move cn = Some m /\ parent cn = Some root.
Proof.
  apply (mcts_root_children_moves Toy.rand [Toy.rook_vs_pawn 3] 0 0
           (Toy.rook_vs_pawn 3) 4 2 toy_playable); [done|done|lia].
Defined.

Lemma mcts_root_visits_split_witness :
  exists w r,
    mcts Toy.rand [Toy.rook_vs_pawn 3] 0 0 7 2 = Ok w /\
    nodes w !! root = Some r /\
    sum_visits (nodes w) (children r) = visits r /\ visits r = 7.
Proof.
  apply (mcts_root_visits_split Toy.rand [Toy.rook_vs_pawn 3] 0 0
           (Toy.rook_vs_pawn 3) 7 2 toy_playable); done.
Defined.

Lemma mcts_wins_steady_witness :
  exists wk w,
    mcts_loop Toy.rand 3 0 2 (initial [Toy.rook_vs_pawn 3] 0) = Ok wk /\
    mcts Toy.rand [Toy.rook_vs_pawn 3] 0 0 7 2 = Ok w /\
    untouched (nodes w) /\ kept wk w.
Proof.
  apply (mcts_wins_steady Toy.rand [Toy.rook_vs_pawn 3] 0 0 7 2 3
           toy_playable); cbn; lia.
Defined.

Lemma show_suggestions_ok_witness :
  exists p',
    show_suggestions Toy.rand (Examples.fresh_window 3) = Ok p' /\
    positions p' !! 0 = Some (Toy.rook_vs_pawn 3) /\
    length (gui_suggestion_frame (window p')) = 2 /\
    length (gui_text_area (window p')) = 11.
Proof.
  destruct (show_suggestions_ok Toy.rand (Examples.fresh_window 3)
              (Toy.rook_vs_pawn 3) toy_playable eq_refl)
    as (p' & Hrun & _ & _ & _ & Hpos & _ & Hlen & Htext & _).
  exists p'. split_and!; [done|done|done|].
  rewrite Htext, Hlen. done.
Defined.

Lemma make_move_no_reply_witness :
  make_move Toy.rand 1 (Some 0) (Examples.fresh_window 1)
    = Raise IndexError.
Proof.
  by apply (make_move_no_reply Toy.rand (Examples.fresh_window 1)
              (Toy.rook_vs_pawn 1) 0 0).
Defined.

Lemma make_move_reply_witness :
  exists p' m',
    make_move Toy.rand 2 (Some 0) (Examples.fresh_window 3) = Ok p' /\
    m' ∈ [0; 1] /\
    gui_move_var (window p') = OpponentMove m' /\
    turn <$> positions p' !! 0 = Some WHITE.
Proof.
  destruct (make_move_reply Toy.rand (Examples.fresh_window 3)
              (Toy.rook_vs_pawn 3) 0 0 toy_playable eq_refl)
    as (p' & m' & Hrun & Hin & _ & Hpos & _ & Hcap & _); [done|done|done|].
  exists p', m'. split_and!; [done|done|done|].
  cbn in Hpos. by rewrite Hpos.
Defined.

Lemma two_children_tree : tree Toy.two_children.
Proof.
  split.
  - by eexists.
  - intros [|[|[|i]]] n p Hn Hp; try done; injection Hn as <-;
      cbn in Hp; try done; injection Hp as <-;
      (split; [lia|]); eexists; (split; [reflexivity|cbn; lia]).
  - intros [|[|[|i]]] n Hn Hne; try done; injection Hn as <-; by eexists.
  - intros [|[|[|i]]] n c Hn Hc; try done; injection Hn as <-;
      cbn in Hc; try (by apply elem_of_nil in Hc).
    apply elem_of_cons in Hc as [->|Hc].
    { eexists. split_and!; [reflexivity|done|by eexists]. }
    apply elem_of_cons in Hc as [->|Hc].
    { eexists. split_and!; [reflexivity|done|by eexists]. }
    by apply elem_of_nil in Hc.
Qed.

Lemma select_replays_witness :
  exists ms n',
    select 3 Toy.two_children [Toy.rook_vs_pawn 3] 0 0
      = Ok (2, <[0 := foldl push (Toy.rook_vs_pawn 3) ms]>
                     [Toy.rook_vs_pawn 3]) /\
    descent Toy.two_children 0 ms 2 /\
    Toy.two_children !! 2 = Some n' /\
    children n' = [] /\ ms = [1].
Proof.
  destruct (select_replays Toy.two_children 0 3 two_children_tree
              [Toy.rook_vs_pawn 3] 0 (Toy.rook_vs_pawn 3))
    as (node' & ms & n' & Hrun & Hdesc & Hn' & Hleaf);
    [done|cbn; lia|cbn; lia|].
  assert (node' = 2 /\ ms = [1]) as [-> ->].
  { inversion Hdesc as [|node n c cn m ms' node'' Hn Hne Hbest Hcn Hm Hrest];
      subst.
    - cbn in Hn'. injection Hn' as <-. done.
    - destruct (best_child_unvisited Toy.two_children 0
                  (mkNode None None [1; 2] 2 5) 2
                  (mkNode (Some 1) (Some 0) [] 0 0) eq_refl
                  two_children_family)
        as (c' & cn' & Hb' & Hc' & Hcn' & Hv); [|done|done|].
      { cbn. apply list_elem_of_further, list_elem_of_here. }
      assert (c' = c) as -> by congruence.
      cbn in Hc'. apply elem_of_cons in Hc' as [->|Hc'].
      { cbn in Hcn'. injection Hcn' as <-. done. }
      apply elem_of_cons in Hc' as [->|Hc']; [|by apply elem_of_nil in Hc'].
      cbn in Hcn. injection Hcn as <-. cbn in Hm. injection Hm as <-.
      inversion Hrest as [|node n2 c2 cn2 m2 ms2 node2 Hn2 Hne2]; subst.
      + done.
      + cbn in Hn2. injection Hn2 as <-. done. }
  exists [1], n'. by split_and!.
Defined.

Lemma backprop_frame_witness :
  exists h' r c,
    backprop 3 Toy.two_children [Toy.rook_vs_pawn 3] 0 4 (Some 2)
      = Ok h' /\
    length h' = 3 /\
    h' !! 0 = Some r /\ visits r = 5 + 1 /\
    wins r = (2 + signed (Toy.rook_vs_pawn 3) 4)%Q /\
    h' !! 1 = Toy.two_children !! 1 /\
    h' !! 2 = Some c /\ visits c = 0 + 1 /\
    wins c = (0 + signed (Toy.rook_vs_pawn 3) 4)%Q.
Proof.
  destruct (backprop_frame Toy.two_children [Toy.rook_vs_pawn 3] 0
              (Toy.rook_vs_pawn 3) 4 3 2 two_children_tree)
    as (h' & Hrun & Hlen & Hall); [done|cbn; lia|lia|].
  destruct (Hall 0 _ eq_refl) as (r & Hr & _ & _ & _ & Hon0 & _).
  destruct (Hall 1 _ eq_refl) as (n1 & Hn1 & _ & _ & _ & _ & Hoff).
  destruct (Hall 2 _ eq_refl) as (c & Hc & _ & _ & _ & Hon2 & _).
  destruct Hon0 as [Hv0 Hw0]; [cbn; by repeat constructor|].
  destruct Hon2 as [Hv2 Hw2]; [cbn; by repeat constructor|].
  rewrite Hoff in Hn1.
  2:{ cbn. intros Hin.
      repeat (apply elem_of_cons in Hin as [Hin|Hin]; [lia|]).
      by apply elem_of_nil in Hin. }
  exists h', r, c. by split_and!.
Defined.

(** * Shortest paths: the graph class and [dijkstra] *)

(** ** Dicts *)
Section DictFacts.
Import Dijsktra Paths.
Context {V : Type}.
Implicit Types (d : dict V) (k : string) (v : V).

Lemma get_setitem d k v k' :
  get (setitem d k v) k' = if (k' =? k)%string then Some v else get d k'.
Proof.
  induction d as [|[k0 v0] d IH]; cbn; [done|].
  destruct (String.eqb_spec k k0) as [->|Hk]; cbn.
  - by destruct (k' =? k0)%string.
  - rewrite IH. destruct (String.eqb_spec k' k0) as [->|Hk']; [|done].
    by destruct (String.eqb_spec k0 k).
Qed.

Lemma get_setitem_eq d k v : get (setitem d k v) k = Some v.
Proof. by rewrite get_setitem, String.eqb_refl. Qed.

Lemma get_setitem_ne d k v k' :
  k' <> k -> get (setitem d k v) k' = get d k'.
Proof.
  intros Hne. rewrite get_setitem. by destruct (String.eqb_spec k' k).
Qed.

Lemma get_elem_of d k v : get d k = Some v -> (k, v) ∈ d.
Proof.
  induction d as [|[k0 v0] d IH]; cbn; [done|].
  destruct (String.eqb_spec k k0) as [->|Hk].
  - intros [= ->]. apply list_elem_of_here.
  - intros Hget. apply list_elem_of_further. by apply IH.
Qed.

Lemma get_is_Some d k : is_Some (get d k) <-> k ∈ d.*1.
Proof.
  induction d as [|[k0 v0] d IH]; cbn.
  - split; [by intros [? ?]|by intros ?%elem_of_nil].
  - destruct (String.eqb_spec k k0) as [->|Hk].
    + split; [intros _; apply list_elem_of_here|by eexists].
    + rewrite IH, elem_of_cons. split; [by right|by intros [?|?]].
Qed.

Lemma elem_of_get d k v : NoDup d.*1 -> (k, v) ∈ d -> get d k = Some v.
Proof.
  induction d as [|[k0 v0] d IH]; cbn; [by intros _ ?%elem_of_nil|].
  intros [Hk0 Hnd]%NoDup_cons [[= -> ->]|Hin]%elem_of_cons.
  - by rewrite String.eqb_refl.
  - destruct (String.eqb_spec k k0) as [->|Hk]; [|by apply IH].
    destruct Hk0. apply list_elem_of_fmap. by exists (k0, v).
Qed.

Lemma setitem_keys d k v :
  (setitem d k v).*1 = if contains d k then d.*1 else d.*1 ++ [k].
Proof.
  unfold contains. induction d as [|[k0 v0] d IH]; cbn; [done|].
  destruct (String.eqb_spec k k0) as [->|Hk]; cbn; [done|].
  rewrite IH. by destruct (get d k).
Qed.

Lemma setitem_NoDup d k v : NoDup d.*1 -> NoDup (setitem d k v).*1.
Proof.
  intros Hnd. rewrite setitem_keys. unfold contains.
  destruct (get d k) eqn:Hget; [done|].
  apply NoDup_app. split_and!; [done| |apply NoDup_singleton].
  intros x Hx ->%list_elem_of_singleton.
  apply get_is_Some in Hx. rewrite Hget in Hx. by destruct Hx.
Qed.

Lemma get_constant {W} (x : W) d k :
  get (constant x d) k = match get d k with Some _ => Some x | None => None end.
Proof.
  induction d as [|[k0 v0] d IH]; cbn; [done|].
  by destruct (k =? k0)%string.
Qed.

End DictFacts.

(** ** The heap *)
Section HeapFacts.
Import Dijsktra Paths.

Lemma heappop_None pq : heappop pq = None -> pq = [].
Proof.
  destruct pq as [|x pq]; [done|]. cbn.
  destruct (heappop pq) as [[y rest]|]; [|done].
  by destruct (entry_ltb y x).
Qed.

Lemma heappop_perm pq : forall x rest,
  heappop pq = Some (x, rest) -> pq ≡ₚ x :: rest.
Proof.
  induction pq as [|x0 pq IH]; intros x rest; cbn; [done|].
  destruct (heappop pq) as [[y rest']|] eqn:Hpop.
  - destruct (entry_ltb y x0); intros [= <- <-]; [|done].
    rewrite (IH y rest' eq_refl). apply perm_swap.
  - intros [= <- <-]. by rewrite (heappop_None pq Hpop).
Qed.

Lemma heappop_least pq : forall x rest,
  heappop pq = Some (x, rest) -> forall y, y ∈ rest -> (x.1 <= y.1)%Z.
Proof.
  induction pq as [|x0 pq IH]; intros x rest; cbn; [done|].
  destruct (heappop pq) as [[y rest']|] eqn:Hpop.
  - pose proof (IH y rest' eq_refl) as Hmin.
    destruct (entry_ltb y x0) eqn:Hlt; intros [= <- <-] z Hz.
    + apply elem_of_cons in Hz as [->|Hz]; [|by apply Hmin].
      unfold entry_ltb in Hlt.
      apply orb_true_iff in Hlt as [Hlt|[Heq _]%andb_true_iff]; lia.
    + assert (x0.1 <= y.1)%Z as Hle.
      { unfold entry_ltb in Hlt.
        apply orb_false_iff in Hlt as [Hlt _]. lia. }
      rewrite (heappop_perm pq y rest' Hpop) in Hz.
      apply elem_of_cons in Hz as [->|Hz]; [done|].
      specialize (Hmin z Hz). lia.
  - intros [= <- <-] z Hz. by apply elem_of_nil in Hz.
Qed.

End HeapFacts.

(** ** The class [Graph] *)
Section GraphFacts.
Import Dijsktra Paths.

Lemma get_add_node g name k :
  get (nodes (add_node g name)) k =
    match get (nodes g) k with
    | Some items => Some items
    | None => if (k =? name)%string then Some [] else None
    end.
Proof.
  unfold add_node, contains.
  destruct (get (nodes g) name) eqn:Hname; cbn.
  - destruct (get (nodes g) k) eqn:Hk; [done|].
    destruct (String.eqb_spec k name) as [->|]; [congruence|done].
  - rewrite get_setitem.
    destruct (String.eqb_spec k name) as [->|]; [by rewrite Hname|].
    by destruct (get (nodes g) k).
Qed.

Lemma has_add_node g name k :
  has_node (add_node g name) k <-> has_node g k \/ k = name.
Proof.
  unfold has_node. rewrite get_add_node.
  destruct (get (nodes g) k) eqn:Hk.
  - split; [by left|by eexists].
  - destruct (String.eqb_spec k name) as [->|Hne].
    + split; [by right|by eexists].
    + split; [by intros [? ?]|]. intros [[? ?]|?]; done.
Qed.

Lemma cost_add_node g name u v :
  cost_of (add_node g name) u v = cost_of g u v.
Proof.
  unfold cost_of. rewrite get_add_node.
  destruct (get (nodes g) u); [done|]. by destruct (u =? name)%string.
Qed.

Lemma proper_add_node g name : proper g -> proper (add_node g name).
Proof.
  intros [Hkeys Hitems]. split.
  - unfold add_node. destruct (contains (nodes g) name); cbn; [done|].
    by apply setitem_NoDup.
  - intros u items. rewrite get_add_node.
    destruct (get (nodes g) u) eqn:Hu; [intros [= <-]; by eapply Hitems|].
    destruct (u =? name)%string; [|done]. intros [= <-]. constructor.
Qed.

Lemma add_edge_get g a b c :
  exists g',
    add_edge g a b c = Done g' /\
    forall u,
      get (nodes g') u =
        if (u =? b)%string then
          Some (setitem (if (b =? a)%string
                         then setitem (items_of g a) b c
                         else items_of g b) a c)
        else if (u =? a)%string then Some (setitem (items_of g a) b c)
        else get (nodes g) u.
Proof.
  unfold add_edge, getitem.
  set (g2 := add_node (add_node g a) b).
  assert (forall u, get (nodes g2) u =
            if ((u =? a) || (u =? b))%string then Some (items_of g u)
            else get (nodes g) u) as Hg2.
  { intros u. unfold g2, items_of. rewrite !get_add_node.
    destruct (get (nodes g) u); cbn.
    - by destruct ((u =? a) || (u =? b))%string.
    - destruct (u =? a)%string; [done|]. by destruct (u =? b)%string. }
  rewrite (Hg2 a), String.eqb_refl. cbn.
  rewrite get_setitem, (Hg2 b), String.eqb_refl, orb_true_r.
  destruct (String.eqb_spec b a) as [->|Hba]; cbn.
  - eexists. split; [done|]. intros u. cbn. rewrite !get_setitem, Hg2.
    destruct (String.eqb_spec u a) as [->|Hu]; done.
  - eexists. split; [done|]. intros u. cbn. rewrite !get_setitem, Hg2.
    destruct (String.eqb_spec u b) as [->|Hub]; [done|].
    destruct (String.eqb_spec u a) as [->|Hua]; done.
Qed.

Lemma add_edge_cost g a b c :
  exists g',
    add_edge g a b c = Done g' /\
    (forall u, has_node g' u <-> has_node g u \/ u = a \/ u = b) /\
    forall u v,
      cost_of g' u v =
        if ((u =? a) && (v =? b) || (u =? b) && (v =? a))%string
        then Some c else cost_of g u v.
Proof.
  destruct (add_edge_get g a b c) as (g' & Hrun & Hget).
  exists g'. split; [done|]. split.
  - intros u. unfold has_node. rewrite Hget.
    destruct (String.eqb_spec u b) as [->|Hub].
    { split; [by right; right|by eexists]. }
    destruct (String.eqb_spec u a) as [->|Hua].
    { split; [by right; left|by eexists]. }
    split; [by left|]. by intros [?|[?|?]].
  - intros u v. unfold cost_of. rewrite Hget.
    assert (forall x, get (items_of g x) v = cost_of g x v) as Hitems.
    { intros x. unfold items_of, cost_of. by destruct (get (nodes g) x). }
    destruct (String.eqb_spec u b) as [->|Hub].
    + rewrite get_setitem. destruct (String.eqb_spec b a) as [->|Hba].
      * cbn [andb]. rewrite orb_diag.
        destruct (String.eqb_spec v a) as [->|Hva]; [done|].
        rewrite get_setitem_ne by done. apply Hitems.
      * cbn. destruct (String.eqb_spec v a) as [->|Hva]; [done|].
        apply Hitems.
    + rewrite orb_false_r.
      destruct (String.eqb_spec u a) as [->|Hua]; cbn.
      * rewrite get_setitem.
        destruct (String.eqb_spec v b) as [->|Hvb]; [done|]. apply Hitems.
      * unfold cost_of. done.
Qed.

Lemma proper_add_edge g a b c g' :
  proper g -> add_edge g a b c = Done g' -> proper g'.
Proof.
  intros Hg. unfold add_edge, getitem.
  pose proof (proper_add_node _ b (proper_add_node g a Hg)) as H2.
  set (g2 := add_node (add_node g a) b) in *.
  assert (forall g0 u items v w,
            proper g0 -> get (nodes g0) u = Some items ->
            proper (mkGraph (setitem (nodes g0) u (setitem items v w))))
    as Hstep.
  { intros g0 u items v w [Hkeys Hitems] Hu. split; cbn.
    - by apply setitem_NoDup.
    - intros x its. rewrite get_setitem.
      destruct (x =? u)%string; [|by apply Hitems].
      intros [= <-]. apply setitem_NoDup. by eapply Hitems. }
  destruct (get (nodes g2) a) as [adj1|] eqn:Ha; [|done]. cbn.
  pose proof (Hstep g2 a adj1 b c H2 Ha) as H3.
  destruct (get (setitem (nodes g2) a (setitem adj1 b c)) b)
    as [adj2|] eqn:Hb; [|done].
  intros [= <-]. by apply (Hstep _ b adj2 a c H3).
Qed.

Lemma edge_cost g u v c : proper g -> edge g u v c <-> cost_of g u v = Some c.
Proof.
  intros [_ Hitems]. unfold edge, cost_of. split.
  - intros (items & Hu & Hin). rewrite Hu.
    apply elem_of_get; [by eapply Hitems|done].
  - destruct (get (nodes g) u) as [items|]; [|done].
    intros Hget. exists items. split; [done|by apply get_elem_of].
Qed.

(** The graphs the class makes are undirected, list each neighbour as a
    node, and hold the costs they were given. *)
Lemma built_sound g :
  built g ->
  proper g /\
  forall u v c, cost_of g u v = Some c ->
    has_node g v /\ (0 <= c)%Z /\ cost_of g v u = Some c.
Proof.
  induction 1 as [|g name _ [Hp IH]|g a b c g' _ [Hp IH] Hc Hrun].
  - split; [|done]. split; [constructor|done].
  - split; [by apply proper_add_node|].
    intros u v c. rewrite !cost_add_node, has_add_node.
    intros Huv. destruct (IH u v c Huv) as (? & ? & ?). by split_and!; [left|..].
  - split; [by eapply proper_add_edge|].
    destruct (add_edge_cost g a b c) as (g'' & Hrun' & Hnodes & Hcost).
    assert (g'' = g') as -> by congruence.
    intros u v c'. rewrite !Hcost, Hnodes.
    destruct (String.eqb_spec u a) as [Hua|Hua],
      (String.eqb_spec v b) as [Hvb|Hvb],
      (String.eqb_spec u b) as [Hub|Hub],
      (String.eqb_spec v a) as [Hva|Hva]; cbn; subst;
      try (intros [= <-]; split_and!;
           first [done|by left|by right; left|by right; right]);
      intros Huv; destruct (IH _ _ _ Huv) as (? & ? & ?);
      split_and!; first [done|by left].
Qed.

Lemma built_closed g :
  built g -> closed g /\ nonnegative g /\ undirected g.
Proof.
  intros [Hp Hcost]%built_sound. split_and!.
  - intros u v c He%(edge_cost _ _ _ _ Hp). by destruct (Hcost u v c He).
  - intros u v c He%(edge_cost _ _ _ _ Hp).
    by destruct (Hcost u v c He) as (_ & ? & _).
  - intros u v c He%(edge_cost _ _ _ _ Hp). apply (edge_cost _ _ _ _ Hp).
    by destruct (Hcost u v c He) as (_ & _ & ?).
Qed.

Lemma add_edges_built es : forall g g',
  built g -> Forall (fun e => 0 <= e.2)%Z es ->
  add_edges es g = Done g' -> built g'.
Proof.
  induction es as [|[[a b] c] es IH]; intros g g' Hg Hes; cbn.
  - by intros [= <-].
  - apply Forall_cons in Hes as [Hc Hes].
    destruct (add_edge g a b c) as [g1| |] eqn:Hrun; cbn; [|done|done].
    intros Hrest. eapply IH; [|done|exact Hrest].
    by eapply (built_edge g a b c).
Qed.

Lemma game_map_built : built game_map.
Proof.
  apply (add_edges_built game_map_edges new_graph game_map built_new);
    [|reflexivity].
  repeat constructor; done.
Qed.

End GraphFacts.

Section GraphClass.
Import Dijsktra Paths.

(** X20.  [add_edge] never raises.  Afterwards both ends are nodes, the
    cost is stored in both directions, and every other cost and node is
    as before. *)
Theorem add_edge_spec g a b c :
  exists g',
    add_edge g a b c = Done g' /\
    cost_of g' a b = Some c /\ cost_of g' b a = Some c /\
    (forall u, has_node g' u <-> has_node g u \/ u = a \/ u = b) /\
    forall u v, ~ (u = a /\ v = b) -> ~ (u = b /\ v = a) ->
      cost_of g' u v = cost_of g u v.
Proof.
  destruct (add_edge_cost g a b c) as (g' & Hrun & Hnodes & Hcost).
  exists g'. split_and!; [done| | |done|].
  - by rewrite Hcost, !String.eqb_refl.
  - by rewrite Hcost, !String.eqb_refl, orb_true_r.
  - intros u v Hab Hba. rewrite Hcost.
    destruct (String.eqb_spec u a) as [Hua|Hua],
      (String.eqb_spec v b) as [Hvb|Hvb],
      (String.eqb_spec u b) as [Hub|Hub],
      (String.eqb_spec v a) as [Hva|Hva]; cbn; tauto.
Qed.

(** X21.  A graph made by the class with costs of at least 0 is
    undirected: [self.nodes[u][v]] and [self.nodes[v][u]] are both
    absent or hold the same cost.  Every neighbour is a node, and no
    dict lists a key twice. *)
Theorem built_undirected g :
  built g ->
  proper g /\ closed g /\ nonnegative g /\
  forall u v, cost_of g u v = cost_of g v u.
Proof.
  intros Hb. destruct (built_sound g Hb) as [Hp Hcost].
  destruct (built_closed g Hb) as (Hclosed & Hnonneg & _).
  split_and!; try done. intros u v.
  destruct (cost_of g u v) as [c|] eqn:Huv.
  - by destruct (Hcost u v c Huv) as (_ & _ & ->).
  - destruct (cost_of g v u) as [c|] eqn:Hvu; [|done].
    destruct (Hcost v u c Hvu) as (_ & _ & Huv'). congruence.
Qed.

End GraphClass.

(** ** The search *)
Section SearchFacts.
Import Dijsktra Paths.
Variables (g : Graph) (start goal : string).
Hypothesis Hclosed : closed g.
Hypothesis Hnonneg : nonnegative g.

Lemma load_cons_le (u : string) done ns : load (u :: done) ns <= load done ns.
Proof.
  unfold load. induction ns as [|[k items] ns IH]; cbn; [done|].
  destruct (decide (k ∈ u :: done)) as [Hin|Hout].
  - lia.
  - rewrite decide_False; [lia|]. intros Hk. apply Hout. by right.
Qed.

Lemma load_drop (u : string) done ns items :
  u ∉ done -> get ns u = Some items ->
  load (u :: done) ns + length items <= load done ns.
Proof.
  intros Hu. unfold load.
  induction ns as [|[k its] ns IH]; cbn; [done|].
  destruct (String.eqb_spec u k) as [<-|Hne].
  - intros [= ->]. rewrite decide_True by left.
    rewrite (decide_False (P := u ∈ done)) by done.
    pose proof (load_cons_le u done ns) as Hle. unfold load in Hle. lia.
  - intros Hget. specialize (IH Hget).
    destruct (decide (k ∈ done)) as [Hin|Hout].
    + rewrite decide_True by (by right). lia.
    + rewrite decide_False; [lia|].
      intros [->|?]%elem_of_cons; done.
Qed.

Lemma route_nonneg path x y c : route g path x y c -> (0 <= c)%Z.
Proof.
  induction 1 as [|u v c path w total He _ IH]; [done|].
  specialize (Hnonneg u v c He). lia.
Qed.

Lemma route_snoc path a b c1 x c2 :
  route g path a b c1 -> edge g b x c2 ->
  route g (path ++ [x]) a x (c1 + c2).
Proof.
  intros Hr He. induction Hr as [u|u v c path w total Huv _ IH].
  - cbn. replace (0 + c2)%Z with (c2 + 0)%Z by lia.
    apply route_step; [done|constructor].
  - cbn. replace (c + total + c2)%Z with (c + (total + c2))%Z by lia.
    apply route_step; [done|]. by apply IH.
Qed.

(** *** The loop over the items of a node *)

Lemma relax_skip done lo u v c todo m s dv :
  invariant g start goal done lo u ((v, c) :: todo) m s ->
  get (distances s) u = Some (Fin lo) ->
  get (distances s) v = Some (Fin dv) -> (dv <= lo + c)%Z ->
  invariant g start goal done lo u todo m s.
Proof.
  intros [Hkd Hkp Hst Hlo Hpq Hnd Hpend Hdone Hgoal Hprev Hunr Hsize Hbud]
    Hu Hv Hle.
  split; try done.
  - intros w Hw. destruct (Hdone w Hw) as (dw & Hdw & Hlow & Hnot & Hnb).
    exists dw. split_and!; try done.
    intros v' c' He. destruct (Hnb v' c' He) as [[-> Hin]|Hr]; [|by right].
    apply elem_of_cons in Hin as [[= -> ->]|Hin]; [|by left].
    right. exists dv. split; [done|].
    rewrite Hu in Hdw. injection Hdw as <-. lia.
  - cbn in Hsize. lia.
Qed.

Lemma relax_update done lo u v c todo m s old :
  invariant g start goal done lo u ((v, c) :: todo) m s ->
  u ∈ done -> get (distances s) u = Some (Fin lo) -> edge g u v c ->
  get (distances s) v = Some old -> below (lo + c) old = true ->
  invariant g start goal done lo u todo m
    (mkSearch (heappush (pq s) ((lo + c)%Z, v))
              (setitem (distances s) v (Fin (lo + c)))
              (setitem (previous_nodes s) v (Some u))).
Proof.
  intros [Hkd Hkp Hst Hlo Hpq Hnd Hpend Hdone Hgoal Hprev Hunr Hsize Hbud]
    Hu Hdu He Hold Hbelow.
  pose proof (Hnonneg u v c He) as Hc.
  pose proof (Hclosed u v c He) as Hvnode.
  assert (forall dv, get (distances s) v = Some (Fin dv) ->
            (lo + c < dv)%Z) as Hless.
  { intros dv Hdv. rewrite Hold in Hdv. injection Hdv as ->.
    cbn in Hbelow. lia. }
  assert (v ∉ done) as Hvdone.
  { intros Hin. destruct (Hdone v Hin) as (dw & Hdw & Hlow & _).
    specialize (Hless dw Hdw). lia. }
  assert (v <> start) as Hvstart.
  { intros ->. destruct Hst as [Hst _]. specialize (Hless 0%Z Hst). lia. }
  assert (v <> u) as Hvu by (by intros ->).
  split; cbn.
  - intros x Hx. rewrite get_setitem.
    destruct (x =? v)%string; [by eexists|by apply Hkd].
  - intros x. rewrite get_setitem.
    destruct (String.eqb_spec x v) as [->|Hne]; [|by apply Hkp].
    split; [by eexists|done].
  - destruct Hst as [Hs1 Hs2]. by rewrite !get_setitem_ne.
  - done.
  - intros d w [[= -> ->]|Hin]%elem_of_cons.
    + split_and!; [lia|done|]. exists (lo + c)%Z.
      by rewrite get_setitem_eq.
    + destruct (Hpq d w Hin) as (Hd & Hw & d' & Hd' & Hle).
      split_and!; [done|done|]. rewrite get_setitem.
      destruct (String.eqb_spec w v) as [->|Hne]; [|by exists d'].
      exists (lo + c)%Z. split; [done|].
      specialize (Hless d' Hd'). lia.
  - apply NoDup_cons. split; [|done]. intros Hin.
    destruct (Hpq _ _ Hin) as (_ & _ & d' & Hd' & Hle).
    specialize (Hless d' Hd'). lia.
  - intros w dw. rewrite get_setitem.
    destruct (String.eqb_spec w v) as [->|Hne].
    + intros [= <-]. left. apply list_elem_of_here.
    + intros Hw. destruct (Hpend w dw Hw) as [?|?]; [left|by right].
      by apply list_elem_of_further.
  - intros w Hw. destruct (Hdone w Hw) as (dw & Hdw & Hlow & Hnot & Hnb).
    assert (w <> v) as Hwv by (by intros ->).
    exists dw. rewrite get_setitem_ne by done. split_and!; try done.
    { intros [[= _ ?]|?]%elem_of_cons; done. }
    intros x c' Hx. rewrite get_setitem.
    destruct (Hnb x c' Hx) as [[-> Hin]|(dx & Hdx & Hle)].
    + apply elem_of_cons in Hin as [[= -> ->]|Hin].
      * right. rewrite String.eqb_refl. exists (lo + c)%Z. split; [done|].
        rewrite Hdu in Hdw. injection Hdw as <-. lia.
      * by left.
    + right. destruct (String.eqb_spec x v) as [->|Hne]; [|by exists dx].
      exists (lo + c)%Z. split; [done|].
      specialize (Hless dx Hdx). lia.
  - done.
  - intros x dx Hx. destruct (String.eqb_spec x v) as [->|Hne].
    + rewrite get_setitem_eq. intros [= <-]. exists u, lo, c.
      rewrite get_setitem_eq, get_setitem_ne by done.
      split_and!; try done.
      intros l1 l2 ->. destruct Hvdone.
      apply elem_of_app. right. apply list_elem_of_here.
    + rewrite get_setitem_ne by done. intros Hdx.
      destruct (Hprev x dx Hx Hdx) as (p & dp & c' & Hp & Hpd & Hdp & ?).
      exists p, dp, c'.
      assert (p <> v) as Hpv by (by intros ->).
      rewrite !get_setitem_ne by done. split_and!; tauto.
  - intros x. rewrite !get_setitem.
    destruct (x =? v)%string; [done|apply Hunr].
  - cbn in Hsize. lia.
  - done.
Qed.

Lemma relax_ok todo : forall done lo u m s,
  invariant g start goal done lo u todo m s ->
  u ∈ done -> get (distances s) u = Some (Fin lo) ->
  (forall v c, (v, c) ∈ todo -> edge g u v c) ->
  exists s',
    relax todo lo u s = Done s' /\
    invariant g start goal done lo u [] m s'.
Proof.
  induction todo as [|[v c] todo IH]; intros done lo u m s Hinv Hu Hdu Hedges.
  { by exists s. }
  assert (edge g u v c) as He by (apply Hedges; left).
  assert (forall v' c', (v', c') ∈ todo -> edge g u v' c') as Hrest.
  { intros v' c' Hin. apply Hedges. by right. }
  destruct (inv_keys_d _ _ _ _ _ _ _ _ _ Hinv v (Hclosed u v c He))
    as [old Hold].
  cbn [relax]. unfold getitem. rewrite Hold. cbn [then_].
  destruct (below (lo + c) old) eqn:Hbelow.
  - apply IH; [by eapply relax_update|done| |done].
    cbn. rewrite get_setitem_ne; [done|].
    intros ->. destruct (inv_done _ _ _ _ _ _ _ _ _ Hinv v Hu)
      as (dw & Hdw & _).
    rewrite Hold in Hdw. injection Hdw as ->.
    rewrite Hdu in Hold. injection Hold as ->. cbn in Hbelow.
    pose proof (Hnonneg v v c He). lia.
  - apply IH; [|done|done|done].
    destruct old as [|dv]; [done|]. cbn in Hbelow.
    eapply relax_skip; [done|done|done|lia].
Qed.

Lemma relax_stale items (d : Z) (u : string) s :
  (forall v c, (v, c) ∈ items ->
     exists dv, get (distances s) v = Some (Fin dv) /\ (dv <= d + c)%Z) ->
  relax items d u s = Done s.
Proof.
  induction items as [|[v c] items IH]; intros Hall; [done|].
  destruct (Hall v c) as (dv & Hdv & Hle); [left|].
  cbn [relax]. unfold getitem. rewrite Hdv. cbn.
  destruct (Z.ltb_spec (d + c) dv); [lia|].
  apply IH. intros v' c' Hin. apply Hall. by right.
Qed.

(** *** The [while pq] loop *)

Lemma pop_entry done lo u0 m s d u rest :
  invariant g start goal done lo u0 [] m s ->
  heappop (pq s) = Some ((d, u), rest) ->
  (d, u) ∈ pq s /\ ((d, u) ∉ rest) /\ 1 + length rest = length (pq s) /\
  (forall x, x ∈ rest -> x ∈ pq s) /\
  (forall x, x ∈ pq s -> x = (d, u) \/ x ∈ rest) /\
  (forall d' w, (d', w) ∈ rest -> (d <= d')%Z) /\ NoDup rest.
Proof.
  intros Hinv Hpop. pose proof (heappop_perm _ _ _ Hpop) as Hperm.
  pose proof (inv_nodup _ _ _ _ _ _ _ _ _ Hinv) as Hnd.
  rewrite Hperm in Hnd. apply NoDup_cons in Hnd as [Hnot Hnd].
  split_and!; try done.
  - rewrite Hperm. left.
  - by rewrite Hperm.
  - intros x Hx. rewrite Hperm. by right.
  - intros x Hx. rewrite Hperm in Hx. by apply elem_of_cons in Hx.
  - intros d' w Hin. apply (heappop_least _ _ _ Hpop _ Hin).
Qed.

Lemma pop_stale done lo u0 m s d u rest du :
  invariant g start goal done lo u0 [] m s ->
  heappop (pq s) = Some ((d, u), rest) ->
  get (distances s) u = Some (Fin du) -> (du < d)%Z ->
  u ∈ done /\
  invariant g start goal done lo u0 [] (m - 1)
    (mkSearch rest (distances s) (previous_nodes s)) /\ 0 < m.
Proof.
  intros Hinv Hpop Hdu Hlt.
  destruct (pop_entry _ _ _ _ _ _ _ _ Hinv Hpop)
    as (Hin & Hnot & Hlen & Hsub & Hcases & Hleast & Hnd').
  destruct Hinv
    as [Hkd Hkp Hst Hlo Hpq Hnd Hpend Hdone Hgoal Hprev Hunr Hsize Hbud].
  assert (u ∈ done) as Hu.
  { destruct (Hpend u du Hdu) as [Hq|?]; [|done].
    destruct (Hcases _ Hq) as [[= ->]|Hr]; [lia|].
    specialize (Hleast _ _ Hr). lia. }
  split; [done|]. split; [|cbn in Hsize; lia].
  split; cbn [pq distances previous_nodes]; try done.
  - intros d' w Hw. apply Hpq. by apply Hsub.
  - intros w dw Hw. destruct (Hpend w dw Hw) as [Hq|?]; [|by right].
    destruct (Hcases _ Hq) as [[= -> ->]|?]; [by right|by left].
  - intros w Hw. destruct (Hdone w Hw) as (dw & Hdw & Hlow & Hnotin & Hnb).
    exists dw. split_and!; try done. intros Hr. apply Hnotin. by apply Hsub.
  - cbn [length] in Hsize |- *. lia.
  - lia.
Qed.

Lemma pop_fresh done lo u0 m s d u rest items :
  invariant g start goal done lo u0 [] m s ->
  heappop (pq s) = Some ((d, u), rest) ->
  get (distances s) u = Some (Fin d) -> u <> goal ->
  get (nodes g) u = Some items ->
  invariant g start goal (u :: done) d u items (m - 1)
    (mkSearch rest (distances s) (previous_nodes s)) /\ 0 < m.
Proof.
  intros Hinv Hpop Hdu Hgoal' Hitems.
  destruct (pop_entry _ _ _ _ _ _ _ _ Hinv Hpop)
    as (Hin & Hnot & Hlen & Hsub & Hcases & Hleast & Hnd').
  destruct Hinv
    as [Hkd Hkp Hst Hlo Hpq Hnd Hpend Hdone Hgoal Hprev Hunr Hsize Hbud].
  destruct (Hpq d u Hin) as (Hlod & Hunode & _).
  assert (u ∉ done) as Hu.
  { intros Hu. destruct (Hdone u Hu) as (dw & Hdw & _ & Hnotin & _).
    rewrite Hdu in Hdw. injection Hdw as <-. done. }
  pose proof (load_drop u done (nodes g) items Hu Hitems) as Hload.
  split; [|cbn in Hsize; lia].
  split; cbn [pq distances previous_nodes]; try done.
  - lia.
  - intros d' w Hw. destruct (Hpq d' w (Hsub _ Hw)) as (_ & ? & ?).
    split_and!; [by eapply Hleast|done|done].
  - intros w dw Hw. destruct (Hpend w dw Hw) as [Hq|?]; [|by right; right].
    destruct (Hcases _ Hq) as [[= -> ->]|?]; [right; left|by left].
  - intros w [->|Hw]%elem_of_cons.
    + exists d. split_and!; [done|lia|done|].
      intros v c (items' & Hget & Hvc). left. split; [done|].
      rewrite Hitems in Hget. by injection Hget as <-.
    + destruct (Hdone w Hw) as (dw & Hdw & Hlow & Hnotin & Hnb).
      exists dw. split_and!; [done|lia| |].
      * intros Hr. apply Hnotin. by apply Hsub.
      * intros v c He. destruct (Hnb v c He) as [[_ ?%elem_of_nil]|?]; [done|].
        by right.
  - intros [->|?]%elem_of_cons; done.
  - intros v dv Hv Hdv.
    destruct (Hprev v dv Hv Hdv) as (p & dp & c & Hp & Hpd & Hdp & He & Heq & Hb).
    exists p, dp, c. split_and!; try done; [by right|].
    intros l1 l2 Hsplit. destruct l1 as [|x l1]; cbn in Hsplit.
    + injection Hsplit as _ <-. done.
    + injection Hsplit as _ Hsplit. by eapply Hb.
  - cbn [length] in Hsize |- *. lia.
  - cbn [length] in Hsize |- *. lia.
Qed.

(** Along a walk that starts at a reached node there is a queued entry,
    unless the walk ends in [done]; either is within the cost of the
    walk. *)
Lemma frontier done lo u0 m s path x y c :
  invariant g start goal done lo u0 [] m s ->
  route g path x y c ->
  forall dx, get (distances s) x = Some (Fin dx) ->
    (exists d w, (d, w) ∈ pq s /\ (d <= dx + c)%Z) \/
    (y ∈ done /\
     exists dy, get (distances s) y = Some (Fin dy) /\ (dy <= dx + c)%Z).
Proof.
  intros Hinv. induction 1 as [u|u v c path w total He Hr IH]; intros dx Hdx.
  - destruct (inv_pending _ _ _ _ _ _ _ _ _ Hinv u dx Hdx) as [Hq|Hd].
    + left. exists dx, u. split; [done|lia].
    + right. split; [done|]. exists dx. split; [done|lia].
  - pose proof (route_nonneg _ _ _ _ Hr) as Htotal.
    pose proof (Hnonneg u v c He) as Hc.
    destruct (inv_pending _ _ _ _ _ _ _ _ _ Hinv u dx Hdx) as [Hq|Hd].
    { left. exists dx, u. split; [done|lia]. }
    destruct (inv_done _ _ _ _ _ _ _ _ _ Hinv u Hd)
      as (dw & Hdw & _ & _ & Hnb).
    rewrite Hdx in Hdw. injection Hdw as <-.
    destruct (Hnb v c He) as [[_ ?%elem_of_nil]|(dv & Hdv & Hle)]; [done|].
    destruct (IH dv Hdv) as [(d & z & Hz & Hd')|(Hy & dy & Hdy & Hle')].
    + left. exists d, z. split; [done|lia].
    + right. split; [done|]. exists dy. split; [done|lia].
Qed.

Lemma exit_empty done lo u0 m s :
  invariant g start goal done lo u0 [] m s -> pq s = [] ->
  explored g start goal done s.
Proof.
  intros Hinv Hpq. pose proof Hinv as
    [Hkd Hkp Hst Hlo _ Hnd Hpend Hdone Hgoal Hprev Hunr Hsize Hbud].
  split; try done.
  - lia.
  - intros path c Hr.
    destruct (frontier _ _ _ _ _ _ _ _ _ Hinv Hr 0%Z (proj1 Hst))
      as [(d & w & Hw & _)|[? _]]; [|done].
    rewrite Hpq in Hw. by apply elem_of_nil in Hw.
Qed.

Lemma exit_goal done lo u0 m s d rest :
  invariant g start goal done lo u0 [] m s ->
  heappop (pq s) = Some ((d, goal), rest) ->
  explored g start goal done
    (mkSearch rest (distances s) (previous_nodes s)).
Proof.
  intros Hinv Hpop.
  destruct (pop_entry _ _ _ _ _ _ _ _ Hinv Hpop)
    as (Hin & Hnot & Hlen & Hsub & Hcases & Hleast & Hnd').
  pose proof Hinv as
    [Hkd Hkp Hst Hlo Hpq Hnd Hpend Hdone Hgoal Hprev Hunr Hsize Hbud].
  split; cbn [pq distances previous_nodes]; try done.
  - lia.
  - intros path c Hr.
    destruct (Hpq d goal Hin) as (_ & _ & dg & Hdg & Hle).
    assert (dg = d) as ->.
    { destruct (Hpend goal dg Hdg) as [Hq|?]; [|done].
      destruct (Hcases _ Hq) as [[= ->]|Hq']; [done|].
      specialize (Hleast _ _ Hq'). lia. }
    exists d. split; [done|].
    destruct (frontier _ _ _ _ _ _ _ _ _ Hinv Hr 0%Z (proj1 Hst))
      as [(d' & w & Hw & Hd')|[? _]]; [|done].
    destruct (Hcases _ Hw) as [[= -> ->]|Hw']; [lia|].
    specialize (Hleast _ _ Hw'). lia.
Qed.

Lemma explore_ok (fuel : nat) : forall done lo u0 m s,
  invariant g start goal done lo u0 [] m s -> m <= fuel ->
  exists s' done',
    explore fuel g goal s = Done s' /\ explored g start goal done' s'.
Proof.
  induction fuel as [|fuel IH]; intros done lo u0 m s Hinv Hm.
  - destruct (heappop (pq s)) as [[[d u] rest]|] eqn:Hpop.
    + destruct (pop_entry _ _ _ _ _ _ _ _ Hinv Hpop) as (_ & _ & Hlen & _).
      pose proof (inv_size _ _ _ _ _ _ _ _ _ Hinv). lia.
    + exists s, done. cbn. rewrite Hpop. split; [done|].
      eapply exit_empty; [done|]. by apply heappop_None.
  - cbn [explore].
    destruct (heappop (pq s)) as [[[d u] rest]|] eqn:Hpop.
    2:{ exists s, done. split; [done|].
        eapply exit_empty; [done|]. by apply heappop_None. }
    destruct (String.eqb_spec u goal) as [->|Hne].
    { eexists _, done. split; [done|]. by eapply exit_goal. }
    destruct (pop_entry _ _ _ _ _ _ _ _ Hinv Hpop) as (Hin & _).
    destruct (inv_pq _ _ _ _ _ _ _ _ _ Hinv d u Hin)
      as (_ & [items Hitems] & du & Hdu & Hle).
    unfold getitem. rewrite Hitems. cbn [then_].
    destruct (decide (du = d)) as [->|Hlt].
    + destruct (pop_fresh _ _ _ _ _ _ _ _ _ Hinv Hpop Hdu Hne Hitems)
        as [Hinv' Hpos].
      destruct (relax_ok items (u :: done) d u (m - 1) _ Hinv')
        as (s1 & Hrun & Hinv1); [left|done| |].
      { intros v c Hvc. by exists items. }
      rewrite Hrun. cbn [then_]. eapply IH; [done|lia].
    + destruct (pop_stale _ _ _ _ _ _ _ _ _ Hinv Hpop Hdu)
        as (Hu & Hinv' & Hpos); [lia|].
      rewrite relax_stale.
      * cbn [then_]. eapply IH; [done|lia].
      * intros v c Hvc. cbn.
        destruct (inv_done _ _ _ _ _ _ _ _ _ Hinv u Hu)
          as (dw & Hdw & _ & _ & Hnb).
        rewrite Hdu in Hdw. injection Hdw as <-.
        destruct (Hnb v c) as [[_ ?%elem_of_nil]|(dv & Hdv & Hle')];
          [by exists items|done|].
        exists dv. split; [done|lia].
Qed.

Lemma initial_invariant :
  has_node g start ->
  invariant g start goal [] 0 start [] (1 + load [] (nodes g))
    (mkSearch [(0%Z, start)]
       (setitem (constant Inf (nodes g)) start (Fin 0))
       (constant None (nodes g))).
Proof.
  intros Hstart. split; cbn [pq distances previous_nodes].
  - intros v Hv. rewrite get_setitem, get_constant.
    destruct (v =? start)%string; [by eexists|].
    destruct Hv as [? ->]. by eexists.
  - intros v. rewrite get_constant. unfold has_node.
    destruct (get (nodes g) v); split; intros [? ?];
      first [done|by eexists].
  - rewrite get_setitem_eq, get_constant.
    by destruct Hstart as [? ->].
  - done.
  - intros d w [= -> ->]%list_elem_of_singleton.
    split_and!; [done|done|]. exists 0%Z. by rewrite get_setitem_eq.
  - apply NoDup_singleton.
  - intros w dw. rewrite get_setitem, get_constant.
    destruct (String.eqb_spec w start) as [->|Hne].
    + intros [= <-]. left. apply list_elem_of_here.
    + by destruct (get (nodes g) w).
  - by intros w ?%elem_of_nil.
  - by intros ?%elem_of_nil.
  - intros v dv Hv. rewrite get_setitem_ne, get_constant by done.
    by destruct (get (nodes g) v).
  - intros v. rewrite get_setitem, !get_constant.
    destruct (v =? start)%string; [done|].
    by destruct (get (nodes g) v).
  - cbn [length]. lia.
  - unfold budget. cbn [length]. lia.
Qed.

(** *** The walk back along [previous_nodes] *)

Lemma rebuild_done done s (fuel : nat) :
  explored g start goal done s ->
  forall x l1 l2 dx acc,
    done = l1 ++ x :: l2 -> length l2 < fuel ->
    get (distances s) x = Some (Fin dx) ->
    exists chain,
      rebuild fuel (previous_nodes s) acc x = Done (acc ++ chain) /\
      route g (rev (chain ++ [start])) start x dx.
Proof.
  intros Hexp. induction fuel as [|fuel IH];
    intros x l1 l2 dx acc Hsplit Hlen Hdx; [lia|].
  destruct (String.string_dec x start) as [->|Hne].
  - destruct (exp_start _ _ _ _ _ Hexp) as [Hd Hp].
    exists []. cbn. unfold getitem. rewrite Hp. cbn. rewrite app_nil_r.
    split; [done|]. rewrite Hd in Hdx. injection Hdx as <-. constructor.
  - destruct (exp_prev _ _ _ _ _ Hexp x dx Hne Hdx)
      as (p & dp & c & Hp & Hpd & Hdp & He & -> & Hb).
    specialize (Hb l1 l2 Hsplit).
    apply list_elem_of_split in Hb as (l2a & l2b & ->).
    destruct (IH p (l1 ++ x :: l2a) l2b dp (acc ++ [x])) as (chain & Hrun & Hr).
    { by rewrite <- app_assoc. }
    { rewrite length_app in Hlen. cbn in Hlen. lia. }
    { done. }
    exists (x :: chain). cbn [rebuild]. unfold getitem. rewrite Hp.
    cbn [then_]. rewrite Hrun, <- app_assoc. split; [done|].
    cbn [app rev]. eapply route_snoc; [exact Hr|done].
Qed.

Lemma rebuild_ok done s (fuel : nat) dg :
  explored g start goal done s -> length done < fuel ->
  get (distances s) goal = Some (Fin dg) ->
  exists path,
    rebuild fuel (previous_nodes s) [] goal = Done path /\
    route g (rev (path ++ [start])) start goal dg.
Proof.
  intros Hexp Hfuel Hdg.
  destruct (String.string_dec goal start) as [Heq|Hne].
  - destruct (exp_start _ _ _ _ _ Hexp) as [Hd Hp]. rewrite Heq in *.
    exists []. rewrite Hd in Hdg. injection Hdg as <-. split; [|constructor].
    destruct fuel; cbn; unfold getitem; by rewrite Hp.
  - destruct (exp_prev _ _ _ _ _ Hexp goal dg Hne Hdg)
      as (p & dp & c & Hp & Hpd & Hdp & He & -> & Hb).
    apply list_elem_of_split in Hpd as (l1 & l2 & Hsplit).
    destruct fuel as [|fuel]; [lia|].
    destruct (rebuild_done done s fuel Hexp p l1 l2 dp [goal] Hsplit)
      as (chain & Hrun & Hr); [|done|].
    { rewrite Hsplit, length_app in Hfuel. cbn in Hfuel. lia. }
    exists (goal :: chain). cbn [rebuild]. unfold getitem. rewrite Hp.
    cbn [then_ app]. rewrite Hrun. split; [done|].
    cbn [app rev]. eapply route_snoc; [exact Hr|done].
Qed.

(** *** [dijkstra] *)

Lemma dijkstra_explored (fuel : nat) :
  has_node g start -> budget g <= fuel ->
  exists s done,
    explore fuel g goal
      (mkSearch [(0%Z, start)]
         (setitem (constant Inf (nodes g)) start (Fin 0))
         (constant None (nodes g))) = Done s /\
    explored g start goal done s.
Proof.
  intros Hstart Hfuel.
  eapply explore_ok; [by apply initial_invariant|].
  unfold budget in Hfuel. lia.
Qed.

Lemma dijkstra_result (fuel : nat) :
  has_node g start -> has_node g goal -> budget g <= fuel ->
  exists s done path d,
    explored g start goal done s /\
    get (distances s) goal = Some d /\
    dijkstra fuel g start goal = Done (path, d) /\
    match d with
    | Fin c => route g path start goal c
    | Inf => path = [start]
    end.
Proof.
  intros Hstart Hgoal Hfuel.
  destruct (dijkstra_explored fuel Hstart Hfuel) as (s & done & Hrun & Hexp).
  unfold dijkstra. rewrite Hrun. cbn [then_].
  destruct (exp_keys_d _ _ _ _ _ Hexp goal Hgoal) as [[|dg] Hdg].
  - pose proof (exp_unreached _ _ _ _ _ Hexp goal Hdg) as Hp.
    exists s, done, [start], Inf. split_and!; try done.
    assert (rebuild fuel (previous_nodes s) [] goal = Done []) as ->.
    { destruct fuel; cbn; unfold getitem; by rewrite Hp. }
    cbn [then_]. unfold getitem. by rewrite Hdg.
  - pose proof (exp_budget _ _ _ _ _ Hexp) as Hlen.
    destruct (rebuild_ok done s fuel dg Hexp) as (path & Hpath & Hr);
      [lia|done|].
    exists s, done, (rev (path ++ [start])), (Fin dg).
    split_and!; try done.
    rewrite Hpath. cbn [then_]. unfold getitem. by rewrite Hdg.
Qed.

End SearchFacts.

Section Shortest.
Import Dijsktra Paths.

(** X22.  On a graph whose neighbours are all nodes and whose costs are
    at least 0, [dijkstra] between two nodes returns.  When it reports a
    number, the path it returns is a walk from [start] to [goal] whose
    costs add up to that number, and no walk from [start] to [goal]
    costs less; when it reports [inf], the path is [[start]] and there
    is no walk from [start] to [goal]. *)
Theorem dijkstra_shortest g start goal (fuel : nat) :
  closed g -> nonnegative g ->
  has_node g start -> has_node g goal -> budget g <= fuel ->
  exists path d,
    dijkstra fuel g start goal = Done (path, d) /\
    match d with
    | Fin c =>
        route g path start goal c /\
        forall path' c', route g path' start goal c' -> (c <= c')%Z
    | Inf =>
        path = [start] /\ forall path' c', ~ route g path' start goal c'
    end.
Proof.
  intros Hclosed Hnonneg Hstart Hgoal Hfuel.
  destruct (dijkstra_result g start goal Hclosed Hnonneg fuel
              Hstart Hgoal Hfuel)
    as (s & done & path & d & Hexp & Hd & Hrun & Hpath).
  exists path, d. split; [done|].
  destruct d as [|c]; (split; [done|]); intros path' c' Hr;
    destruct (exp_best _ _ _ _ _ Hexp path' c' Hr) as (d & Hd' & Hle);
    rewrite Hd in Hd'; [done|]. by injection Hd' as <-.
Qed.

Lemma route_rev g path a b c :
  undirected g -> route g path a b c -> route g (rev path) b a c.
Proof.
  intros Hsym. induction 1 as [u|u v c path w total He _ IH].
  - constructor.
  - replace (c + total)%Z with (total + c)%Z by lia.
    change (rev (u :: v :: path)) with (rev (v :: path) ++ [u]).
    eapply (route_snoc g); [exact IH|]. by apply Hsym.
Qed.


End Shortest.

Section EdgeCases.
Import Dijsktra Paths.

(** X24.  On a graph in which every neighbour is a node and no cost is
    negative, when [goal] is no node of the graph, the search from a
    node goes through everything it can reach and then fails with
    [KeyError] at [previous_nodes[goal]]. *)
Theorem dijkstra_unknown_goal g start goal (fuel : nat) :
  closed g -> nonnegative g ->
  has_node g start -> ~ has_node g goal -> budget g <= fuel ->
  dijkstra fuel g start goal = KeyError.
Proof.
  intros Hclosed Hnonneg Hstart Hgoal Hfuel.
  destruct (dijkstra_explored g start goal Hclosed Hnonneg fuel
              Hstart Hfuel) as (s & done & Hrun & Hexp).
  unfold dijkstra. rewrite Hrun. cbn [then_].
  assert (get (previous_nodes s) goal = None) as Hp.
  { destruct (get (previous_nodes s) goal) eqn:Hget; [|done].
    destruct Hgoal. apply (exp_keys_p _ _ _ _ _ Hexp). by eexists. }
  destruct fuel; cbn; unfold getitem; by rewrite Hp.
Qed.

(** X25.  When [start] is no node of the graph, [dijkstra] fails with
    [KeyError], whatever the goal: at [self.nodes[start]], or at
    [previous_nodes[goal]] when [goal] is [start]. *)
Theorem dijkstra_unknown_start g start goal (fuel : nat) :
  ~ has_node g start -> dijkstra (S fuel) g start goal = KeyError.
Proof.
  intros Hstart. unfold dijkstra. cbn [explore heappop pq].
  assert (get (nodes g) start = None) as Hget.
  { destruct (get (nodes g) start) eqn:Hget; [|done].
    destruct Hstart. by eexists. }
  destruct (String.eqb_spec start goal) as [<-|Hne]; cbn.
  - unfold getitem. by rewrite get_constant, Hget.
  - unfold getitem. by rewrite Hget.
Qed.

End EdgeCases.

Section DijsktraExamples.
Import Dijsktra Paths.

Lemma built_undirected_witness :
  proper game_map /\ closed game_map /\ nonnegative game_map /\
  forall u v, cost_of game_map u v = cost_of game_map v u.
Proof. apply (built_undirected game_map). apply game_map_built. Defined.

Lemma dijkstra_shortest_witness :
  exists path d,
    dijkstra 20 game_map "Inicio" "Final" = Done (path, d) /\
    match d with
    | Fin c =>
        route game_map path "Inicio" "Final" c /\
        forall path' c',
          route game_map path' "Inicio" "Final" c' -> (c <= c')%Z
    | Inf =>
        path = ["Inicio"%string] /\
        forall path' c', ~ route game_map path' "Inicio" "Final" c'
    end.
Proof.
  destruct (built_closed game_map game_map_built) as (Hc & Hn & _).
  apply (dijkstra_shortest game_map "Inicio" "Final" 20 Hc Hn).
  - by eexists.
  - by eexists.
  - vm_compute. lia.
Defined.


Lemma dijkstra_unknown_goal_witness :
  dijkstra 20 game_map "Inicio" "Lago" = KeyError.
Proof.
  destruct (built_closed game_map game_map_built) as (Hc & Hn & _).
  apply (dijkstra_unknown_goal game_map "Inicio" "Lago" 20 Hc Hn).
  - by eexists.
  - by intros [x [=]].
  - vm_compute. lia.
Defined.

Lemma dijkstra_unknown_start_witness :
  dijkstra 1 game_map "Lago" "Final" = KeyError.
Proof.
  apply (dijkstra_unknown_start game_map "Lago" "Final" 0).
  by intros [x [=]].
Defined.

End DijsktraExamples.

(** *** A negative cost *)

Section NegativeCost.
Import Dijsktra Paths.
Variables (a b goal : string) (c : Z).
Hypothesis Hc : (c < 0)%Z.
Hypothesis Hab : a <> b.
Hypothesis Hga : goal <> a.
Hypothesis Hgb : goal <> b.

Lemma single_edge :
  add_edge new_graph a b c = Done (mkGraph [(a, [(b, c)]); (b, [(a, c)])]).
Proof.
  unfold add_edge, add_node, new_graph, contains, getitem. cbn.
  repeat (first [rewrite String.eqb_refl
                |rewrite (proj2 (String.eqb_neq b a)) by done
                |rewrite (proj2 (String.eqb_neq a b)) by done]; cbn).
  done.
Qed.

Lemma spin (fuel : nat) : forall x y d dy D P,
  (x = a /\ y = b) \/ (x = b /\ y = a) ->
  get D x = Some (Fin d) -> get D y = Some dy ->
  below (d + c) dy = true ->
  explore fuel (mkGraph [(a, [(b, c)]); (b, [(a, c)])]) goal
    (mkSearch [(d, x)] D P) = Unfinished.
Proof.
  induction fuel as [|fuel IH]; intros x y d dy D P Hxy Hx Hy Hbelow; [done|].
  assert (x <> y) as Hne by (destruct Hxy as [[-> ->]|[-> ->]]; done).
  assert (x <> goal) as Hxg by (destruct Hxy as [[-> _]|[-> _]]; done).
  assert (getitem (nodes (mkGraph [(a, [(b, c)]); (b, [(a, c)])])) x
          = Done [(y, c)]) as Hitems.
  { unfold getitem. cbn. destruct Hxy as [[-> ->]|[-> ->]].
    - by rewrite String.eqb_refl.
    - rewrite (proj2 (String.eqb_neq b a)) by done.
      by rewrite String.eqb_refl. }
  cbn [explore heappop pq distances previous_nodes].
  rewrite (proj2 (String.eqb_neq x goal)) by done.
  rewrite Hitems. cbn [then_ relax distances]. unfold getitem at 1.
  rewrite Hy. cbn [then_]. rewrite Hbelow. cbn [then_ relax].
  apply (IH y x (d + c)%Z (Fin d)).
  - destruct Hxy as [[-> ->]|[-> ->]]; [by right|by left].
  - cbn. apply get_setitem_eq.
  - cbn. by rewrite get_setitem_ne.
  - cbn. lia.
Qed.

End NegativeCost.

Section NegativeCostResult.
Import Dijsktra Paths.



End NegativeCostResult.

(** * A-star search: what [a_estrella] returns *)

Section AStarFacts.
Import AStar Caminos.
Context `{Heapq}.
Hypothesis Hlaws : heapq_laws.
Variable obtener_vecinos : string -> list (string * Z).
Variable heuristica : string -> string -> num.
Variables (names : list string) (inicio objetivo : string).
Hypothesis Hnames : cerrado_por_vecinos obtener_vecinos names.

Lemma en_cerrada_true cerrada v : en_cerrada cerrada v = true <-> v ∈ cerrada.
Proof.
  unfold en_cerrada. rewrite existsb_exists. split.
  - intros (x & Hx & ->%String.eqb_eq). by apply list_elem_of_In.
  - intros Hv. exists v. split; [by apply list_elem_of_In|].
    apply String.eqb_refl.
Qed.

Lemma en_cerrada_false cerrada v :
  en_cerrada cerrada v = false <-> v ∉ cerrada.
Proof.
  rewrite <- en_cerrada_true. by destruct (en_cerrada cerrada v).
Qed.

Lemma en_abierta_true abierta v :
  en_abierta abierta v = true <-> v ∈ map nombre abierta.
Proof.
  unfold en_abierta. rewrite existsb_exists, list_elem_of_fmap. split.
  - intros (n & Hn & ->%String.eqb_eq). exists n.
    split; [done|by apply list_elem_of_In].
  - intros (n & -> & Hn). exists n. split; [by apply list_elem_of_In|].
    apply String.eqb_refl.
Qed.

Lemma camino_desde_head n : nombre n ∈ camino_desde n.
Proof. destruct n. cbn. left. Qed.

(** *** The loop over the neighbours *)
Lemma explorar_spec nodo cerrada vecinos : forall abierta,
  NoDup (map nombre abierta) ->
  NoDup (map nombre (explorar heuristica vecinos nodo objetivo cerrada
                       abierta)) /\
  (forall n, n ∈ abierta ->
     n ∈ explorar heuristica vecinos nodo objetivo cerrada abierta) /\
  (forall n, n ∈ explorar heuristica vecinos nodo objetivo cerrada abierta ->
     n ∈ abierta \/
     exists v c, (v, c) ∈ vecinos /\ (v ∉ cerrada) /\
                 nombre n = v /\ padre n = Some nodo) /\
  (forall v c, (v, c) ∈ vecinos ->
     v ∈ cerrada \/
     v ∈ map nombre (explorar heuristica vecinos nodo objetivo cerrada
                       abierta)).
Proof.
  induction vecinos as [|[v c] vecinos IH]; intros abierta Hnd.
  { cbn. split_and!; [done|done|by left|]. by intros v c ?%elem_of_nil. }
  cbn [explorar].
  assert (forall P : string -> Prop,
            (exists x c', (x, c') ∈ vecinos /\ P x) ->
            exists x c', (x, c') ∈ (v, c) :: vecinos /\ P x) as Hweak.
  { intros P (x & c' & Hx & HP). exists x, c'. split; [by right|done]. }
  destruct (en_cerrada cerrada v) eqn:Hc.
  { apply en_cerrada_true in Hc.
    destruct (IH abierta Hnd) as (H1 & H2 & H3 & H4).
    split_and!; [done|done| |].
    - intros n Hn. destruct (H3 n Hn) as [?|Hnew]; [by left|right].
      by apply (Hweak (fun x => (x ∉ cerrada) /\ nombre n = x /\ _)).
    - intros v' c' [[= -> ->]|Hin]%elem_of_cons; [by left|by eapply H4]. }
  apply en_cerrada_false in Hc.
  destruct (en_abierta abierta v) eqn:Ha; cbn [negb].
  { apply en_abierta_true in Ha.
    destruct (IH abierta Hnd) as (H1 & H2 & H3 & H4).
    split_and!; [done|done| |].
    - intros n Hn. destruct (H3 n Hn) as [?|Hnew]; [by left|right].
      by apply (Hweak (fun x => (x ∉ cerrada) /\ nombre n = x /\ _)).
    - intros v' c' [[= -> ->]|Hin]%elem_of_cons; [|by eapply H4].
      right. apply list_elem_of_fmap in Ha as (n & -> & Hn).
      apply list_elem_of_fmap. exists n. split; [done|by apply H2]. }
  assert (v ∉ map nombre abierta) as Hv.
  { intros Hv%en_abierta_true. congruence. }
  set (nv := new_nodo v (add (g nodo) (Fin c)) (heuristica v objetivo)
               (Some nodo)).
  pose proof (heappush_perm Hlaws abierta nv) as Hperm.
  destruct (IH (heappush abierta nv)) as (H1 & H2 & H3 & H4).
  { rewrite Hperm. cbn. by apply NoDup_cons. }
  split_and!; [done| | |].
  - intros n Hn. apply H2. rewrite Hperm. by right.
  - intros n Hn. destruct (H3 n Hn) as [Hold|Hnew].
    + rewrite Hperm in Hold. apply elem_of_cons in Hold as [->|?]; [|by left].
      right. exists v, c. split_and!; try done. left.
    + right.
      by apply (Hweak (fun x => (x ∉ cerrada) /\ nombre n = x /\ _)).
  - intros v' c' [[= -> ->]|Hin]%elem_of_cons; [|by eapply H4].
    right. apply list_elem_of_fmap. exists nv. split; [done|].
    apply H2. rewrite Hperm. left.
Qed.

(** *** The chain of parents *)
Lemma camino_snoc path a b x :
  camino obtener_vecinos path a b -> vecino_de obtener_vecinos b x ->
  camino obtener_vecinos (path ++ [x]) a x.
Proof.
  intros Hp Hx. induction Hp as [u|u v path w Huv _ IH]; cbn.
  - apply camino_paso; [done|constructor].
  - apply camino_paso; [done|]. by apply IH.
Qed.

Lemma trazado_camino : forall n,
  trazado obtener_vecinos inicio n ->
  camino obtener_vecinos (rev (camino_desde n)) inicio (nombre n) /\
  NoDup (camino_desde n).
Proof.
  fix IH 1. intros [nm g0 h0 f0 [p|]]; cbn.
  - intros (Hv & Hnm & Hp). destruct (IH p Hp) as [Hc Hnd]. split.
    + eapply camino_snoc; [exact Hc|done].
    + by apply NoDup_cons.
  - intros ->. split; [constructor|]. apply NoDup_singleton.
Qed.

Lemma camino_desde_cases n x :
  x ∈ camino_desde n ->
  x = nombre n \/ exists p, padre n = Some p /\ x ∈ camino_desde p.
Proof.
  destruct n as [nm g0 h0 f0 [p|]]; cbn.
  - intros [->|Hx]%elem_of_cons; [by left|right]. by exists p.
  - intros ->%list_elem_of_singleton. by left.
Qed.

(** *** The [while abierta] loop *)
Lemma pendientes_le (x : string) cerrada l :
  length (pendientes l (x :: cerrada)) <= length (pendientes l cerrada).
Proof.
  unfold pendientes. induction l as [|y l IH]; [done|].
  rewrite !filter_cons.
  destruct (decide (en_cerrada (x :: cerrada) y = false)) as [H1|H1],
    (decide (en_cerrada cerrada y = false)) as [H2|H2];
    cbn [length]; try lia.
  destruct H2. apply en_cerrada_false. apply en_cerrada_false in H1.
  intros Hy. apply H1. by right.
Qed.

Lemma pendientes_lt (x : string) cerrada l :
  x ∈ l -> x ∉ cerrada ->
  length (pendientes l (x :: cerrada)) < length (pendientes l cerrada).
Proof.
  intros Hx Hc. unfold pendientes. induction l as [|y l IH].
  { by apply elem_of_nil in Hx. }
  rewrite !filter_cons.
  pose proof (pendientes_le x cerrada l) as Hle. unfold pendientes in Hle.
  destruct (decide (en_cerrada (x :: cerrada) y = false)) as [H1|H1],
    (decide (en_cerrada cerrada y = false)) as [H2|H2]; cbn [length].
  - apply en_cerrada_false in H1.
    apply elem_of_cons in Hx as [->|Hx]; [destruct H1; left|].
    specialize (IH Hx). lia.
  - destruct H2. apply en_cerrada_false. apply en_cerrada_false in H1.
    intros Hy. apply H1. by right.
  - lia.
  - apply elem_of_cons in Hx as [->|Hx].
    + destruct H2. by apply en_cerrada_false.
    + by apply IH.
Qed.

Lemma paso abierta cerrada n rest :
  estado_ok obtener_vecinos names inicio objetivo abierta cerrada ->
  heappop abierta = Some (n, rest) -> nombre n <> objetivo ->
  estado_ok obtener_vecinos names inicio objetivo
    (explorar heuristica (obtener_vecinos (nombre n)) n objetivo
       (nombre n :: cerrada) rest)
    (nombre n :: cerrada) /\
  length (pendientes names (nombre n :: cerrada))
    < length (pendientes names cerrada).
Proof.
  intros [Hnd Hfresh Htraza Hcerr Hini Hfront] Hpop Hne.
  pose proof (heappop_perm Hlaws _ _ _ Hpop) as Hperm.
  assert (forall m, m ∈ rest -> m ∈ abierta) as Hsub.
  { intros m Hm. rewrite Hperm. by right. }
  assert (n ∈ abierta) as Hn by (rewrite Hperm; left).
  rewrite Hperm in Hnd. cbn in Hnd. apply NoDup_cons in Hnd as [Hnn Hnd].
  destruct (Hfresh n Hn) as [Hnc Hnnames].
  destruct (Htraza n Hn) as [Htn Hpn].
  assert (forall x, x ∈ camino_desde n -> x ∈ nombre n :: cerrada) as Hcam.
  { intros x [->|(p & Hp & Hx)]%camino_desde_cases; [left|right].
    by eapply Hpn. }
  destruct (explorar_spec n (nombre n :: cerrada)
              (obtener_vecinos (nombre n)) rest Hnd)
    as (H1 & H2 & H3 & H4).
  split; [|by apply pendientes_lt].
  split.
  - done.
  - intros m Hm. destruct (H3 m Hm) as [Hold|(v & c & Hv & Hvc & Hnm & _)].
    + destruct (Hfresh m (Hsub m Hold)) as [Hmc Hmn]. split; [|done].
      intros [Heq|?]%elem_of_cons; [|done]. apply Hnn. rewrite <- Heq.
      apply list_elem_of_fmap. by exists m.
    + rewrite Hnm. split; [done|].
      apply (Hnames (nombre n) v Hnnames). by exists c.
  - intros m Hm.
    destruct (H3 m Hm) as [Hold|(v & c & Hv & Hvc & Hnm & Hpad)].
    + destruct (Htraza m (Hsub m Hold)) as [Htm Hpm]. split; [done|].
      intros p x Hp Hx. right. by eapply Hpm.
    + split.
      * destruct m as [nm g0 h0 f0 pm]. cbn in Hnm, Hpad. subst nm pm. cbn.
        split_and!; [by exists c| |done].
        intros Hin. apply Hvc. by apply Hcam.
      * intros p x Hp Hx. rewrite Hpad in Hp. injection Hp as <-.
        by apply Hcam.
  - intros x [->|Hx]%elem_of_cons; [done|by apply Hcerr].
  - destruct Hini as [?|Hin]; [by left; right|].
    rewrite Hperm in Hin. cbn in Hin.
    apply elem_of_cons in Hin as [->|Hin]; [left; left|right].
    apply list_elem_of_fmap in Hin as (m & -> & Hm).
    apply list_elem_of_fmap. exists m. split; [done|by apply H2].
  - intros u v [->|Hu]%elem_of_cons Huv.
    + destruct Huv as [c Hc]. destruct (H4 v c Hc); [by left|by right].
    + destruct (Hfront u v Hu Huv) as [?|Hin]; [by left; right|].
      rewrite Hperm in Hin. cbn in Hin.
      apply elem_of_cons in Hin as [->|Hin]; [left; left|right].
      apply list_elem_of_fmap in Hin as (m & -> & Hm).
      apply list_elem_of_fmap. exists m. split; [done|by apply H2].
Qed.

Lemma agotada cerrada :
  estado_ok obtener_vecinos names inicio objetivo [] cerrada ->
  ~ alcanzable obtener_vecinos inicio objetivo.
Proof.
  intros [_ _ _ Hcerr Hini Hfront] [path Hpath].
  assert (forall path a b, camino obtener_vecinos path a b ->
            a ∈ cerrada -> b ∈ cerrada) as Hclosed.
  { induction 1 as [u|u v path' w Huv _ IH]; [done|].
    intros Hu. apply IH. destruct (Hfront u v Hu Huv) as [?|Hin]; [done|].
    by apply elem_of_nil in Hin. }
  destruct Hini as [Hin|Hin]; [|by apply elem_of_nil in Hin].
  by destruct (Hcerr objetivo (Hclosed _ _ _ Hpath Hin)).
Qed.

Lemma bucle_ok (fuel : nat) : forall abierta cerrada,
  estado_ok obtener_vecinos names inicio objetivo abierta cerrada ->
  length (pendientes names cerrada) < fuel ->
  (exists path,
     bucle obtener_vecinos heuristica fuel objetivo abierta cerrada
       = Ok (Some path) /\
     camino obtener_vecinos path inicio objetivo /\ NoDup path) \/
  (bucle obtener_vecinos heuristica fuel objetivo abierta cerrada
     = Ok None /\
   ~ alcanzable obtener_vecinos inicio objetivo).
Proof.
  induction fuel as [|fuel IH]; intros abierta cerrada Hok Hfuel; [lia|].
  destruct abierta as [|n0 abierta0].
  { right. split; [done|]. by eapply agotada. }
  cbn [bucle].
  destruct (heappop_Some Hlaws (n0 :: abierta0)) as [[n rest] Hpop]; [done|].
  rewrite Hpop.
  destruct (String.eqb_spec (nombre n) objetivo) as [Heq|Hne].
  - left. eexists. split; [done|].
    assert (n ∈ n0 :: abierta0) as Hn.
    { rewrite (heappop_perm Hlaws _ _ _ Hpop). left. }
    destruct (ok_traza _ _ _ _ _ _ Hok n Hn) as [Htn _].
    destruct (trazado_camino n Htn) as [Hc Hnd]. rewrite Heq in Hc.
    split; [done|]. by rewrite <- Permutation_rev.
  - destruct (paso _ cerrada n rest Hok Hpop Hne) as [Hok' Hlt].
    apply IH; [done|lia].
Qed.

End AStarFacts.

Section AStarResults.
Import AStar Caminos.
Context `{Heapq}.
Variable obtener_vecinos : string -> list (string * Z).
Variable heuristica : string -> string -> num.

Lemma a_estrella_result names inicio objetivo (fuel : nat) :
  heapq_laws -> cerrado_por_vecinos obtener_vecinos names ->
  inicio ∈ names -> length names < fuel ->
  (exists path,
     a_estrella obtener_vecinos heuristica fuel inicio objetivo
       = Ok (Some path) /\
     camino obtener_vecinos path inicio objetivo /\ NoDup path) \/
  (a_estrella obtener_vecinos heuristica fuel inicio objetivo = Ok None /\
   ~ alcanzable obtener_vecinos inicio objetivo).
Proof.
  intros Hlaws Hnames Hini Hfuel. unfold a_estrella.
  set (n0 := new_nodo inicio (Fin 0) (heuristica inicio objetivo) None).
  pose proof (heappush_perm Hlaws [] n0) as Hperm.
  apply (bucle_ok Hlaws obtener_vecinos heuristica names inicio objetivo
           Hnames).
  2:{ unfold pendientes.
      pose proof (length_filter (fun x => en_cerrada [] x = false) names).
      lia. }
  split.
  - rewrite Hperm. apply NoDup_singleton.
  - intros n Hn. rewrite Hperm in Hn.
    apply list_elem_of_singleton in Hn as ->. split; [|done].
    by intros ?%elem_of_nil.
  - intros n Hn. rewrite Hperm in Hn.
    apply list_elem_of_singleton in Hn as ->. split; [done|]. done.
  - by intros x ?%elem_of_nil.
  - right. rewrite Hperm. left.
  - by intros u v ?%elem_of_nil.
Qed.

(** X26.  When [objetivo] can be reached from [inicio] through the
    neighbour lists, and these reach finitely many names, [a_estrella]
    returns a path: a walk from [inicio] to [objetivo] along the neighbour lists
    that visits no name twice.  This holds for every heuristic and for
    every order in which the queue hands out nodes of equal [f]. *)
Theorem a_estrella_finds names inicio objetivo (fuel : nat) :
  heapq_laws -> cerrado_por_vecinos obtener_vecinos names ->
  inicio ∈ names -> length names < fuel ->
  alcanzable obtener_vecinos inicio objetivo ->
  exists path,
    a_estrella obtener_vecinos heuristica fuel inicio objetivo
      = Ok (Some path) /\
    camino obtener_vecinos path inicio objetivo /\ NoDup path.
Proof.
  intros Hlaws Hnames Hini Hfuel Hreach.
  by destruct (a_estrella_result names inicio objetivo fuel
                 Hlaws Hnames Hini Hfuel) as [?|[_ ?]].
Qed.

(** X27.  When [objetivo] cannot be reached from [inicio], [a_estrella]
    goes through every name that can be reached and returns [None]. *)
Theorem a_estrella_none names inicio objetivo (fuel : nat) :
  heapq_laws -> cerrado_por_vecinos obtener_vecinos names ->
  inicio ∈ names -> length names < fuel ->
  ~ alcanzable obtener_vecinos inicio objetivo ->
  a_estrella obtener_vecinos heuristica fuel inicio objetivo = Ok None.
Proof.
  intros Hlaws Hnames Hini Hfuel Hreach.
  destruct (a_estrella_result names inicio objetivo fuel
              Hlaws Hnames Hini Hfuel) as [(path & _ & Hp & _)|[? _]];
    [|done].
  destruct Hreach. by exists path.
Qed.

End AStarResults.

Section AStarExamples.
Import AStar Caminos.

Lemma ltb_asym x y : ltb x y = true -> ltb y x = false.
Proof. destruct x, y; cbn; try done. lia. Qed.

Lemma ltb_neg_trans x y z :
  ltb x y = false -> ltb y z = false -> ltb x z = false.
Proof. destruct x, y, z; cbn; try done. lia. Qed.

Lemma pop_min_None heap : pop_min heap = None -> heap = [].
Proof.
  destruct heap as [|x heap]; [done|]. cbn.
  destruct (pop_min heap) as [[y rest]|]; [|done]. by destruct (lt y x).
Qed.

Lemma pop_min_perm heap : forall x rest,
  pop_min heap = Some (x, rest) -> heap ≡ₚ x :: rest.
Proof.
  induction heap as [|x0 heap IH]; intros x rest; cbn; [done|].
  destruct (pop_min heap) as [[y rest']|] eqn:Hpop.
  - destruct (lt y x0); intros [= <- <-]; [|done].
    rewrite (IH y rest' eq_refl). apply perm_swap.
  - intros [= <- <-]. by rewrite (pop_min_None heap Hpop).
Qed.

Lemma pop_min_least heap : forall x rest,
  pop_min heap = Some (x, rest) -> forall y, y ∈ rest -> lt y x = false.
Proof.
  induction heap as [|x0 heap IH]; intros x rest; cbn; [done|].
  destruct (pop_min heap) as [[y rest']|] eqn:Hpop.
  - pose proof (IH y rest' eq_refl) as Hmin.
    destruct (lt y x0) eqn:Hlt; intros [= <- <-] z Hz.
    + apply elem_of_cons in Hz as [->|Hz]; [|by apply Hmin].
      by apply ltb_asym.
    + rewrite (pop_min_perm heap y rest' Hpop) in Hz.
      apply elem_of_cons in Hz as [->|Hz]; [done|].
      eapply ltb_neg_trans; [by apply Hmin|done].
  - intros [= <- <-] z Hz. by apply elem_of_nil in Hz.
Qed.

Lemma lista_laws : heapq_laws (H := lista).
Proof.
  split; cbn.
  - done.
  - apply pop_min_perm.
  - apply pop_min_least.
  - intros [|x heap] Hne; [done|]. cbn.
    destruct (pop_min heap) as [[y rest]|]; [|by eexists].
    destruct (lt y x); by eexists.
Qed.

Lemma letras_cerrado : cerrado_por_vecinos obtener_vecinos letras.
Proof.
  intros u v Hu [c Hc]. unfold letras in *.
  repeat (apply elem_of_cons in Hu as [->|Hu]);
    [..|by apply elem_of_nil in Hu]; cbn in Hc;
    repeat (apply elem_of_cons in Hc as [[= -> ->]|Hc]);
    try (by apply elem_of_nil in Hc);
    repeat first [apply list_elem_of_here|apply list_elem_of_further].
Qed.

Lemma camino_en_names vecinos names path a b :
  cerrado_por_vecinos vecinos names -> camino vecinos path a b ->
  a ∈ names -> b ∈ names.
Proof.
  intros Hnames. induction 1 as [u|u v path w Huv _ IH]; [done|].
  intros Hu. apply IH. by eapply Hnames.
Qed.

Lemma a_estrella_finds_witness :
  exists path,
    a_estrella (H := lista) obtener_vecinos heuristica 5 "A" "D"
      = Ok (Some path) /\
    camino obtener_vecinos path "A" "D" /\ NoDup path.
Proof.
  apply (a_estrella_finds (H := lista) obtener_vecinos heuristica letras
           "A" "D" 5 lista_laws letras_cerrado).
  - left.
  - cbn. lia.
  - exists ["A"; "C"; "D"]%string.
    apply camino_paso; [exists 4%Z; cbn; right; left|].
    apply camino_paso; [exists 1%Z; cbn; right; right; left|].
    constructor.
Defined.

Lemma a_estrella_none_witness :
  a_estrella (H := lista) obtener_vecinos heuristica 5 "A" "Z" = Ok None.
Proof.
  apply (a_estrella_none (H := lista) obtener_vecinos heuristica letras
           "A" "Z" 5 lista_laws letras_cerrado).
  - left.
  - cbn. lia.
  - intros [path Hpath].
    assert ("Z"%string ∈ letras) as Hz.
    { eapply camino_en_names; [apply letras_cerrado|done|left]. }
    unfold letras in Hz.
    repeat (apply elem_of_cons in Hz as [[=]|Hz]).
    by apply elem_of_nil in Hz.
Defined.

End AStarExamples.
